(** * CrawlForAI: sitemap resolution, page fetching and text chunking

    A shallow embedding of the content-acquisition and segmentation code of
    the repository ([sitemap_chunks.py], [main.py],
    [sitemap_page_per_file_recursive.py]) and the properties its
    specification states about it.

    Conventions.
    - A Python [str] is a [list ascii]: a sequence of code points, here the
      code points below 256.  Python [int]s are [Z].
    - The standard [re] patterns of the program are kept as regular
      expression syntax trees and run by a small backtracking matcher
      ([Module Regex]) with the priorities of Python's [re].
    - Loops that the source does not bound take fuel and return [None] when
      it runs out; every result the theorems speak of is shown to exist. *)

From Stdlib Require Import ZArith Lia Ascii String DecimalString DecimalNat.
From stdpp Require Import base decidable option list sets gmap strings.

Local Open Scope Z_scope.

(** ** Python strings *)

Module PyStr.

Definition text := list ascii.

(** A literal of the source, as a sequence of characters. *)
Definition lit (s : string) : text := list_ascii_of_string s.

Definition code (c : ascii) : nat := nat_of_ascii c.

Definition newline : ascii := ascii_of_nat 10.

(** [str.isspace] on one character, also the class [\s] of [re] on [str]
    patterns: TAB, LF, VT, FF, CR, the separators 28..31, SPACE, NEL (133)
    and NBSP (160). *)
Definition is_space (c : ascii) : bool :=
  let n := code c in
  ((9 <=? n) && (n <=? 13) || (28 <=? n) && (n <=? 32)
   || (n =? 133) || (n =? 160))%nat.

Definition is_newline (c : ascii) : bool := (code c =? 10)%nat.

Fixpoint lstrip (s : text) : text :=
  match s with
  | c :: s' => if is_space c then lstrip s' else s
  | [] => []
  end.

Definition rstrip (s : text) : text := reverse (lstrip (reverse s)).

(** [s.strip()] *)
Definition strip (s : text) : text := rstrip (lstrip s).

(** [len(s)] *)
Definition len {A} (s : list A) : Z := Z.of_nat (length s).

(** A slice bound as Python normalises it: a negative bound counts from
    the end, and every bound is clamped to [0, len]. *)
Definition norm_index (n i : Z) : Z :=
  if i <? 0 then Z.max (i + n) 0 else Z.min i n.

(** [s[start:stop]] *)
Definition slice {A} (s : list A) (start stop : Z) : list A :=
  let b := norm_index (len s) start in
  let e := norm_index (len s) stop in
  take (Z.to_nat (e - b)) (drop (Z.to_nat b) s).

(** [s[-k:]]: for [k = 0] the bound [-0] is [0], so the whole sequence. *)
Definition slice_from {A} (s : list A) (start : Z) : list A :=
  drop (Z.to_nat (norm_index (len s) start)) s.

(** [s.startswith(pre)] *)
Fixpoint starts_with (pre s : text) : bool :=
  match pre, s with
  | [], _ => true
  | a :: pre', c :: s' => Ascii.eqb a c && starts_with pre' s'
  | _ :: _, [] => false
  end.

(** [s.split(sep)] for a one-character separator. *)
Fixpoint split_char (sep : ascii) (s : text) : list text :=
  match s with
  | [] => [[]]
  | c :: s' =>
      if Ascii.eqb c sep then [] :: split_char sep s'
      else match split_char sep s' with
           | p :: ps => (c :: p) :: ps
           | [] => [[c]]
           end
  end.

(** [sep.join(parts)] *)
Fixpoint join (sep : text) (parts : list text) : text :=
  match parts with
  | [] => []
  | [p] => p
  | p :: ps => p ++ sep ++ join sep ps
  end.

(** A relation that holds between every two consecutive elements of a
    sequence. *)
Inductive consecutive {A} (P : A -> A -> Prop) : list A -> Prop :=
| consecutive_nil : consecutive P []
| consecutive_one x : consecutive P [x]
| consecutive_cons x y l :
    P x y -> consecutive P (y :: l) -> consecutive P (x :: y :: l).

End PyStr.

Import PyStr.

(** ** Fixed-window chunking ([chunk_text], [main.py] and [sitemap_chunks.py]) *)

Module Window.

Section Config.
(** The module constants [MAX_CHARS] and [OVERLAP]. *)
Variables MAX_CHARS OVERLAP : Z.

(** The [while] loop of [chunk_text], returning the [(start, end)] pair of
    every window it emits, in order.  [length] is [len(text)]. *)
Fixpoint windows_from (fuel : nat) (length start : Z) : option (list (Z * Z)) :=
  match fuel with
  | O => None
  | S fuel' =>
      if start <? length then
        let end_ := Z.min (start + MAX_CHARS) length in
        if end_ =? length then Some [(start, end_)]
        else cons (start, end_) <$> windows_from fuel' length (end_ - OVERLAP)
      else Some []
  end.

Definition windows (fuel : nat) (t : text) : option (list (Z * Z)) :=
  windows_from fuel (len t) 0.

(** [chunk_text(text)]: each emitted window is [text[start:end]]. *)
Definition chunk_text (fuel : nat) (t : text) : option (list text) :=
  map (fun w => slice t (fst w) (snd w)) <$> windows fuel t.
End Config.

(** How a window [w2] follows a window [w1]: [w1] is a full window, [w2]
    starts [OVERLAP] before its end, that is [MAX_CHARS - OVERLAP] after its
    start. *)
Definition advance (MAX_CHARS OVERLAP : Z) (w1 w2 : Z * Z) : Prop :=
  snd w1 = fst w1 + MAX_CHARS /\
  fst w2 = snd w1 - OVERLAP /\
  fst w2 = fst w1 + (MAX_CHARS - OVERLAP).

(** The text put together again from its chunks: the first chunk, then
    every later chunk without the [overlap] characters it repeats. *)
Definition stitch (overlap : nat) (chunks : list text) : text :=
  match chunks with
  | [] => []
  | c :: cs => c ++ flat_map (drop overlap) cs
  end.

End Window.

(** ** The fragment of Python's [re] that the program uses *)

Module Regex.

(** One-character classes. *)
Inductive cls :=
| CLit (a : ascii)   (* a literal character *)
| CDot               (* [.] without DOTALL: anything but a newline *)
| CSpace.            (* [\s] *)

Definition cls_match (k : cls) (c : ascii) : bool :=
  match k with
  | CLit a => Ascii.eqb a c
  | CDot => negb (is_newline c)
  | CSpace => is_space c
  end.

Inductive re :=
| Eps
| Chr (k : cls)
| Bol                      (* [^] under re.MULTILINE *)
| Eol                      (* [$] under re.MULTILINE *)
| Seq (r1 r2 : re)
| Alt (r1 r2 : re)         (* [r1|r2], left alternative first *)
| Group (r : re)           (* the capturing group *)
| Star (greedy : bool) (k : cls).  (* [k*] and [k*?] *)

(** [k+] *)
Definition Plus (greedy : bool) (k : cls) : re := Seq (Chr k) (Star greedy k).

(** A literal string. *)
Fixpoint Str (s : text) : re :=
  match s with
  | [] => Eps
  | c :: s' => Seq (Chr (CLit c)) (Str s')
  end.

(** Where the matcher stands: [pos] characters consumed, [prev] the
    character before the position, [rest] the text from the position on,
    [grp] the capturing group if it is closed. *)
Record cursor := Cursor {
  pos : nat;
  prev : option ascii;
  rest : text;
  grp : option text
}.

(** The character before the position once [s] has been consumed. *)
Definition prev_after (pv : option ascii) (s : text) : option ascii :=
  foldl (fun _ c => Some c) pv s.

Definition at_bol (cu : cursor) : bool :=
  match prev cu with
  | None => true
  | Some c => is_newline c
  end.

Definition at_eol (cu : cursor) : bool :=
  match rest cu with
  | [] => true
  | c :: _ => is_newline c
  end.

Definition first_of {R} (a b : option R) : option R :=
  match a with
  | Some x => Some x
  | None => b
  end.

Section Matcher.
Context {R : Type}.

(** [k*] then the continuation: the greedy star tries the longest run
    first, the lazy star the shortest. *)
Fixpoint star (greedy : bool) (k : cls) (cont : cursor -> option R)
    (g : option text) (p : nat) (pv : option ascii) (rs : text) : option R :=
  let stop := cont (Cursor p pv rs g) in
  match rs with
  | c :: rs' =>
      if cls_match k c then
        let more := star greedy k cont g (S p) (Some c) rs' in
        if greedy then first_of more stop else first_of stop more
      else stop
  | [] => stop
  end.

(** Backtracking match of [r] at a cursor, then the continuation. *)
Fixpoint run (r : re) (cont : cursor -> option R) (cu : cursor) : option R :=
  match r with
  | Eps => cont cu
  | Chr k =>
      match rest cu with
      | c :: rs' =>
          if cls_match k c then cont (Cursor (S (pos cu)) (Some c) rs' (grp cu))
          else None
      | [] => None
      end
  | Bol => if at_bol cu then cont cu else None
  | Eol => if at_eol cu then cont cu else None
  | Seq r1 r2 => run r1 (run r2 cont) cu
  | Alt r1 r2 => first_of (run r1 cont cu) (run r2 cont cu)
  | Group r1 =>
      run r1 (fun cu' =>
                cont (Cursor (pos cu') (prev cu') (rest cu')
                        (Some (take (pos cu' - pos cu) (rest cu))))) cu
  | Star greedy k => star greedy k cont (grp cu) (pos cu) (prev cu) (rest cu)
  end.
End Matcher.

(** A match object: [m.start()], [m.end()], [m.group(1)]. *)
Record found := Found {
  m_start : nat;
  m_end : nat;
  m_group : option text
}.

(** The match of [r] that starts exactly at the position, if any. *)
Definition match_at (r : re) (p : nat) (pv : option ascii) (rs : text) : option found :=
  run r (fun cu => Some (Found p (pos cu) (grp cu))) (Cursor p pv rs None).

(** The scan of [finditer]: leftmost matches, the next search starting
    where the last match ended.  [skip] characters lie inside the last
    match.  (An empty match moves the scan on by one character; no pattern
    of this program matches the empty string.) *)
Fixpoint scan (r : re) (skip : nat) (p : nat) (pv : option ascii) (rs : text) : list found :=
  let here := match skip with
              | O => match_at r p pv rs
              | S _ => None
              end in
  let skip' := match here with
               | Some m => (m_end m - p - 1)%nat
               | None => pred skip
               end in
  match here with Some m => [m] | None => [] end ++
  match rs with
  | [] => []
  | c :: rs' => scan r skip' (S p) (Some c) rs'
  end.

(** [r.finditer(s)] *)
Definition finditer (r : re) (s : text) : list found := scan r 0 0 None s.

(** [re.findall(r, s)] for a pattern with one group. *)
Definition findall (r : re) (s : text) : list text :=
  map (fun m => default [] (m_group m)) (finditer r s).

(** The pieces of [s] between the matches [ms], from offset [p] on. *)
Fixpoint pieces (s : text) (p : nat) (ms : list found) : list text :=
  match ms with
  | [] => [drop p s]
  | m :: ms' => take (m_start m - p) (drop p s) :: pieces s (m_end m) ms'
  end.

(** [re.split(r, s)] for a pattern without groups. *)
Definition split (r : re) (s : text) : list text := pieces s 0 (finditer r s).

(** The same place in a text of which [d] more characters come before: what
    a pattern can tell of a position is whether a line starts there, the
    text ahead, and the group. *)
Definition shifted (d : nat) (cu cu' : cursor) : Prop :=
  pos cu' = (pos cu + d)%nat /\ at_bol cu' = at_bol cu /\
  rest cu' = rest cu /\ grp cu' = grp cu.

(** Both fail, or both succeed with related results. *)
Definition both {A B} (rel : A -> B -> Prop) (a : option A) (b : option B) : Prop :=
  match a, b with
  | Some x, Some y => rel x y
  | None, None => True
  | _, _ => False
  end.

(** A match moved [d] characters to the right. *)
Definition shift (d : nat) (m : found) : found :=
  Found (m_start m + d) (m_end m + d) (m_group m).

End Regex.

Import Regex.

(** ** Header sectioning and paragraph packing ([sitemap_chunks.py]) *)

Module Chunks.

(** [re.compile(r'^(# .+|## .+)$', re.MULTILINE)] *)
Definition header_pat : re :=
  Seq Bol
    (Seq (Group (Alt (Seq (Str (lit "# ")) (Plus true CDot))
                     (Seq (Str (lit "## ")) (Plus true CDot))))
         Eol).

(** [bounds = [m.start() for m in header_pat.finditer(markdown)] + [len(markdown)]] *)
Definition bounds (markdown : text) : list Z :=
  map (fun m => Z.of_nat (m_start m)) (finditer header_pat markdown) ++ [len markdown].

(** The loop over [range(len(bounds)-1)]: the slice between each bound and
    the next, stripped, kept when it is not empty. *)
Fixpoint sections_between (markdown : text) (bs : list Z) : list text :=
  match bs with
  | b0 :: ((b1 :: _) as bs') =>
      let sec := strip (slice markdown b0 b1) in
      match sec with
      | [] => sections_between markdown bs'
      | _ :: _ => sec :: sections_between markdown bs'
      end
  | _ => []
  end.

(** [chunk_by_header(markdown)] *)
Definition chunk_by_header (markdown : text) : list text :=
  sections_between markdown (bounds markdown).

(** [chunk_markdown(md)], the same function under its name in [main.py]. *)
Definition chunk_markdown (md : text) : list text :=
  sections_between md (bounds md).

(** The lines of a document: [md.split("\n")]. *)
Definition lines (md : text) : list text := split_char newline md.

(** A line that starts with the marker of a top-level or of a second-level
    heading. *)
Definition has_marker (line : text) : bool :=
  starts_with (lit "# ") line || starts_with (lit "## ") line.

(** No line of the document starts with a heading marker. *)
Definition no_heading_line (md : text) : bool :=
  forallb (fun line => negb (has_marker line)) (lines md).

(** The lines that begin at or after a position with [rs] ahead and [pv]
    before it. *)
Definition lines_ahead (pv : option ascii) (rs : text) : list text :=
  if at_bol (Cursor 0 pv rs None) then lines rs else tail (lines rs).

(** [r'\n\s*\n'] *)
Definition para_sep : re :=
  Seq (Chr (CLit newline)) (Seq (Star true CSpace) (Chr (CLit newline))).

(** ["\n\n"] *)
Definition blank_line : text := [newline; newline].

(** [sum(len(x)+2 for x in curr)] *)
Definition curr_length (curr : list text) : Z :=
  foldr (fun x acc => (len x + 2) + acc) 0 curr.

(** The state of the packing loop: [chunks], [curr], [curr_len]. *)
Record packing := Packing {
  chunks : list text;
  curr : list text;
  curr_len : Z
}.

Definition is_nonempty {A} (l : list A) : bool :=
  match l with
  | [] => false
  | _ :: _ => true
  end.

Section Packing.
Variables max_chars overlap_paras : Z.

(** One iteration of [for p in paras]. *)
Definition pack_step (st : packing) (p : text) : packing :=
  let plen := len p + 2 in
  let st1 :=
    if (curr_len st + plen >? max_chars) && is_nonempty (curr st) then
      let curr' := slice_from (curr st) (- overlap_paras) in
      Packing (chunks st ++ [strip (join blank_line (curr st))])
              curr' (curr_length curr')
    else st in
  Packing (chunks st1) (curr st1 ++ [p]) (curr_len st1 + plen).

Definition pack_loop (paras : list text) (st : packing) : packing :=
  foldl pack_step st paras.

(** [chunk_by_paragraphs(section, max_chars, overlap_paras)] *)
Definition chunk_by_paragraphs (section : text) : list text :=
  let paras := split para_sep (strip section) in
  let st := pack_loop paras (Packing [] [] 0) in
  if is_nonempty (curr st) then
    chunks st ++ [strip (join blank_line (curr st))]
  else chunks st.

(** The same loop keeping, instead of each chunk's text, the accumulator
    that was flushed to make it. *)
Record grouping := Grouping {
  groups : list (list text);
  g_curr : list text;
  g_len : Z
}.

Definition group_step (st : grouping) (p : text) : grouping :=
  let plen := len p + 2 in
  let st1 :=
    if (g_len st + plen >? max_chars) && is_nonempty (g_curr st) then
      let curr' := slice_from (g_curr st) (- overlap_paras) in
      Grouping (groups st ++ [g_curr st]) curr' (curr_length curr')
    else st in
  Grouping (groups st1) (g_curr st1 ++ [p]) (g_len st1 + plen).

Definition paragraph_groups (paras : list text) : list (list text) :=
  let st := foldl group_step (Grouping [] [] 0) paras in
  if is_nonempty (g_curr st) then groups st ++ [g_curr st] else groups st.
End Packing.

(** How the accumulator [g'] of a chunk follows from the accumulator [g] of
    the chunk flushed before it: [g[-overlap_paras:]], then the new
    paragraphs. *)
Definition seeded (overlap_paras : Z) (g g' : list text) : Prop :=
  exists more, more <> [] /\ g' = slice_from g (- overlap_paras) ++ more.

(** What the accumulator loop keeps true: the flushed accumulators follow
    from one another, and the current one follows from the last flushed. *)
Definition seeding (overlap_paras : Z) (gt : grouping) : Prop :=
  consecutive (seeded overlap_paras) (groups gt) /\
  forall gs g, groups gt = gs ++ [g] -> seeded overlap_paras g (g_curr gt).

(** An accumulator that is exactly one new paragraph after what was carried
    over from an earlier accumulator (after nothing, at the start). *)
Definition fresh (overlap_paras : Z) (earlier : list (list text)) (g : list text) : Prop :=
  exists seed p,
    g = seed ++ [p] /\
    (seed = [] \/ exists prev, prev ∈ earlier /\ seed = slice_from prev (- overlap_paras)).

(** What the accumulator loop keeps true of sizes: [curr_len] is the size of
    [curr], and every accumulator is within the bound or fresh. *)
Definition sized (max_chars overlap_paras : Z) (gt : grouping) : Prop :=
  g_len gt = curr_length (g_curr gt) /\
  Forall (fun g => curr_length g <= max_chars \/ fresh overlap_paras (groups gt) g)
         (groups gt) /\
  (g_curr gt = [] \/ curr_length (g_curr gt) <= max_chars
   \/ fresh overlap_paras (groups gt) (g_curr gt)).

(** The text of the chunk made from an accumulator. *)
Definition render (g : list text) : text := strip (join blank_line g).

(** The paragraphs of a section, as [chunk_by_paragraphs] splits it. *)
Definition paragraphs (section : text) : list text :=
  split para_sep (strip section).

(** The overlap that the accumulator after [acc] starts with. *)
Definition seed_of (overlap_paras : Z) (acc : list (list text)) : list text :=
  match last acc with
  | Some g => slice_from g (- overlap_paras)
  | None => []
  end.

(** The accumulators made from consecutive runs of paragraphs: each is the
    overlap of the one before it followed by the next run. *)
Definition assemble (overlap_paras : Z) (runs : list (list text)) : list (list text) :=
  foldl (fun acc run => acc ++ [seed_of overlap_paras acc ++ run]) [] runs.

(** What the accumulator loop has done with the paragraphs [ps] it has
    seen: nothing yet, or it has cut them into runs, the last one still
    open. *)
Definition cut_into_runs (overlap_paras : Z) (gt : grouping) (ps : list text) : Prop :=
  (groups gt = [] /\ g_curr gt = [] /\ ps = []) \/
  exists runs cur,
    cur <> [] /\ Forall (fun run => run <> []) runs /\
    ps = concat runs ++ cur /\
    groups gt = assemble overlap_paras runs /\
    g_curr gt = seed_of overlap_paras (assemble overlap_paras runs) ++ cur.

End Chunks.

(** ** Results of effectful code *)

Module Effect.

(** The exceptions ([Exception] subclasses) the modelled code can meet. *)
Inductive exn :=
| RequestException              (* requests: timeout, connection failure *)
| HTTPError (status : Z)        (* [resp.raise_for_status()] *)
| NameError (name : string)     (* a global name that is not bound *)
| CrawlerError                  (* anything the headless crawler raises *)
| ValueError                    (* the XML parser: a declared multi-byte encoding *)
| LookupError.                  (* the XML parser: a declared encoding it does not know *)

(** A call returns or raises. *)
Inductive result (A : Type) :=
| Ok (a : A)
| Raise (e : exn).
Arguments Ok {A} a.
Arguments Raise {A} e.

Definition rbind {A B} (r : result A) (f : A -> result B) : result B :=
  match r with
  | Ok a => f a
  | Raise e => Raise e
  end.

(** The request or status failures: what the specification calls a
    network failure. *)
Definition network_failure (e : exn) : bool :=
  match e with
  | RequestException | HTTPError _ => true
  | _ => false
  end.

(** An HTTP response: [resp.status_code] and [resp.content]. *)
Definition bytes := list Byte.byte.

Record response := Response {
  status_code : Z;
  content : bytes
}.

(** [resp.raise_for_status()]: 4xx and 5xx raise. *)
Definition raise_for_status (resp : response) : result unit :=
  if (400 <=? status_code resp) && (status_code resp <? 600)
  then Raise (HTTPError (status_code resp))
  else Ok tt.

End Effect.

Import Effect.

(** ** Recursive sitemap resolution ([sitemap_page_per_file_recursive.py]) *)

Module Sitemap.

(** An [xml.etree.ElementTree.Element]: [tag] (["{namespace}local"] or
    ["local"]), [text], and the child elements in document order. *)
#[warnings="-register-all"]
Inductive Element :=
| Elem (tag : text) (etext : option text) (children : list Element).

Definition tag (e : Element) : text := match e with Elem t _ _ => t end.

Definition etext (e : Element) : option text := match e with Elem _ x _ => x end.

Definition children (e : Element) : list Element := match e with Elem _ _ cs => cs end.

(** [elem.iter()]: the element and all its descendants, in document order. *)
Fixpoint iter (e : Element) : list Element :=
  match e with
  | Elem _ _ cs => e :: flat_map iter cs
  end.

(** What the path [.//] ranges over: every element below [e]. *)
Definition descendants (e : Element) : list Element := flat_map iter (children e).

(** [t[-len(suf):] == suf] *)
Definition ends_with (suf t : text) : bool :=
  bool_decide (drop (length t - length suf) t = suf).

(** The tag test of the path step [{*}name]: [name] in any namespace or
    in none. *)
Definition tag_is (name : text) (e : Element) : bool :=
  bool_decide (tag e = name) || ends_with (lit "}" ++ name) (tag e).

(** [e.findall(".//{*}name")] *)
Definition findall_below (name : text) (e : Element) : list Element :=
  filter (fun x => tag_is name x = true) (descendants e).

(** [e.find("{*}name")]: the first child with that tag. *)
Definition find_child (name : text) (e : Element) : option Element :=
  head (filter (fun x => tag_is name x = true) (children e)).

(** [c.lower()] on the code points below 256. *)
Definition lower_char (c : ascii) : ascii :=
  let n := code c in
  if ((65 <=? n) && (n <=? 90)
      || (192 <=? n) && (n <=? 222) && negb (n =? 215))%nat
  then ascii_of_nat (n + 32) else c.

Definition lower (s : text) : text := map lower_char s.

(** [root.tag.split("}")[-1].lower()] *)
Definition local_tag (root : Element) : text :=
  lower (default [] (last (split_char "}"%char (tag root)))).

(** What [ET.fromstring(data)] comes to: the root of the tree; the
    [ET.ParseError] that a document which is not well formed raises; or
    another exception, which [except ET.ParseError] does not catch: the
    parser raises [ValueError] on a document that declares a multi-byte
    encoding and [LookupError] on one that declares an encoding it does not
    know. *)
Inductive parsed :=
| Tree (root : Element)
| ParseError
| Fails (e : exn).

(** [loc is not None and loc.text], then [loc.text.strip()]. *)
Definition loc_text (loc : option Element) : option text :=
  match loc with
  | Some l =>
      match etext l with
      | Some (c :: t) => Some (strip (c :: t))
      | _ => None
      end
  | None => None
  end.

(** [r"<loc>\s*(.*?)\s*</loc>"] *)
Definition loc_pat : re :=
  Seq (Str (lit "<loc>"))
    (Seq (Star true CSpace)
       (Seq (Group (Star false CDot))
          (Seq (Star true CSpace) (Str (lit "</loc>"))))).

(** A character of plain contents: no newline, no [<]. *)
Definition inline_char (c : ascii) : bool :=
  negb (is_newline c) && negb (Ascii.eqb c "<"%char).

(** Plain contents as the pattern captures them: on one line, without [<],
    with no white space at either end. *)
Definition trimmed_line (u : text) : bool :=
  forallb inline_char u &&
  match u with
  | c :: _ => negb (is_space c)
  | [] => true
  end &&
  match last u with
  | Some c => negb (is_space c)
  | None => true
  end.

(** A text read left to right as a sequence of literal [<loc>...</loc>]
    pairs whose contents are plain contents [u] with white space [w1] and
    [w2] around them, line breaks included, and with anything that does not
    open a [<loc>] between the pairs. *)
Inductive loc_pairs : text -> list text -> Prop :=
| pairs_end : loc_pairs [] []
| pairs_other c t us :
    starts_with (lit "<loc>") (c :: t) = false ->
    loc_pairs t us ->
    loc_pairs (c :: t) us
| pairs_loc w1 u w2 t us :
    forallb is_space w1 = true ->
    trimmed_line u = true ->
    forallb is_space w2 = true ->
    loc_pairs t us ->
    loc_pairs (lit "<loc>" ++ w1 ++ u ++ w2 ++ lit "</loc>" ++ t) (u :: us).

(** The [urlset] branch: the [loc] text of every [url], in document order. *)
Definition urlset_locs (root : Element) : list text :=
  omap (fun urln => loc_text (find_child (lit "loc") urln))
       (findall_below (lit "url") root).

(** The last branch: every [loc] below the root. *)
Definition all_locs (root : Element) : list text :=
  omap (fun loc => loc_text (Some loc)) (findall_below (lit "loc") root).

(** The children a [sitemapindex] is expanded into, in document order. *)
Definition index_children (root : Element) : list text :=
  omap (fun sm => loc_text (find_child (lit "loc") sm))
       (findall_below (lit "sitemap") root).

(** The document with every tag put in the namespace [ns], as the parser
    gives it when the document declares [ns] as its default namespace. *)
Fixpoint qualify (ns : text) (e : Element) : Element :=
  match e with
  | Elem t x cs => Elem (lit "{" ++ ns ++ lit "}" ++ t) x (map (qualify ns) cs)
  end.

(** A name without [}]: a local name. *)
Definition plain_name (t : text) : bool :=
  forallb (fun c => negb (Ascii.eqb c "}"%char)) t.

(** A document whose tags are all local names: one without namespaces. *)
Fixpoint plain (e : Element) : bool :=
  match e with
  | Elem t _ cs => plain_name t && forallb plain cs
  end.

(** *** The variant without recursion ([sitemap_chunks.py],
    [sitemap_page_per_file.py]) *)

(** The namespace the variant knows: [ns = {"s": ...}]. *)
Definition sitemap_ns : text := lit "http://www.sitemaps.org/schemas/sitemap/0.9".

(** [e.findall(".//" + name)] for a tag without wildcard: the elements below
    [e] whose tag is exactly [tg]. *)
Definition findall_exact (tg : text) (e : Element) : list Element :=
  filter (fun x => tag x = tg) (descendants e).

(** [locs = root.findall(".//s:loc", ns)], and [root.findall(".//loc")] if
    there is none; then [[loc.text.strip() for loc in locs if loc.text]]. *)
Definition flat_locs (root : Element) : list text :=
  let locs := findall_exact (lit "{" ++ sitemap_ns ++ lit "}" ++ lit "loc") root in
  let locs := match locs with
              | [] => findall_exact (lit "loc") root
              | _ :: _ => locs
              end in
  omap (fun loc => loc_text (Some loc)) locs.

(** [r"<loc>(.*?)</loc>"] *)
Definition loc_pat_untrimmed : re :=
  Seq (Str (lit "<loc>")) (Seq (Group (Star false CDot)) (Str (lit "</loc>"))).

(** [fetch_sitemap_urls(sitemap_url)] of the variant: one request, no
    recursion.  [get] is [requests.get]. *)
Definition fetch_sitemap_urls_flat (fromstring : bytes -> parsed)
    (decode : bytes -> text) (get : text -> option response) (sitemap_url : text)
    : result (list text) :=
  match get sitemap_url with
  | None => Raise RequestException
  | Some resp =>
      rbind (raise_for_status resp) (fun _ =>
        match fromstring (content resp) with
        | Tree root => Ok (flat_locs root)
        | ParseError => Ok (findall loc_pat_untrimmed (decode (content resp)))
        | Fails e => Raise e
        end)
  end.

(** The state of one resolution run: the shared [visited] set and, as a
    record of the run, the URLs handed to [session.get] in order. *)
Record run_state := RunState {
  visited : gset text;
  fetched : list text
}.

(** A computation on the run state; [None] when the fuel runs out. *)
Definition M (A : Type) : Type := run_state -> option (result A * run_state).

Definition ret {A} (a : A) : M A := fun s => Some (Ok a, s).

Definition bind {A B} (m : M A) (f : A -> M B) : M B :=
  fun s =>
    match m s with
    | Some (Ok a, s') => f a s'
    | Some (Raise e, s') => Some (Raise e, s')
    | None => None
    end.

Definition lift {A} (r : result A) : M A := fun s => Some (r, s).

Notation "x <- m ;; k" := (bind m (fun x => k))
  (at level 100, m at next level, right associativity).

(** [urls += f(child)] for each child, in order. *)
Fixpoint extend_each (f : text -> M (list text)) (cs : list text) (urls : list text)
    : M (list text) :=
  match cs with
  | [] => ret urls
  | child :: cs' => more <- f child ;; extend_each f cs' (urls ++ more)
  end.

(** The run went from [s] to [s'] fetching [new], in that order: each of
    them once, none that had been visited, all of them visited now. *)
Definition extends (s s' : run_state) (new : list text) : Prop :=
  visited s ⊆ visited s' /\
  fetched s' = fetched s ++ new /\
  NoDup new /\
  forall x, x ∈ new -> (x ∉ visited s) /\ (x ∈ visited s').

(** How many of the listed sitemaps are still to be visited. *)
Definition pending (nodes : list text) (s : run_state) : nat :=
  length (filter (fun u => u ∉ visited s) nodes).

Section Resolver.
(** [ET.fromstring] *)
Variable fromstring : bytes -> parsed.
(** [data.decode("utf-8", errors="ignore")] *)
Variable decode : bytes -> text.
(** What [session.get(url, timeout=10)] meets: [None] when the request
    itself fails (timeout, connection), else the response. *)
Variable web : text -> option response.

Definition session_get (url : text) : M response :=
  fun s =>
    let s' := RunState (visited s) (fetched s ++ [url]) in
    match web url with
    | Some resp => Some (Ok resp, s')
    | None => Some (Raise RequestException, s')
    end.

Definition mark_visited (url : text) : M unit :=
  fun s => Some (Ok tt, RunState ({[url]} ∪ visited s) (fetched s)).

(** What the call does with the document once it is fetched; [recur] is the
    recursive call. *)
Definition expand (recur : text -> M (list text)) (data : bytes) : M (list text) :=
  match fromstring data with
  | Fails e => lift (Raise e)
  | ParseError => ret (findall loc_pat (decode data))
  | Tree root =>
      let tg := local_tag root in
      if bool_decide (tg = lit "sitemapindex") then
        extend_each recur (index_children root) []
      else if bool_decide (tg = lit "urlset") then
        ret (urlset_locs root)
      else ret (all_locs root)
  end.

(** [fetch_sitemap_urls(sitemap_url, visited)] *)
Fixpoint fetch_sitemap_urls (fuel : nat) (sitemap_url : text) : M (list text) :=
  match fuel with
  | O => fun _ => None
  | S fuel' =>
      fun s =>
        if decide (sitemap_url ∈ visited s) then Some (Ok [], s)
        else
          (_ <- mark_visited sitemap_url ;;
           resp <- session_get sitemap_url ;;
           _ <- lift (raise_for_status resp) ;;
           expand (fetch_sitemap_urls fuel') (content resp)) s
  end.

(** A call without [visited]: the run starts from a fresh set. *)
Definition resolve (fuel : nat) (sitemap_url : text) : option (result (list text) * run_state) :=
  fetch_sitemap_urls fuel sitemap_url (RunState ∅ []).

(** The sitemaps the resolver goes into from the document at [url]. *)
Definition sitemap_children (url : text) : list text :=
  match web url with
  | Some resp =>
      match raise_for_status resp, fromstring (content resp) with
      | Ok _, Tree root =>
          if bool_decide (local_tag root = lit "sitemapindex")
          then index_children root else []
      | _, _ => []
      end
  | None => []
  end.

(** The page URLs that the document at [url] itself adds to the result:
    nothing for a sitemap index, a failed request or a document on which the
    parser raises. *)
Definition page_entries (url : text) : list text :=
  match web url with
  | Some resp =>
      match raise_for_status resp, fromstring (content resp) with
      | Ok _, Tree root =>
          if bool_decide (local_tag root = lit "sitemapindex") then []
          else if bool_decide (local_tag root = lit "urlset") then urlset_locs root
          else all_locs root
      | Ok _, ParseError => findall loc_pat (decode (content resp))
      | _, _ => []
      end
  | None => []
  end.

(** What a run from [s] leaves behind and what it returns: the documents it
    fetched, each once, and after the URLs [before] the concatenation of
    their page entries in that order. *)
Definition accounted (s : run_state) (before : list text)
    (out : result (list text) * run_state) : Prop :=
  exists new,
    extends s (snd out) new /\
    forall urls, fst out = Ok urls -> urls = before ++ flat_map page_entries new.

(** How the request for [url] ends: the response passes the status check,
    or the request or the check raises. *)
Definition request (url : text) : result unit :=
  match web url with
  | Some resp => raise_for_status resp
  | None => Raise RequestException
  end.

(** The parser raises [e] on the document at [url], an exception that the
    [except ET.ParseError] lets through. *)
Definition parser_raises (url : text) (e : exn) : Prop :=
  exists resp, web url = Some resp /\ fromstring (content resp) = Fails e.

(** What the requests of a run that fetched [new] and ended in [r] were:
    all answered if the call returned; if it raised, all answered but
    perhaps the last, and the exception is that of the last request or, the
    last request answered, what the parser raised on its document. *)
Definition answered {A} (new : list text) (r : result A) : Prop :=
  match r with
  | Ok _ => Forall (fun u => request u = Ok tt) new
  | Raise e =>
      exists pre u,
        new = pre ++ [u] /\ Forall (fun u => request u = Ok tt) pre /\
        (request u = Raise e \/ (request u = Ok tt /\ parser_raises u e))
  end.

(** A finite sitemap graph: the listed URLs contain every sitemap that
    any of them leads into. *)
Definition closed_graph (nodes : list text) : bool :=
  forallb (fun u => forallb (fun c => bool_decide (c ∈ nodes)) (sitemap_children u)) nodes.
End Resolver.

End Sitemap.

(** ** Page fetching ([fetch_markdown], [sitemap_page_per_file_recursive.py]) *)

Module Fetcher.

(** The names bound at module level: the imports of lines 1 to 11, the
    constants and the functions. *)
Definition module_globals : list string :=
  ["os"; "json"; "re"; "sys"; "subprocess"; "asyncio"; "requests"; "html2text";
   "ET"; "urlparse"; "AsyncWebCrawler"; "BrowserConfig"; "CrawlerRunConfig";
   "URL"; "OUTPUT_DIR"; "MODEL"; "REQUEST_HEADERS";
   "fetch_sitemap_urls"; "ensure_model"; "summarize_chunk"; "fetch_markdown";
   "main"]%string.

(** Evaluating a global name: [NameError] when it is not bound. *)
Definition global_name (g : list string) (name : string) : result unit :=
  if bool_decide (name ∈ g) then Ok tt else Raise (NameError name).

(** What [crawler.arun] returns: [res.success] and [res.markdown]. *)
Record crawl_result := CrawlResult {
  success : bool;
  markdown : option text
}.

(** [res.success and res.markdown] *)
Definition usable (res : crawl_result) : option text :=
  if success res then
    match markdown res with
    | Some (c :: t) => Some (c :: t)
    | _ => None
    end
  else None.

Notation "x <- m ;; k" := (rbind m (fun x => k))
  (at level 100, m at next level, right associativity).

Section Fetch.
(** The global names of the module the function runs in. *)
Variable g : list string.
(** The headless crawl of a URL: returns a result or raises. *)
Variable crawler : text -> result crawl_result.
(** [requests.get(url, headers=REQUEST_HEADERS, timeout=10)]: [None] when
    the request itself fails. *)
Variable http_get : text -> option response.
(** [resp.text] *)
Variable resp_text : response -> text.
(** [conv.handle(html)] with [ignore_links = False], [body_width = 0]. *)
Variable html2text_handle : text -> text.

(** The statements of the [try] block up to the crawl. *)
Definition dynamic_scrape (url : text) : result crawl_result :=
  _ <- global_name g "os" ;;
  _ <- global_name g "contextlib" ;;
  _ <- global_name g "AsyncWebCrawler" ;;
  crawler url.

(** The [try] block with its [except Exception: pass]: [Some] when the
    function returns from it. *)
Definition dynamic_attempt (url : text) : option text :=
  match dynamic_scrape url with
  | Ok res => usable res
  | Raise _ => None
  end.

(** The static fallback. *)
Definition static_fetch (url : text) : result text :=
  _ <- global_name g "requests" ;;
  _ <- global_name g "REQUEST_HEADERS" ;;
  match http_get url with
  | None => Raise RequestException
  | Some resp =>
      _ <- raise_for_status resp ;;
      _ <- global_name g "html2text" ;;
      Ok (html2text_handle (resp_text resp))
  end.

(** The body of [fetch_markdown(url)] in a module with the names [g]. *)
Definition fetch_markdown_in (url : text) : result text :=
  _ <- global_name g "BrowserConfig" ;;
  _ <- global_name g "CrawlerRunConfig" ;;
  match dynamic_attempt url with
  | Some md => Ok md
  | None => static_fetch url
  end.
End Fetch.

(** [fetch_markdown(url)] of the module as it is. *)
Definition fetch_markdown := fetch_markdown_in module_globals.

(** The dynamic strategy fails: it raises, or its result is unsuccessful or
    has no text. *)
Definition dynamic_fails (r : result crawl_result) : bool :=
  match r with
  | Raise _ => true
  | Ok res =>
      negb (success res) ||
      match markdown res with
      | Some (_ :: _) => false
      | _ => true
      end
  end.

(** The names the function evaluates outside its [try] block. *)
Definition names_outside_try : list string :=
  ["BrowserConfig"; "CrawlerRunConfig"; "requests"; "REQUEST_HEADERS"; "html2text"]%string.

Definition binds (g : list string) (names : list string) : bool :=
  forallb (fun n => bool_decide (n ∈ g)) names.

End Fetcher.

(** ** The run over the pages ([main], [sitemap_chunks.py]) *)

(** The loop of [main] over the targets, with [summarize_chunk] and
    [fetch_markdown] of the same file.  The state is the counter and the
    files written, in order.  The messages printed and the folders made are
    left out, as are [ensure_model] and the choice of the targets before the
    loop.  The model process is taken as a function of the chunk, the prompt
    being made of the chunk alone. *)

Module Pipeline.

Import Chunks.

(** What ends a run before its time: an exception that [main] does not
    catch, or [sys.exit]. *)
Inductive stop :=
| RuntimeError (msg : text)
| TypeError
| SystemExit (code : Z).

(** The model process once it has ended: [proc.returncode] and its two
    streams, decoded. *)
Record process := Process {
  returncode : Z;
  out : text;
  err : text
}.

(** [sub in s] *)
Fixpoint occurs (sub s : text) : bool :=
  starts_with sub s ||
  match s with
  | [] => false
  | _ :: s' => occurs sub s'
  end.

(** What [fetch_markdown(url)] of this file comes to: [res.markdown], which
    may be [None], or an exception, its own [RuntimeError] for
    [not res.success] or whatever the crawler raises. *)
Inductive fetched :=
| Page (md : option text)
| Failed.

(** The decimal digits of a number. *)
Definition digits (n : nat) : text :=
  list_ascii_of_string (DecimalString.NilEmpty.string_of_uint (Nat.to_uint n)).

(** [format(n, "0w")]: the digits padded with zeros to the width [w], the
    sign first. *)
Definition zero_pad (w : nat) (n : Z) : text :=
  let d := digits (Z.abs_nat n) in
  if n <? 0 then "-"%char :: repeat "0"%char (w - 1 - length d) ++ d
  else repeat "0"%char (w - length d) ++ d.

(** [f"chunk_{counter:05}.md"] *)
Definition chunk_name (counter : Z) : text :=
  lit "chunk_" ++ zero_pad 5 counter ++ lit ".md".

(** [os.path.join(a, b)] *)
Definition join_path (a b : text) : text :=
  if starts_with (lit "/") b then b
  else if negb (is_nonempty a) || Sitemap.ends_with (lit "/") a then a ++ b
  else a ++ lit "/" ++ b.

(** [os.path.basename(p)]: what follows the last [/]. *)
Definition basename (p : text) : text :=
  default [] (last (split_char "/"%char p)).

(** [s.rfind(c)]: the index of the last [c]. *)
Fixpoint rfind (c : ascii) (s : text) : option nat :=
  match s with
  | [] => None
  | x :: s' =>
      match rfind c s' with
      | Some i => Some (S i)
      | None => if Ascii.eqb x c then Some 0%nat else None
      end
  end.

(** [os.path.splitext(p)[0]]: [p] without its extension; dots that lead the
    file name do not start an extension. *)
Definition splitext_root (p : text) : text :=
  match rfind "."%char p with
  | None => p
  | Some dot =>
      let name_start := match rfind "/"%char p with
                        | Some i => S i
                        | None => 0%nat
                        end in
      if existsb (fun c => negb (Ascii.eqb c "."%char))
                 (take (dot - name_start) (drop name_start p))
      then take dot p else p
  end.

(** What one [open(path, "w")] with its three [write]s leaves. *)
Record written := Written {
  w_path : text;
  w_body : text
}.

(** The state of the loop: [counter] and the files written so far. *)
Record run := Run {
  counter : Z;
  files : list written
}.

Section Run.
(** [ollama run MODEL] on the prompt made for a chunk. *)
Variable run_model : text -> process.
(** The headless crawl of a URL: [crawler.arun], or what it raises. *)
Variable crawler : text -> result Fetcher.crawl_result.
(** [urlparse(target).path] *)
Variable url_path : text -> text.

(** [fetch_markdown(url)] *)
Definition fetch_markdown (url : text) : fetched :=
  match crawler url with
  | Ok res => if Fetcher.success res then Page (Fetcher.markdown res) else Failed
  | Raise _ => Failed
  end.

(** [summarize_chunk(chunk, MODEL)] *)
Definition summarize_chunk (chunk : text) : text + stop :=
  let proc := run_model chunk in
  if negb (returncode proc =? 0) then
    if occurs (lit "could not connect to ollama app") (err proc)
    then inr (SystemExit 1)
    else inr (RuntimeError (lit "Ollama error: " ++ strip (err proc)))
  else inl (strip (out proc)).

(** [SUBFOLDER or f"{os.path.splitext(os.path.basename(urlparse(target).path))[0] or 'page'}_chunks"],
    [SUBFOLDER] being [None]. *)
Definition folder (target : text) : text :=
  let stem := splitext_root (basename (url_path target)) in
  (if is_nonempty stem then stem else lit "page") ++ lit "_chunks".

(** [os.path.join(OUTPUT_DIR, ...)] *)
Definition out_dir (target : text) : text := join_path (lit "out_chunks") (folder target).

(** The two inner loops on the chunks [subs] of a page, in order: summarize,
    write the file, count. *)
Fixpoint write_chunks (target : text) (subs : list text) (st : run) : run * option stop :=
  match subs with
  | [] => (st, None)
  | sub :: subs' =>
      match summarize_chunk sub with
      | inr e => (st, Some e)
      | inl summary =>
          let path := join_path (out_dir target) (chunk_name (counter st)) in
          let body := lit "Summary:" ++ [newline] ++ summary ++ [newline; newline] ++ sub in
          write_chunks target subs' (Run (counter st + 1) (files st ++ [Written path body]))
      end
  end.

(** The chunks of a page text, in the order of the two inner loops. *)
Definition page_chunks (md : text) : list text :=
  flat_map (chunk_by_paragraphs 2000 1) (chunk_by_header md).

(** The loop [for target in targets] of [main]. *)
Fixpoint main_loop (targets : list text) (st : run) : run * option stop :=
  match targets with
  | [] => (st, None)
  | target :: rest =>
      match fetch_markdown target with
      | Failed => main_loop rest st
      | Page None => (st, Some TypeError)
      | Page (Some md) =>
          match write_chunks target (page_chunks md) st with
          | (st', Some e) => (st', Some e)
          | (st', None) => main_loop rest st'
          end
      end
  end.

(** [main] from [counter = 1] on. *)
Definition run_pages (targets : list text) : run * option stop :=
  main_loop targets (Run 1 []).

(** The chunks that the pages give, in order; none for a page that is not
    fetched. *)
Definition all_chunks (targets : list text) : list text :=
  flat_map (fun target => match fetch_markdown target with
                          | Page (Some md) => page_chunks md
                          | _ => []
                          end) targets.

(** The file body for a chunk. *)
Definition body_of (sub : text) : text :=
  lit "Summary:" ++ [newline] ++ strip (out (run_model sub)) ++ [newline; newline] ++ sub.
End Run.

(** The files [new] are numbered from [first] on: each is the chunk file of
    its number in some folder. *)
Definition numbered (first : Z) (new : list written) : Prop :=
  forall (i : nat) (w : written),
    new !! i = Some w ->
    exists dir, w_path w = join_path dir (chunk_name (first + Z.of_nat i)).

(** What a stretch of the run that had the chunks [subs] before it adds:
    files numbered from the counter on, the counter moved past them, one
    file for each of the first chunks, for all of them if nothing stopped
    the run. *)
Definition adds (run_model : text -> process) (subs : list text) (st st' : run)
    (e : option stop) : Prop :=
  exists new,
    files st' = files st ++ new /\
    counter st' = counter st + len new /\
    numbered (counter st) new /\
    map w_body new = map (body_of run_model) (take (length new) subs) /\
    (e = None -> length new = length subs).

(** The number that a text of digits stands for. *)
Definition number_of (t : text) : option nat :=
  Nat.of_uint <$> DecimalString.NilEmpty.uint_of_string (string_of_list_ascii t).

End Pipeline.

(** ** Concrete inputs *)

Module Examples.

Import Sitemap.

(** The text of ASCII bytes. *)
Definition ascii_text (b : bytes) : text := map ascii_of_byte b.

Definition to_bytes (s : string) : bytes := list_byte_of_string s.

(** A module namespace that, unlike the module's own, binds [contextlib]. *)
Definition globals_with_contextlib : list string :=
  "contextlib"%string :: Fetcher.module_globals.

(** A crawler whose page load fails. *)
Definition failing_crawler (url : text) : result Fetcher.crawl_result :=
  Raise CrawlerError.

(** A crawler that succeeds on every page. *)
Definition working_crawler (url : text) : result Fetcher.crawl_result :=
  Ok (Fetcher.CrawlResult true (Some (lit "rendered"))).

(** A server that answers every GET with the same small page. *)
Definition page : response := Response 200 (to_bytes "<p>hi</p>").

Definition page_get (url : text) : option response := Some page.

Definition page_text (resp : response) : text := ascii_text (content resp).

(** A stand-in for the conversion: the markup itself. *)
Definition keep_markup (html : text) : text := html.

Fixpoint bytes_eqb (a b : bytes) : bool :=
  match a, b with
  | [], [] => true
  | x :: a', y :: b' => Byte.eqb x y && bytes_eqb a' b'
  | _, _ => false
  end.

(** A parser given by the documents it accepts and their trees; it rejects
    every other document as not well formed. *)
Definition parse_with (docs : list (bytes * Element)) (data : bytes) : parsed :=
  match List.find (fun d => bytes_eqb (fst d) data) docs with
  | Some d => Tree (snd d)
  | None => ParseError
  end.

(** A web given by its pages; a request for any other URL fails. *)
Definition serve (site : list (text * response)) (url : text) : option response :=
  snd <$> List.find (fun e => bool_decide (fst e = url)) site.

Definition loc_elem (tg url : string) : Element :=
  Elem (lit tg) None [Elem (lit "loc") (Some (lit url)) []].

(** A sitemap whose closing tag is missing. *)
Definition broken_doc : bytes := to_bytes "<urlset><url><loc>https://a/x</loc></url>".

(** A [urlset] that lists one page twice. *)
Definition pages_doc : bytes :=
  to_bytes "<urlset><url><loc>https://h/1</loc></url><url><loc>https://h/1</loc></url></urlset>".

Definition pages_tree : Element :=
  Elem (lit "urlset") None [loc_elem "url" "https://h/1"; loc_elem "url" "https://h/1"].

(** Two sitemap indexes that list each other, and the [urlset]. *)
Definition index_a_doc : bytes :=
  to_bytes "<sitemapindex><sitemap><loc>https://h/b.xml</loc></sitemap><sitemap><loc>https://h/p.xml</loc></sitemap></sitemapindex>".

Definition index_a_tree : Element :=
  Elem (lit "sitemapindex") None
    [loc_elem "sitemap" "https://h/b.xml"; loc_elem "sitemap" "https://h/p.xml"].

Definition index_b_doc : bytes :=
  to_bytes "<sitemapindex><sitemap><loc>https://h/a.xml</loc></sitemap><sitemap><loc>https://h/p.xml</loc></sitemap></sitemapindex>".

Definition index_b_tree : Element :=
  Elem (lit "sitemapindex") None
    [loc_elem "sitemap" "https://h/a.xml"; loc_elem "sitemap" "https://h/p.xml"].

Definition parse : bytes -> parsed :=
  parse_with [(pages_doc, pages_tree); (index_a_doc, index_a_tree); (index_b_doc, index_b_tree)].

Definition site : text -> option response :=
  serve [(lit "https://h/a.xml", Response 200 index_a_doc);
         (lit "https://h/b.xml", Response 200 index_b_doc);
         (lit "https://h/p.xml", Response 200 pages_doc);
         (lit "https://h/broken.xml", Response 200 broken_doc);
         (lit "https://h/gone.xml", Response 404 [])].

(** Two paragraphs of 1500 characters with a blank line between them. *)
Definition two_long_paragraphs : text :=
  repeat "a"%char 1500 ++ [newline; newline] ++ repeat "b"%char 1500.

(** An index whose second entry answers 404. *)
Definition index_top_doc : bytes :=
  to_bytes "<sitemapindex><sitemap><loc>https://h/p.xml</loc></sitemap><sitemap><loc>https://h/gone.xml</loc></sitemap><sitemap><loc>https://h/a.xml</loc></sitemap></sitemapindex>".

Definition index_top_tree : Element :=
  Elem (lit "sitemapindex") None
    [loc_elem "sitemap" "https://h/p.xml"; loc_elem "sitemap" "https://h/gone.xml";
     loc_elem "sitemap" "https://h/a.xml"].

Definition parse_top : bytes -> parsed :=
  parse_with [(index_top_doc, index_top_tree); (pages_doc, pages_tree);
              (index_a_doc, index_a_tree); (index_b_doc, index_b_tree)].

Definition site_with_gap : text -> option response :=
  serve [(lit "https://h/top.xml", Response 200 index_top_doc);
         (lit "https://h/a.xml", Response 200 index_a_doc);
         (lit "https://h/b.xml", Response 200 index_b_doc);
         (lit "https://h/p.xml", Response 200 pages_doc);
         (lit "https://h/gone.xml", Response 404 [])].

(** The [urlset] above with the sitemap namespace declared. *)
Definition pages_ns_doc : bytes :=
  to_bytes "<urlset xmlns='http://www.sitemaps.org/schemas/sitemap/0.9'><url><loc>https://h/1</loc></url><url><loc>https://h/1</loc></url></urlset>".

Definition parse_ns : bytes -> parsed :=
  parse_with [(pages_doc, pages_tree); (pages_ns_doc, qualify sitemap_ns pages_tree)].

(** A sitemap index in its standard shape: one [sitemap] per child, holding
    one [loc]. *)
Definition index_of (locs : list text) : Element :=
  Elem (lit "sitemapindex") None
    (map (fun u => Elem (lit "sitemap") None [Elem (lit "loc") (Some u) []]) locs).

Definition nodes : list text :=
  [lit "https://h/a.xml"; lit "https://h/b.xml"; lit "https://h/p.xml"].

(** A well-formed sitemap that declares a multi-byte encoding. *)
Definition gb2312_doc : bytes :=
  to_bytes "<?xml version='1.0' encoding='gb2312'?><urlset><url><loc>https://a/x</loc></url></urlset>".

(** The parser above, which raises [ValueError] on that declaration. *)
Definition parse_declared (data : bytes) : parsed :=
  if bytes_eqb data gb2312_doc then Fails ValueError else parse data.

(** A sitemap whose closing tag is missing and whose [loc] runs over two
    lines. *)
Definition two_line_doc : bytes := to_bytes "<urlset><url><loc>https://a/
x</loc></url>".

(** A sitemap whose closing tag is missing and whose [loc] is laid out on
    lines of its own. *)
Definition padded_doc : bytes := to_bytes "<urlset><url><loc>
  https://a/x y
</loc></url>".

Definition site_odd : text -> option response :=
  serve [(lit "https://h/gb.xml", Response 200 gb2312_doc);
         (lit "https://h/lines.xml", Response 200 two_line_doc);
         (lit "https://h/padded.xml", Response 200 padded_doc)].

End Examples.

(** ** A small run *)

Module RunExamples.

Import Pipeline.

(** A model that answers every prompt. *)
Definition model (chunk : text) : process := Process 0 (lit " a summary ") [].

(** A model that cannot reach its daemon. *)
Definition no_daemon (chunk : text) : process :=
  Process 1 [] (lit "Error: could not connect to ollama app, is it running?").

(** Two pages that render and one, between them, that does not. *)
Definition crawl (url : text) : result Fetcher.crawl_result :=
  if bool_decide (url = lit "https://h/docs/a.html") then
    Ok (Fetcher.CrawlResult true (Some (lit "# A

first

## B

second")))
  else if bool_decide (url = lit "https://h/c") then
    Ok (Fetcher.CrawlResult true (Some (lit "# C

third")))
  else Raise CrawlerError.

(** The path of these URLs: what follows the host. *)
Definition path_of (url : text) : text := drop 9 url.

Definition targets : list text :=
  [lit "https://h/docs/a.html"; lit "https://h/b"; lit "https://h/c"].

End RunExamples.

(** * Properties *)

(** ** The matcher on literal strings and runs *)

Section RegexFacts.
Context {R : Type}.

Lemma run_Str_app (s : text) (k : cursor -> option R) p pv rs g :
  run (Str s) k (Cursor p pv (s ++ rs) g)
  = k (Cursor (p + length s) (prev_after pv s) rs g).
Proof.
  revert p pv. induction s as [|c s IH]; intros p pv; cbn.
  - by rewrite Nat.add_0_r.
  - rewrite Ascii.eqb_refl, IH. by rewrite Nat.add_succ_r.
Qed.

Lemma run_Str_fail (s : text) (k : cursor -> option R) p pv rs g :
  starts_with s rs = false ->
  run (Str s) k (Cursor p pv rs g) = None.
Proof.
  revert p pv rs. induction s as [|c s IH]; intros p pv rs; cbn; [done|].
  destruct rs as [|c' rs]; [done|].
  destruct (Ascii.eqb c c'); cbn; [apply IH | done].
Qed.

Lemma starts_with_app (s rs : text) : starts_with s (s ++ rs) = true.
Proof. induction s as [|c s IH]; cbn; [done|]. by rewrite Ascii.eqb_refl. Qed.

(** A greedy run of a class stops at once before a character outside it. *)
Lemma star_stop (greedy : bool) (k : cls) (cont : cursor -> option R) g p pv c rs :
  cls_match k c = false ->
  star greedy k cont g p pv (c :: rs) = cont (Cursor p pv (c :: rs) g).
Proof. intros H. cbn. by rewrite H. Qed.

(** A lazy run stops where the continuation succeeds. *)
Lemma lazy_star_here (k : cls) (cont : cursor -> option R) g rs p pv x :
  cont (Cursor p pv rs g) = Some x ->
  star false k cont g p pv rs = Some x.
Proof. intros H. destruct rs as [|c rs]; cbn; rewrite H; [done|]. by destruct (cls_match k c). Qed.

(** A lazy run steps over the characters at which the continuation fails. *)
Lemma lazy_star_skip (k : cls) (cont : cursor -> option R) g (u rs : text) p pv :
  Forall (fun c => cls_match k c = true) u ->
  (forall u1 u2 c, u = u1 ++ c :: u2 ->
     cont (Cursor (p + length u1) (prev_after pv u1) (c :: u2 ++ rs) g) = None) ->
  star false k cont g p pv (u ++ rs)
  = star false k cont g (p + length u) (prev_after pv u) rs.
Proof.
  revert p pv. induction u as [|c u IH]; intros p pv Hcls Hfail.
  - cbn. by rewrite Nat.add_0_r.
  - apply Forall_cons in Hcls as [Hc Hu].
    cbn [app star]. rewrite Hc.
    pose proof (Hfail [] u c eq_refl) as H0. cbn in H0.
    rewrite Nat.add_0_r in H0. rewrite H0. cbn [first_of].
    rewrite IH; [cbn; by rewrite Nat.add_succ_r | done |].
    intros u1 u2 c' ->. specialize (Hfail (c :: u1) u2 c' eq_refl).
    cbn in Hfail. by rewrite Nat.add_succ_r in Hfail.
Qed.

End RegexFacts.

(** ** Matching does not depend on what comes before the line *)

Section Shift.
Context {A B : Type} (rel : A -> B -> Prop) (d : nat).

Lemma both_first_of (a1 a2 : option A) (b1 b2 : option B) :
  both rel a1 b1 -> both rel a2 b2 -> both rel (first_of a1 a2) (first_of b1 b2).
Proof. destruct a1, b1; cbn; tauto. Qed.

Lemma star_shifted (greedy : bool) (k : cls) (cont : cursor -> option A)
    (cont' : cursor -> option B) g rs :
  (forall cu cu', shifted d cu cu' -> both rel (cont cu) (cont' cu')) ->
  forall p pv pv',
    at_bol (Cursor (p + d) pv' rs g) = at_bol (Cursor p pv rs g) ->
    both rel (star greedy k cont g p pv rs) (star greedy k cont' g (p + d) pv' rs).
Proof.
  intros Hcont. induction rs as [|c rs IH]; intros p pv pv' Hbol.
  - cbn [star]. by apply Hcont.
  - cbn [star].
    assert (Hstop : both rel (cont (Cursor p pv (c :: rs) g))
                             (cont' (Cursor (p + d) pv' (c :: rs) g))) by (by apply Hcont).
    destruct (cls_match k c); [|done].
    specialize (IH (S p) (Some c) (Some c) eq_refl).
    destruct greedy; by apply both_first_of.
Qed.

Lemma run_shifted (r : re) :
  forall (cont : cursor -> option A) (cont' : cursor -> option B),
    (forall cu cu', shifted d cu cu' -> both rel (cont cu) (cont' cu')) ->
    forall cu cu', shifted d cu cu' -> both rel (run r cont cu) (run r cont' cu').
Proof.
  induction r as [|k| | |r1 IH1 r2 IH2|r1 IH1 r2 IH2|r1 IH1|greedy k];
    intros cont cont' Hcont cu cu' Hcu; cbn [run].
  - by apply Hcont.
  - destruct Hcu as (Hp & Hb & Hr & Hg). rewrite Hr.
    destruct (rest cu) as [|c rs]; [done|]. destruct (cls_match k c); [|done].
    apply Hcont. split; [cbn; lia|]. by rewrite Hg.
  - pose proof Hcu as (_ & -> & _). destruct (at_bol cu); [by apply Hcont | done].
  - pose proof Hcu as (_ & _ & Hr & _). unfold at_eol. rewrite Hr.
    destruct (match rest cu with [] => true | c :: _ => is_newline c end);
      [by apply Hcont | done].
  - apply IH1; [|done]. intros cu1 cu1' H1. by apply IH2.
  - apply both_first_of; [by apply IH1 | by apply IH2].
  - apply IH1; [|done]. intros cu1 cu1' (Hp1 & Hb1 & Hr1 & _).
    destruct Hcu as (Hp & _ & Hr & _).
    apply Hcont. split; [done|]. split; [done|]. split; [done|]. cbn.
    rewrite Hr, Hp1, Hp. do 2 f_equal. lia.
  - destruct cu as [p pv rs g], cu' as [p' pv' rs' g'].
    destruct Hcu as (Hp & Hb & Hr & Hg). cbn in Hp, Hr, Hg. subst p' rs' g'.
    cbn [pos prev rest grp]. by apply star_shifted.
Qed.

End Shift.

Lemma match_at_shifted (r : re) (d p : nat) (pv pv' : option ascii) (rs : text) :
  at_bol (Cursor (p + d) pv' rs None) = at_bol (Cursor p pv rs None) ->
  match_at r (p + d) pv' rs = shift d <$> match_at r p pv rs.
Proof.
  intros Hbol. unfold match_at.
  pose proof (run_shifted (fun m m' => m' = shift d m) d r
                (fun cu => Some (Found p (pos cu) (grp cu)))
                (fun cu => Some (Found (p + d) (pos cu) (grp cu)))) as H.
  specialize (H (fun cu cu' '(conj Hp (conj _ (conj _ Hg))) =>
                   eq_trans (f_equal2 (Found (p + d)) Hp Hg) eq_refl)).
  specialize (H (Cursor p pv rs None) (Cursor (p + d) pv' rs None)).
  destruct (run r _ (Cursor p pv rs None)), (run r _ (Cursor (p + d) pv' rs None));
    cbn in *; try (by exfalso; apply H); [|done].
  f_equal. by apply H.
Qed.

Lemma scan_shifted (r : re) (d : nat) (rs : text) :
  forall skip p pv pv',
    at_bol (Cursor (p + d) pv' rs None) = at_bol (Cursor p pv rs None) ->
    scan r skip (p + d) pv' rs = map (shift d) (scan r skip p pv rs).
Proof.
  induction rs as [|c rs IH]; intros skip p pv pv' Hbol; cbn [scan].
  - destruct skip; [|done]. rewrite (match_at_shifted r d p pv pv') by done.
    by destruct (match_at r p pv []).
  - assert (Hhere : match skip with O => match_at r (p + d) pv' (c :: rs) | S _ => None end
                    = shift d <$> match skip with O => match_at r p pv (c :: rs) | S _ => None end).
    { destruct skip; [|done]. by apply match_at_shifted. }
    rewrite Hhere.
    destruct (match skip with O => match_at r p pv (c :: rs) | S _ => None end) as [m|];
      cbn [fmap option_fmap option_map app map m_end shift].
    + f_equal. replace (m_end m + d - (p + d) - 1)%nat with (m_end m - p - 1)%nat by lia.
      by apply (IH _ (S p)).
    + by apply (IH _ (S p)).
Qed.

(** ** The scan *)

(** Characters inside a match are passed over. *)
Lemma scan_skip (r : re) (xs t : text) p pv :
  scan r (length xs) p pv (xs ++ t) = scan r 0 (p + length xs) (prev_after pv xs) t.
Proof.
  revert p pv. induction xs as [|c xs IH]; intros p pv.
  - cbn [length app prev_after foldl]. by rewrite Nat.add_0_r.
  - cbn [length app scan]. rewrite IH. cbn. by rewrite Nat.add_succ_r.
Qed.

Lemma scan_no_match (r : re) (c : ascii) (t : text) p pv :
  match_at r p pv (c :: t) = None ->
  scan r 0 p pv (c :: t) = scan r 0 (S p) (Some c) t.
Proof. intros H. cbn [scan]. by rewrite H. Qed.

Lemma scan_match (r : re) (m : found) (c : ascii) (t : text) p pv :
  match_at r p pv (c :: t) = Some m ->
  scan r 0 p pv (c :: t) = m :: scan r (m_end m - p - 1) (S p) (Some c) t.
Proof. intros H. cbn [scan]. by rewrite H. Qed.

(** ** Where matches start *)

Lemma star_from_cont {R} (greedy : bool) (k : cls) (cont : cursor -> option R) g rs :
  forall p pv x,
    star greedy k cont g p pv rs = Some x -> exists cu, cont cu = Some x.
Proof.
  induction rs as [|c rs IH]; intros p pv x; cbn [star]; [by eexists|].
  destruct (cls_match k c); [|by eexists].
  destruct greedy; unfold first_of.
  - destruct (star true k cont g (S p) (Some c) rs) eqn:E; [|by eexists].
    intros [= <-]. by eapply IH.
  - destruct (cont _) eqn:E; [intros [= <-]; by eexists|]. apply IH.
Qed.

(** A successful match is a success of the continuation. *)
Lemma run_from_cont {R} (r : re) :
  forall (cont : cursor -> option R) cu x,
    run r cont cu = Some x -> exists cu', cont cu' = Some x.
Proof.
  induction r as [|k| | |r1 IH1 r2 IH2|r1 IH1 r2 IH2|r1 IH1|greedy k];
    intros cont cu x; cbn [run].
  - by eexists.
  - destruct (rest cu) as [|c rs]; [done|]. destruct (cls_match k c); [by eexists | done].
  - destruct (at_bol cu); [by eexists | done].
  - destruct (at_eol cu); [by eexists | done].
  - intros (cu1 & H1)%IH1. by apply IH2 in H1.
  - unfold first_of. destruct (run r1 cont cu) eqn:E; [intros [= <-]; by eapply IH1 | apply IH2].
  - intros (cu1 & H1)%IH1. by eexists.
  - apply star_from_cont.
Qed.

Lemma match_at_start (r : re) p pv rs m :
  match_at r p pv rs = Some m -> m_start m = p.
Proof. intros (cu & [= <-])%run_from_cont. done. Qed.

Lemma scan_starts (r : re) (rs : text) :
  forall skip p pv m, m ∈ scan r skip p pv rs -> (p <= m_start m)%nat.
Proof.
  induction rs as [|c rs IH]; intros skip p pv m; cbn [scan];
    intros [Hm|Hm]%elem_of_app.
  - destruct skip; [|by apply elem_of_nil in Hm].
    destruct (match_at r p pv []) eqn:E; [|by apply elem_of_nil in Hm].
    apply list_elem_of_singleton in Hm as ->. by rewrite (match_at_start _ _ _ _ _ E).
  - by apply elem_of_nil in Hm.
  - destruct skip; [|by apply elem_of_nil in Hm].
    destruct (match_at r p pv (c :: rs)) eqn:E; [|by apply elem_of_nil in Hm].
    apply list_elem_of_singleton in Hm as ->. by rewrite (match_at_start _ _ _ _ _ E).
  - apply IH in Hm. lia.
Qed.

(** The scan up to its first match: nothing is found on the way, and the
    scan goes on from the match as if it had started there. *)
Lemma scan_first (r : re) (rs : text) :
  forall p pv m0 ms,
    scan r 0 p pv rs = m0 :: ms ->
    (m_start m0 - p <= length rs)%nat /\
    exists pv0,
      match_at r (m_start m0) pv0 (drop (m_start m0 - p) rs) = Some m0 /\
      scan r 0 (m_start m0) pv0 (drop (m_start m0 - p) rs) = m0 :: ms.
Proof.
  induction rs as [|c rs IH]; intros p pv m0 ms H.
  - cbn [scan] in H. destruct (match_at r p pv []) as [m|] eqn:E; [|done].
    cbn in H. injection H as -> <-. rewrite (match_at_start _ _ _ _ _ E).
    rewrite Nat.sub_diag. split; [cbn; lia|]. exists pv. cbn [drop scan]. by rewrite E.
  - destruct (match_at r p pv (c :: rs)) as [m|] eqn:E.
    + pose proof H as H'. rewrite (scan_match _ _ _ _ _ _ E) in H'. injection H' as -> _.
      rewrite (match_at_start _ _ _ _ _ E), Nat.sub_diag.
      split; [lia|]. exists pv. by cbn [drop].
    + rewrite (scan_no_match _ _ _ _ _ E) in H.
      assert (Hge : (S p <= m_start m0)%nat).
      { apply (scan_starts r rs 0 (S p) (Some c)). rewrite H. by left. }
      destruct (IH _ _ _ _ H) as (Hlen & pv0 & Hm & Hs).
      replace (m_start m0 - p)%nat with (S (m_start m0 - S p)) by lia.
      split; [cbn; lia|]. by exists pv0.
Qed.

(** ** The pattern of the sitemap fallback *)

(** A greedy run takes all of a stretch of its class that ends before a
    character outside it, when the continuation succeeds there. *)
Lemma star_greedy_run {R} (k : cls) (cont : cursor -> option R) g (ws : text) c rs x :
  forall p pv,
    Forall (fun a => cls_match k a = true) ws ->
    cls_match k c = false ->
    cont (Cursor (p + length ws) (prev_after pv ws) (c :: rs) g) = Some x ->
    star true k cont g p pv (ws ++ c :: rs) = Some x.
Proof.
  induction ws as [|a ws IH]; intros p pv Hws Hc Hx.
  - cbn [app]. rewrite star_stop by done. cbn in Hx. by rewrite Nat.add_0_r in Hx.
  - apply Forall_cons in Hws as [Ha Hws]. cbn [app star]. rewrite Ha.
    rewrite (IH (S p) (Some a)); [done | done | done |].
    cbn in Hx. by rewrite Nat.add_succ_r in Hx.
Qed.

Lemma inline_char_not_close (c : ascii) (t : text) :
  Sitemap.inline_char c = true -> starts_with (lit "</loc>") (c :: t) = false.
Proof.
  unfold Sitemap.inline_char. intros [_ H%negb_true_iff]%andb_prop.
  unfold lit. cbn [list_ascii_of_string starts_with].
  rewrite Ascii.eqb_sym in H. by rewrite H.
Qed.

Lemma inline_char_dot (c : ascii) : Sitemap.inline_char c = true -> cls_match CDot c = true.
Proof. unfold Sitemap.inline_char. by intros [H _]%andb_prop. Qed.

(** Inside plain contents that do not end in white space, white space is
    never followed by the closing tag. *)
Lemma close_not_inside {R} (cont : cursor -> option R) g (v rs : text) (z : ascii) :
  forall p pv,
    Forall (fun a => Sitemap.inline_char a = true) (v ++ [z]) ->
    is_space z = false ->
    star true CSpace (run (Str (lit "</loc>")) cont) g p pv ((v ++ [z]) ++ rs) = None.
Proof.
  induction v as [|a v IH]; intros p pv Hv Hz.
  - cbn [app]. rewrite star_stop by done. apply run_Str_fail.
    apply Forall_cons in Hv as [Ha _]. by apply inline_char_not_close.
  - pose proof Hv as Hv'. cbn [app] in Hv'. apply Forall_cons in Hv' as [Ha Hv'].
    assert (Hstop : run (Str (lit "</loc>")) cont (Cursor p pv (a :: (v ++ [z]) ++ rs) g) = None).
    { apply run_Str_fail. by apply inline_char_not_close. }
    cbn [app star]. destruct (cls_match CSpace a); [|exact Hstop].
    rewrite (IH (S p) (Some a)) by done. unfold first_of. exact Hstop.
Qed.

Lemma match_at_loc_none (rs : text) p pv :
  starts_with (lit "<loc>") rs = false ->
  match_at Sitemap.loc_pat p pv rs = None.
Proof.
  intros H. unfold match_at, Sitemap.loc_pat. cbn [run]. by apply run_Str_fail.
Qed.

Lemma open_not_space : cls_match CSpace "<"%char = false.
Proof. reflexivity. Qed.

(** The pattern on a pair with empty contents. *)
Lemma match_at_loc_blank (w t : text) p pv :
  Forall (fun a => is_space a = true) w ->
  match_at Sitemap.loc_pat p pv (lit "<loc>" ++ w ++ lit "</loc>" ++ t)
  = Some (Found p (p + 5 + length w + 6) (Some [])).
Proof.
  intros Hw. unfold match_at, Sitemap.loc_pat. cbn [run].
  rewrite run_Str_app. cbn [run pos prev rest grp].
  change (lit "</loc>" ++ t) with ("<"%char :: lit "/loc>" ++ t).
  apply star_greedy_run; [done | apply open_not_space |].
  cbn [run pos prev rest grp].
  apply lazy_star_here. cbn [pos prev rest].
  rewrite star_stop by apply open_not_space.
  change ("<"%char :: lit "/loc>" ++ t) with (lit "</loc>" ++ t).
  rewrite run_Str_app. cbn [pos grp length lit list_ascii_of_string].
  rewrite Nat.sub_diag. cbn [take]. repeat f_equal; lia.
Qed.

(** The pattern on a pair whose contents are not empty. *)
Lemma match_at_loc_filled (w1 u' w2 t : text) (c z : ascii) p pv :
  Forall (fun a => is_space a = true) w1 ->
  Forall (fun a => Sitemap.inline_char a = true) (c :: u') ->
  is_space c = false ->
  last (c :: u') = Some z ->
  is_space z = false ->
  Forall (fun a => is_space a = true) w2 ->
  match_at Sitemap.loc_pat p pv
    (lit "<loc>" ++ w1 ++ (c :: u') ++ w2 ++ lit "</loc>" ++ t)
  = Some (Found p (p + 5 + length w1 + length (c :: u') + length w2 + 6) (Some (c :: u'))).
Proof.
  intros Hw1 Hu Hhead Hlast Hz Hw2.
  unfold match_at, Sitemap.loc_pat. cbn [run].
  rewrite run_Str_app. cbn [run pos prev rest grp].
  change ((c :: u') ++ w2 ++ lit "</loc>" ++ t) with (c :: u' ++ w2 ++ lit "</loc>" ++ t).
  apply star_greedy_run; [done | exact Hhead |].
  cbn [run pos prev rest grp].
  set (p1 := (p + length (lit "<loc>") + length w1)%nat).
  set (pv1 := prev_after (prev_after pv (lit "<loc>")) w1).
  change (c :: u' ++ w2 ++ lit "</loc>" ++ t) with ((c :: u') ++ w2 ++ lit "</loc>" ++ t).
  rewrite lazy_star_skip.
  - apply lazy_star_here. cbn [pos prev rest].
    change (lit "</loc>" ++ t) with ("<"%char :: lit "/loc>" ++ t).
    erewrite star_greedy_run; [reflexivity | done | apply open_not_space |].
    change ("<"%char :: lit "/loc>" ++ t) with (lit "</loc>" ++ t).
    rewrite run_Str_app. cbn [pos grp].
    replace (p1 + length (c :: u') - p1)%nat with (length (c :: u')) by lia.
    rewrite take_app_length. subst p1. cbn [length lit list_ascii_of_string].
    repeat f_equal; lia.
  - eapply Forall_impl; [exact Hu|]. intros a Ha. by apply inline_char_dot.
  - intros u1 u2 a Hsplit. cbn [pos prev rest].
    assert (Htail : last (a :: u2) = Some z).
    { rewrite Hsplit, last_app in Hlast.
      destruct (last (a :: u2)) as [y|] eqn:E; [done|].
      by apply last_None in E. }
    apply last_Some in Htail as [v2 Hv2].
    change (a :: u2 ++ w2 ++ lit "</loc>" ++ t) with ((a :: u2) ++ w2 ++ lit "</loc>" ++ t).
    rewrite Hv2. apply close_not_inside; [|done].
    rewrite <- Hv2. rewrite Hsplit in Hu. by apply Forall_app in Hu as [_ Hu].
Qed.

Lemma forallb_Forall {A} (f : A -> bool) (l : list A) :
  forallb f l = true -> Forall (fun a => f a = true) l.
Proof.
  intros H. rewrite forallb_forall in H. apply Forall_forall.
  intros a Ha. apply H. by apply list_elem_of_In.
Qed.

(** The pattern on a pair: the plain contents are captured, the white space
    around them is not. *)
Lemma match_at_loc_pair (w1 u w2 t : text) p pv :
  forallb is_space w1 = true ->
  Sitemap.trimmed_line u = true ->
  forallb is_space w2 = true ->
  match_at Sitemap.loc_pat p pv (lit "<loc>" ++ w1 ++ u ++ w2 ++ lit "</loc>" ++ t)
  = Some (Found p (p + 5 + length (w1 ++ u ++ w2) + 6) (Some u)).
Proof.
  intros Hw1%forallb_Forall Hu Hw2%forallb_Forall.
  unfold Sitemap.trimmed_line in Hu.
  apply andb_prop in Hu as [[Hin%forallb_Forall Hhead]%andb_prop Hlast].
  destruct u as [|c u'].
  - cbn [app].
    replace (w1 ++ w2 ++ lit "</loc>" ++ t) with ((w1 ++ w2) ++ lit "</loc>" ++ t)
      by (by rewrite <- app_assoc).
    apply match_at_loc_blank. by apply Forall_app.
  - destruct (last (c :: u')) as [z|] eqn:El; [|by apply last_None in El].
    apply negb_true_iff in Hhead, Hlast.
    rewrite (match_at_loc_filled w1 u' w2 t c z) by done.
    do 2 f_equal. rewrite !length_app. cbn [length]. lia.
Qed.

(** On a text made of literal pairs with plain contents the scan returns the
    contents, in order. *)
Lemma findall_loc_pairs (t : text) (us : list text) :
  Sitemap.loc_pairs t us -> findall Sitemap.loc_pat t = us.
Proof.
  unfold findall, finditer. generalize 0%nat at 2 as p. generalize (@None ascii) as pv.
  intros pv p H. revert pv p.
  induction H as [|c t us Hc _ IH|w1 u w2 t us Hw1 Hu Hw2 _ IH]; intros pv p.
  - cbn [scan]. rewrite match_at_loc_none by done. done.
  - rewrite scan_no_match by (by apply match_at_loc_none). apply IH.
  - pose proof (match_at_loc_pair w1 u w2 t p pv Hw1 Hu Hw2) as Hm.
    change (lit "<loc>" ++ w1 ++ u ++ w2 ++ lit "</loc>" ++ t)
      with ("<"%char :: lit "loc>" ++ w1 ++ u ++ w2 ++ lit "</loc>" ++ t) in *.
    rewrite (scan_match _ _ _ _ _ _ Hm). cbn [m_end map m_group default].
    f_equal.
    replace (p + 5 + length (w1 ++ u ++ w2) + 6 - p - 1)%nat
      with (length (lit "loc>" ++ (w1 ++ u ++ w2) ++ lit "</loc>")).
    2:{ rewrite !length_app. cbn. lia. }
    replace (lit "loc>" ++ w1 ++ u ++ w2 ++ lit "</loc>" ++ t)
      with ((lit "loc>" ++ (w1 ++ u ++ w2) ++ lit "</loc>") ++ t)
      by (by rewrite <- !app_assoc).
    rewrite scan_skip. apply IH.
Qed.

(** ** Header sectioning *)

Lemma match_at_header_marker p pv rs m :
  match_at Chunks.header_pat p pv rs = Some m ->
  at_bol (Cursor p pv rs None) = true /\ Chunks.has_marker rs = true.
Proof.
  unfold match_at, Chunks.header_pat. cbn [run].
  destruct (at_bol (Cursor p pv rs None)); [|done].
  intros H. split; [done|]. unfold Chunks.has_marker.
  destruct (starts_with (lit "# ") rs) eqn:E1; [done|].
  destruct (starts_with (lit "## ") rs) eqn:E2; [done|].
  by rewrite !run_Str_fail in H.
Qed.

Lemma is_newline_eqb (c : ascii) : Ascii.eqb c newline = is_newline c.
Proof. by destruct c as [[] [] [] [] [] [] [] []]. Qed.

Lemma lines_cons (c : ascii) (rs : text) :
  exists h t,
    Chunks.lines rs = h :: t /\
    Chunks.lines (c :: rs) = if is_newline c then [] :: h :: t else (c :: h) :: t.
Proof.
  unfold Chunks.lines. cbn [split_char]. rewrite is_newline_eqb.
  assert (Hne : exists h t, split_char newline rs = h :: t).
  { destruct rs as [|c' rs]; cbn; [by eexists _, _|].
    destruct (Ascii.eqb c' newline); [by eexists _, _|].
    destruct (split_char newline rs); by eexists _, _. }
  destruct Hne as (h & t & E). exists h, t. rewrite E. by destruct (is_newline c).
Qed.

(** A text that starts with a marker has a first line that starts with it. *)
Lemma starts_with_first_line (m rs : text) :
  forallb (fun a => negb (is_newline a)) m = true ->
  starts_with m rs = true ->
  starts_with m (default [] (head (Chunks.lines rs))) = true.
Proof.
  revert rs. induction m as [|a m IH]; intros rs Hm; [done|].
  cbn in Hm. apply andb_prop in Hm as [Ha Hm].
  destruct rs as [|c rs]; [done|]. cbn [starts_with].
  intros [Hac Hrest]%andb_prop. apply Ascii.eqb_eq in Hac as <-.
  destruct (lines_cons a rs) as (h & t & Eh & ->).
  apply negb_true_iff in Ha. rewrite Ha. cbn. rewrite Ascii.eqb_refl. cbn.
  specialize (IH rs Hm Hrest). by rewrite Eh in IH.
Qed.

Lemma has_marker_first_line (rs : text) :
  Chunks.has_marker rs = true ->
  Chunks.has_marker (default [] (head (Chunks.lines rs))) = true.
Proof.
  unfold Chunks.has_marker. intros [H|H]%orb_prop; apply orb_true_iff; [left|right];
    by apply starts_with_first_line.
Qed.

Lemma scan_no_marker (rs : text) :
  forall p pv,
    forallb (fun line => negb (Chunks.has_marker line)) (Chunks.lines_ahead pv rs) = true ->
    scan Chunks.header_pat 0 p pv rs = [].
Proof.
  induction rs as [|c rs IH]; intros p pv Hfree.
  - cbn [scan]. destruct (match_at Chunks.header_pat p pv []) eqn:E; [|done].
    by apply match_at_header_marker in E as [_ ?].
  - assert (Hnone : match_at Chunks.header_pat p pv (c :: rs) = None).
    { destruct (match_at Chunks.header_pat p pv (c :: rs)) eqn:E; [|done].
      apply match_at_header_marker in E as [Hbol Hm].
      unfold Chunks.lines_ahead in Hfree. change (at_bol (Cursor 0 pv (c :: rs) None))
        with (at_bol (Cursor p pv (c :: rs) None)) in Hfree. rewrite Hbol in Hfree.
      apply has_marker_first_line in Hm.
      destruct (Chunks.lines (c :: rs)) as [|l ls]; cbn in Hm; [done|].
      cbn in Hfree. by rewrite Hm in Hfree. }
    rewrite (scan_no_match _ _ _ _ _ Hnone). apply IH.
    unfold Chunks.lines_ahead in *. change (at_bol (Cursor 0 (Some c) rs None)) with (is_newline c).
    destruct (lines_cons c rs) as (h & t & Eh & Ec). rewrite Ec in Hfree. rewrite Eh.
    destruct (is_newline c), (at_bol (Cursor 0 pv (c :: rs) None)); cbn in Hfree |- *;
      repeat (apply andb_prop in Hfree as [? Hfree]); rewrite ?Hfree; try done;
      by repeat (apply andb_true_intro; split).
Qed.

Lemma slice_nat {A} (s : list A) (i j : nat) :
  slice s (Z.of_nat i) (Z.of_nat j)
  = take (min j (length s) - min i (length s)) (drop (min i (length s)) s).
Proof.
  unfold slice, norm_index, len.
  destruct (Z.ltb_spec (Z.of_nat i) 0); [lia|].
  destruct (Z.ltb_spec (Z.of_nat j) 0); [lia|].
  f_equal; [lia|]. f_equal. lia.
Qed.

Lemma slice_drop {A} (s : list A) (d i j : nat) :
  (d <= length s)%nat ->
  slice s (Z.of_nat (i + d)) (Z.of_nat (j + d)) = slice (drop d s) (Z.of_nat i) (Z.of_nat j).
Proof.
  intros Hd. rewrite !slice_nat, length_drop, drop_drop.
  f_equal; [lia|]. f_equal. lia.
Qed.

Lemma sections_between_drop (md : text) (d : nat) (ns : list nat) :
  (d <= length md)%nat ->
  Chunks.sections_between md (map (fun n => Z.of_nat (n + d)) ns)
  = Chunks.sections_between (drop d md) (map Z.of_nat ns).
Proof.
  intros Hd. induction ns as [|a ns IH]; [done|].
  destruct ns as [|b ns]; [done|].
  cbn [map Chunks.sections_between] in *.
  rewrite slice_drop by done. by rewrite IH.
Qed.

(** The matches of a document from its first heading on are those of the
    document cut there. *)
Lemma finditer_from_first (md : text) (m0 : found) (ms : list found) :
  finditer Chunks.header_pat md = m0 :: ms ->
  (m_start m0 <= length md)%nat /\
  finditer Chunks.header_pat md
  = map (shift (m_start m0)) (finditer Chunks.header_pat (drop (m_start m0) md)).
Proof.
  unfold finditer. intros H.
  destruct (scan_first _ _ _ _ _ _ H) as (Hlen & pv0 & Hm & Hs).
  rewrite Nat.sub_0_r in *. split; [done|].
  apply match_at_header_marker in Hm as [Hbol _].
  rewrite H, <- Hs.
  apply (scan_shifted Chunks.header_pat (m_start m0) _ 0 0 None pv0).
  exact Hbol.
Qed.

(** C2, as stated: a document without heading line gives one section, the
    stripped document.  It fails on the one-line document [hello]. *)
Lemma chunk_by_header_no_heading_counterexample :
  ~ (forall md : text,
       Chunks.no_heading_line md = true ->
       strip md <> [] ->
       Chunks.chunk_by_header md = [strip md]).
Proof. intros H. by specialize (H (lit "hello") eq_refl ltac:(done)). Qed.

(** C2, amended. A document in which no line starts with a heading marker
    has no header-led section: [chunk_by_header] returns the empty list (and
    so does [chunk_markdown]). *)
Theorem chunk_by_header_no_heading (md : text) :
  Chunks.no_heading_line md = true ->
  Chunks.chunk_by_header md = [] /\ Chunks.chunk_markdown md = [].
Proof.
  intros Hfree.
  assert (Hb : Chunks.bounds md = [len md]).
  { unfold Chunks.bounds, finditer. by rewrite scan_no_marker. }
  unfold Chunks.chunk_by_header, Chunks.chunk_markdown. by rewrite Hb.
Qed.

Lemma chunk_by_header_no_heading_witness :
  Chunks.chunk_by_header (lit "hello
### not a section
world") = [] /\
  Chunks.chunk_markdown (lit "hello
### not a section
world") = [].
Proof. apply chunk_by_header_no_heading. reflexivity. Defined.

(** C10. When the first heading match of a document starts after offset 0,
    the sections are those of the document cut at that match: the first
    bound is the match, not 0, and the text before it, which is not empty,
    reaches no section. *)
Theorem text_before_first_heading_dropped (md : text) (m0 : found) (ms : list found) :
  finditer Chunks.header_pat md = m0 :: ms ->
  (0 < m_start m0)%nat ->
  head (Chunks.bounds md) = Some (Z.of_nat (m_start m0)) /\
  take (m_start m0) md <> [] /\
  Chunks.chunk_by_header md = Chunks.chunk_by_header (drop (m_start m0) md) /\
  Chunks.chunk_markdown md = Chunks.chunk_markdown (drop (m_start m0) md).
Proof.
  intros Hfind Hpos.
  destruct (finditer_from_first md m0 ms Hfind) as [Hlen Hshift].
  split; [unfold Chunks.bounds; by rewrite Hfind|].
  split.
  { intros E. apply (f_equal length) in E. rewrite length_take in E. cbn in E. lia. }
  assert (Hsec : Chunks.sections_between md (Chunks.bounds md)
                 = Chunks.sections_between (drop (m_start m0) md)
                     (Chunks.bounds (drop (m_start m0) md))).
  { unfold Chunks.bounds at 1. rewrite Hshift.
    set (F := finditer Chunks.header_pat (drop (m_start m0) md)).
    replace (map (fun m => Z.of_nat (m_start m)) (map (shift (m_start m0)) F) ++ [len md])
      with (map (fun n => Z.of_nat (n + m_start m0))
              (map m_start F ++ [length (drop (m_start m0) md)])).
    - rewrite sections_between_drop by done. unfold Chunks.bounds. fold F.
      by rewrite map_app, map_map.
    - rewrite map_app, !map_map. cbn. unfold len. rewrite length_drop.
      do 3 f_equal. lia. }
  by unfold Chunks.chunk_by_header, Chunks.chunk_markdown.
Qed.

Lemma text_before_first_heading_dropped_witness :
  Chunks.chunk_by_header (lit "intro
# A
body") = Chunks.chunk_by_header (lit "# A
body").
Proof.
  apply (text_before_first_heading_dropped (lit "intro
# A
body") (Found 6 9 (Some (lit "# A"))) []); [reflexivity | cbn; lia].
Defined.

Example chunk_by_header_drops_intro :
  Chunks.chunk_by_header (lit "intro
# A
body
## B
more") = [lit "# A
body"; lit "## B
more"].
Proof. reflexivity. Qed.

(** ** Paragraph packing *)

Lemma consecutive_snoc {A} (P : A -> A -> Prop) (l : list A) (x : A) :
  consecutive P l ->
  (forall l' y, l = l' ++ [y] -> P y x) ->
  consecutive P (l ++ [x]).
Proof.
  intros Hl. induction Hl as [|y|y z l Hyz Hl IH]; intros Hlast; cbn.
  - constructor.
  - constructor; [|constructor]. by apply (Hlast []).
  - constructor; [done|]. apply IH. intros l' w E. apply (Hlast (y :: l')).
    cbn. by rewrite E.
Qed.

Section PackingFacts.
Variables max_chars overlap_paras : Z.

Local Abbreviation pstep := (Chunks.pack_step max_chars overlap_paras).
Local Abbreviation gstep := (Chunks.group_step max_chars overlap_paras).

(** The loop on chunk texts and the loop on accumulators go together. *)
Lemma pack_loop_groups (paras : list text) :
  forall (st : Chunks.packing) (gt : Chunks.grouping),
    Chunks.chunks st = map Chunks.render (Chunks.groups gt) ->
    Chunks.curr st = Chunks.g_curr gt ->
    Chunks.curr_len st = Chunks.g_len gt ->
    let st' := foldl pstep st paras in
    let gt' := foldl gstep gt paras in
    Chunks.chunks st' = map Chunks.render (Chunks.groups gt') /\
    Chunks.curr st' = Chunks.g_curr gt'.
Proof.
  induction paras as [|p paras IH]; intros st gt Hc Hcur Hlen; [done|].
  destruct st as [cs cur n], gt as [gs gcur gn]. cbn in Hc, Hcur, Hlen. subst cs cur n.
  cbn [foldl]. apply IH; unfold Chunks.pack_step, Chunks.group_step; cbn;
    destruct (_ && _); cbn; try done.
  by rewrite map_app.
Qed.

Lemma chunk_by_paragraphs_groups (section : text) :
  Chunks.chunk_by_paragraphs max_chars overlap_paras section
  = map Chunks.render
      (Chunks.paragraph_groups max_chars overlap_paras (Chunks.paragraphs section)).
Proof.
  unfold Chunks.chunk_by_paragraphs, Chunks.paragraph_groups, Chunks.pack_loop,
    Chunks.paragraphs.
  destruct (pack_loop_groups (split Chunks.para_sep (strip section))
              (Chunks.Packing [] [] 0) (Chunks.Grouping [] [] 0)) as [Hc Hcur]; try done.
  rewrite Hc, Hcur. destruct (Chunks.is_nonempty _); [|done].
  by rewrite map_app.
Qed.

Local Abbreviation seeding := (Chunks.seeding overlap_paras).

Lemma group_step_seeding (gt : Chunks.grouping) (p : text) :
  seeding gt -> seeding (gstep gt p).
Proof.
  intros [Hcons Hlast]. unfold Chunks.group_step.
  destruct (_ && _); cbn.
  - split.
    + by apply consecutive_snoc.
    + intros gs g [_ <-]%app_inj_tail. exists [p]. by split.
  - split; [done|]. intros gs g E. destruct (Hlast gs g E) as (more & Hne & ->).
    exists (more ++ [p]). split; [by destruct more | by rewrite app_assoc].
Qed.

Lemma paragraph_groups_seeded (paras : list text) :
  consecutive (Chunks.seeded overlap_paras)
    (Chunks.paragraph_groups max_chars overlap_paras paras).
Proof.
  unfold Chunks.paragraph_groups.
  assert (Hall : forall gt, seeding gt -> seeding (foldl gstep gt paras)).
  { induction paras as [|p paras IH]; intros gt Hgt; [done|].
    cbn [foldl]. by apply IH, group_step_seeding. }
  destruct (Hall (Chunks.Grouping [] [] 0)) as [Hcons Hlast].
  { split; [constructor|]. intros gs g E. by destruct gs. }
  destruct (Chunks.is_nonempty _); [|done].
  by apply consecutive_snoc.
Qed.

End PackingFacts.

(** [curr[-k:]] is the last [k] elements for [k >= 1], and everything for
    [k = 0]. *)
Lemma slice_from_last {A} (l : list A) (k : Z) :
  1 <= k -> slice_from l (- k) = drop (length l - Z.to_nat k) l.
Proof.
  intros Hk. unfold slice_from, norm_index, len.
  destruct (Z.ltb_spec (- k) 0); [|lia]. f_equal. lia.
Qed.

Lemma slice_from_zero {A} (l : list A) : slice_from l (- 0) = l.
Proof.
  unfold slice_from, norm_index, len. cbn. by rewrite Z.min_l by lia.
Qed.

(** *** Sizes *)

Lemma curr_length_app (g1 g2 : list text) :
  Chunks.curr_length (g1 ++ g2) = Chunks.curr_length g1 + Chunks.curr_length g2.
Proof.
  unfold Chunks.curr_length. induction g1 as [|x g1 IH]; cbn [app foldr]; [done|]. lia.
Qed.

Lemma len_join (g : list text) :
  g <> [] -> len (join Chunks.blank_line g) = Chunks.curr_length g - 2.
Proof.
  unfold Chunks.curr_length.
  induction g as [|x g IH]; [done|]. intros _.
  destruct g as [|y g]; [cbn [join foldr]; lia|].
  specialize (IH ltac:(done)).
  change (join Chunks.blank_line (x :: y :: g))
    with (x ++ Chunks.blank_line ++ join Chunks.blank_line (y :: g)).
  unfold len in *. rewrite !length_app. cbn [foldr] in *.
  cbn [length Chunks.blank_line]. lia.
Qed.

Lemma length_lstrip (s : text) : (length (lstrip s) <= length s)%nat.
Proof. induction s as [|c s IH]; cbn; [done|]. destruct (is_space c); cbn; lia. Qed.

Lemma len_strip (s : text) : len (strip s) <= len s.
Proof.
  unfold strip, rstrip, len. rewrite length_reverse.
  pose proof (length_lstrip (reverse (lstrip s))) as H1. rewrite length_reverse in H1.
  pose proof (length_lstrip s). lia.
Qed.

Lemma len_render (g : list text) :
  g <> [] -> len (Chunks.render g) <= Chunks.curr_length g - 2.
Proof.
  intros Hg. unfold Chunks.render. pose proof (len_strip (join Chunks.blank_line g)).
  rewrite len_join in H by done. lia.
Qed.

Lemma fresh_more (k : Z) (gs : list (list text)) (x g : list text) :
  Chunks.fresh k gs g -> Chunks.fresh k (gs ++ [x]) g.
Proof.
  intros (seed & p & -> & Hseed). exists seed, p. split; [done|].
  destruct Hseed as [->|(prev & Hin & ->)]; [by left|].
  right. exists prev. split; [|done]. apply elem_of_app. by left.
Qed.

Section SizeFacts.
Variables max_chars overlap_paras : Z.

Local Abbreviation gstep := (Chunks.group_step max_chars overlap_paras).
Local Abbreviation sized := (Chunks.sized max_chars overlap_paras).

Lemma group_step_sized (gt : Chunks.grouping) (p : text) :
  sized gt -> sized (gstep gt p).
Proof.
  intros (Hlen & Hall & Hcur). unfold Chunks.group_step, Chunks.sized.
  destruct (_ && _) eqn:Hflush; cbn [Chunks.groups Chunks.g_curr Chunks.g_len].
  - apply andb_prop in Hflush as [_ Hne].
    split; [rewrite curr_length_app; cbn; lia|]. split.
    + apply Forall_app. split.
      * eapply Forall_impl; [exact Hall|]. intros g [H|H]; [by left|].
        right. by apply fresh_more.
      * apply Forall_singleton. destruct Hcur as [E|[H|H]].
        -- rewrite E in Hne. discriminate.
        -- by left.
        -- right. by apply fresh_more.
    + right. right. exists (slice_from (Chunks.g_curr gt) (- overlap_paras)), p.
      split; [done|]. right. exists (Chunks.g_curr gt). split; [|done].
      apply elem_of_app. right. by apply list_elem_of_singleton.
  - split; [rewrite curr_length_app, Hlen; cbn; lia|]. split; [done|].
    right. apply andb_false_iff in Hflush as [Hfit|Hempty].
    + left. rewrite curr_length_app. cbn. lia.
    + right. destruct (Chunks.g_curr gt); [|discriminate].
      exists [], p. split; [done|]. by left.
Qed.

(** Every accumulator that becomes a chunk is within the bound, or is the
    overlap carried from an earlier one followed by exactly one new
    paragraph. *)
Lemma paragraph_groups_sized (paras : list text) :
  let gs := Chunks.paragraph_groups max_chars overlap_paras paras in
  Forall (fun g => g <> [] /\
                   (len (Chunks.render g) <= max_chars - 2 \/ Chunks.fresh overlap_paras gs g))
         gs.
Proof.
  cbn zeta. unfold Chunks.paragraph_groups.
  assert (Hall : forall gt, sized gt /\ Forall (fun g => g <> []) (Chunks.groups gt) ->
                            let gt' := foldl gstep gt paras in
                            sized gt' /\ Forall (fun g => g <> []) (Chunks.groups gt')).
  { induction paras as [|p paras IH]; intros gt Hgt; [done|].
    cbn [foldl]. apply IH. destruct Hgt as [Hs Hne]. split; [by apply group_step_sized|].
    unfold Chunks.group_step. destruct (_ && _) eqn:Hflush; cbn; [|done].
    apply Forall_app. split; [done|]. apply Forall_singleton.
    apply andb_prop in Hflush as [_ Hc]. by destruct (Chunks.g_curr gt). }
  destruct (Hall (Chunks.Grouping [] [] 0)) as [(Hlen & Hgs & Hcur) Hne].
  { split; [|constructor]. split; [done|]. split; [constructor | by left]. }
  set (gt := foldl gstep (Chunks.Grouping [] [] 0) paras) in *.
  assert (Hgroups : forall earlier,
             (forall g, Chunks.fresh overlap_paras (Chunks.groups gt) g ->
                        Chunks.fresh overlap_paras earlier g) ->
             Forall (fun g => g <> [] /\
                        (len (Chunks.render g) <= max_chars - 2
                         \/ Chunks.fresh overlap_paras earlier g)) (Chunks.groups gt)).
  { intros earlier Hmono. apply Forall_forall. intros g Hg.
    rewrite Forall_forall in Hgs, Hne. split; [by apply Hne|].
    destruct (Hgs g Hg) as [H|H]; [left | right; by apply Hmono].
    pose proof (len_render g (Hne g Hg)). lia. }
  destruct (Chunks.is_nonempty (Chunks.g_curr gt)) eqn:Hc.
  - apply Forall_app. split; [apply Hgroups; intros g; apply fresh_more|].
    apply Forall_singleton.
    assert (Hne' : Chunks.g_curr gt <> []) by (by destruct (Chunks.g_curr gt)).
    split; [done|]. destruct Hcur as [E|[H|H]]; [done | left | right; by apply fresh_more].
    pose proof (len_render _ Hne'). lia.
  - by apply Hgroups.
Qed.

End SizeFacts.

(** What the code does keep of the bound: a chunk is within [max_chars]
    (with two characters to spare) unless its accumulator is the carried
    overlap followed by exactly one new paragraph. *)
Lemma chunks_within_bound_or_fresh (max_chars overlap_paras : Z) (section : text) :
  let gs := Chunks.paragraph_groups max_chars overlap_paras (Chunks.paragraphs section) in
  Chunks.chunk_by_paragraphs max_chars overlap_paras section = map Chunks.render gs /\
  Forall (fun g => len (Chunks.render g) <= max_chars - 2
                   \/ Chunks.fresh overlap_paras gs g) gs.
Proof.
  cbn zeta. split; [apply chunk_by_paragraphs_groups|].
  eapply Forall_impl; [apply paragraph_groups_sized|]. by intros g [_ H].
Qed.

(** For an overlap of at least one paragraph, each accumulator starts with
    the last [overlap_paras] paragraphs of the one flushed before it (all of
    them if it has fewer), and the chunks are the accumulators joined. *)
Lemma overlap_carries_last_paragraphs (max_chars overlap_paras : Z) (section : text) :
  1 <= overlap_paras ->
  consecutive
    (fun g g' => exists more,
         more <> [] /\ g' = drop (length g - Z.to_nat overlap_paras) g ++ more)
    (Chunks.paragraph_groups max_chars overlap_paras (Chunks.paragraphs section)) /\
  Chunks.chunk_by_paragraphs max_chars overlap_paras section
  = map Chunks.render
      (Chunks.paragraph_groups max_chars overlap_paras (Chunks.paragraphs section)).
Proof.
  intros Hk. split; [|apply chunk_by_paragraphs_groups].
  pose proof (paragraph_groups_seeded max_chars overlap_paras (Chunks.paragraphs section)) as H.
  induction H as [|g|g g' l (more & Hne & ->) _ IH]; constructor; [|done].
  exists more. by rewrite slice_from_last.
Qed.

(** C3, at an overlap of 0. The code keeps [curr[-0:]], which is the whole
    accumulator: for every section and bound, each accumulator after a flush
    starts with all the paragraphs of the flushed one, so nothing is ever
    dropped and the chunks grow cumulatively; on three paragraphs of four
    characters with a bound of 6 the chunks are [a], [a, b], [a, b, c] where
    the claim has [a], [b], [c]. *)
Theorem overlap_zero_carries_everything :
  (forall (max_chars : Z) (section : text),
     consecutive (fun g g' => exists more, more <> [] /\ g' = g ++ more)
       (Chunks.paragraph_groups max_chars 0 (Chunks.paragraphs section)) /\
     Chunks.chunk_by_paragraphs max_chars 0 section
     = map Chunks.render
         (Chunks.paragraph_groups max_chars 0 (Chunks.paragraphs section))) /\
  Chunks.paragraph_groups 6 0 (Chunks.paragraphs (lit "aaaa

bbbb

cccc"))
  = [[lit "aaaa"]; [lit "aaaa"; lit "bbbb"]; [lit "aaaa"; lit "bbbb"; lit "cccc"]] /\
  Chunks.chunk_by_paragraphs 6 0 (lit "aaaa

bbbb

cccc")
  = [lit "aaaa"; lit "aaaa

bbbb"; lit "aaaa

bbbb

cccc"].
Proof.
  split; [|split; reflexivity].
  intros max_chars section. split; [|apply chunk_by_paragraphs_groups].
  pose proof (paragraph_groups_seeded max_chars 0 (Chunks.paragraphs section)) as H.
  induction H as [|g|g g' l (more & Hne & ->) _ IH]; constructor; [|done].
  exists more. by rewrite slice_from_zero.
Qed.

(** The same section with an overlap of one paragraph. *)
Example overlap_one_carries_last :
  Chunks.chunk_by_paragraphs 6 1 (lit "aaaa

bbbb

cccc")
  = [lit "aaaa"; lit "aaaa

bbbb"; lit "bbbb

cccc"].
Proof. reflexivity. Qed.

(** C1, on the code. Two paragraphs of 8 characters under a bound of 10 and
    the overlap of one paragraph that [main] uses: the second chunk is the
    carried paragraph and the new one, 18 characters.  The same happens with
    the module's own bound of 2000 on two paragraphs of 1500 characters. *)
Theorem chunk_exceeds_max_with_overlap :
  Chunks.paragraphs (lit "aaaaaaaa

bbbbbbbb") = [lit "aaaaaaaa"; lit "bbbbbbbb"] /\
  Forall (fun p => len p <= 10) (Chunks.paragraphs (lit "aaaaaaaa

bbbbbbbb")) /\
  Chunks.chunk_by_paragraphs 10 1 (lit "aaaaaaaa

bbbbbbbb") = [lit "aaaaaaaa"; lit "aaaaaaaa

bbbbbbbb"] /\
  ~ (forall (max_chars overlap_paras : Z) (section : text),
       0 < max_chars -> 0 <= overlap_paras ->
       Forall (fun p => len p <= max_chars) (Chunks.paragraphs section) ->
       Forall (fun c => len c <= max_chars)
         (Chunks.chunk_by_paragraphs max_chars overlap_paras section)) /\
  map len (Chunks.chunk_by_paragraphs 2000 1 Examples.two_long_paragraphs) = [1500; 3002].
Proof.
  assert (Hparas : Chunks.paragraphs (lit "aaaaaaaa

bbbbbbbb") = [lit "aaaaaaaa"; lit "bbbbbbbb"]) by reflexivity.
  assert (Hsmall : Forall (fun p => len p <= 10) (Chunks.paragraphs (lit "aaaaaaaa

bbbbbbbb"))).
  { rewrite Hparas. repeat (constructor; [vm_compute; discriminate|]). constructor. }
  assert (Hchunks : Chunks.chunk_by_paragraphs 10 1 (lit "aaaaaaaa

bbbbbbbb") = [lit "aaaaaaaa"; lit "aaaaaaaa

bbbbbbbb"]) by reflexivity.
  split; [exact Hparas|]. split; [exact Hsmall|]. split; [exact Hchunks|]. split.
  - intros H. specialize (H 10 1 _ ltac:(lia) ltac:(lia) Hsmall).
    rewrite Hchunks in H.
    apply Forall_cons in H as [_ H]. apply Forall_cons in H as [H _].
    vm_compute in H. by apply H.
  - vm_compute. reflexivity.
Qed.

(** ** Fixed-window chunking *)

Section WindowFacts.
Variables MAX_CHARS OVERLAP : Z.
Hypothesis overlap_below_max : 0 <= OVERLAP < MAX_CHARS.

Lemma windows_from_spec (n : Z) (fuel : nat) (start : Z) :
  0 <= start ->
  (Z.to_nat (n - start) < fuel)%nat ->
  exists ws,
    Window.windows_from MAX_CHARS OVERLAP fuel n start = Some ws /\
    consecutive (Window.advance MAX_CHARS OVERLAP) ws /\
    (start < n -> exists e, head ws = Some (start, e) /\ exists s, last ws = Some (s, n)) /\
    (n <= start -> ws = []) /\
    Forall (fun w => 0 <= fst w < snd w /\ snd w <= n) ws.
Proof.
  revert start. induction fuel as [|fuel IH]; intros start Hs Hf; [lia|].
  cbn [Window.windows_from].
  destruct (Z.ltb_spec start n) as [Hlt|Hge].
  2:{ exists []. repeat split; try constructor; try lia. }
  destruct (Z.eqb_spec (Z.min (start + MAX_CHARS) n) n) as [He|Hne].
  - exists [(start, Z.min (start + MAX_CHARS) n)].
    repeat split; try constructor; cbn; try lia; [| constructor].
    intros _. exists (Z.min (start + MAX_CHARS) n). split; [done|].
    exists start. cbn. by rewrite He.
  - assert (Hend : Z.min (start + MAX_CHARS) n = start + MAX_CHARS) by lia.
    rewrite Hend.
    destruct (IH (start + MAX_CHARS - OVERLAP)) as (ws & Hws & Hst & Hhd & _ & Hall);
      [lia | lia |].
    rewrite Hws. cbn.
    destruct Hhd as (e & Hhead & s & Hlast); [lia|].
    exists ((start, start + MAX_CHARS) :: ws). split; [done|].
    destruct ws as [|w2 ws]; [discriminate|].
    cbn in Hhead. injection Hhead as ->.
    repeat split; cbn; try lia.
    + constructor; [|done]. unfold Window.advance; cbn. lia.
    + intros _. exists (start + MAX_CHARS). split; [done|].
      exists s. exact Hlast.
    + constructor; [cbn; lia | done].
Qed.

Lemma slice_to_end {A} (t : list A) (s : Z) :
  0 <= s -> slice t s (len t) = drop (Z.to_nat s) t.
Proof.
  intros Hs. unfold slice, norm_index, len.
  destruct (Z.ltb_spec s 0); [lia|].
  destruct (Z.ltb_spec (Z.of_nat (length t)) 0); [lia|].
  rewrite Z.min_id.
  destruct (Z.le_gt_cases s (Z.of_nat (length t))).
  - rewrite Z.min_l by lia. apply take_ge. rewrite length_drop. lia.
  - rewrite Z.min_r by lia. rewrite Z.sub_diag. cbn.
    rewrite !drop_ge; [done | lia | lia].
Qed.

Lemma windows_from_more_fuel (n : Z) (fuel fuel' : nat) (start : Z) ws :
  (fuel <= fuel')%nat ->
  Window.windows_from MAX_CHARS OVERLAP fuel n start = Some ws ->
  Window.windows_from MAX_CHARS OVERLAP fuel' n start = Some ws.
Proof.
  revert fuel' start ws. induction fuel as [|fuel IH]; intros fuel' start ws Hle; [done|].
  destruct fuel' as [|fuel']; [lia|]. cbn [Window.windows_from].
  destruct (start <? n); [|done].
  destruct (Z.min (start + MAX_CHARS) n =? n); [done|].
  destruct (Window.windows_from MAX_CHARS OVERLAP fuel n _) as [ws'|] eqn:E; [|done].
  intros H. erewrite IH; [exact H | lia | exact E].
Qed.

(** Every window ends at [min(start + MAX_CHARS, length)], and a window
    that is followed by another stops short of the end of the text. *)
Lemma windows_from_bounds (n : Z) (fuel : nat) :
  forall start ws,
    Window.windows_from MAX_CHARS OVERLAP fuel n start = Some ws ->
    Forall (fun w => snd w = Z.min (fst w + MAX_CHARS) n) ws /\
    consecutive (fun w1 _ => snd w1 < n) ws /\
    (forall w, head ws = Some w -> fst w = start).
Proof.
  induction fuel as [|fuel IH]; intros start ws; cbn [Window.windows_from]; [done|].
  destruct (Z.ltb_spec start n) as [Hlt|Hge].
  2:{ intros [= <-]. repeat split; [constructor | constructor | done]. }
  destruct (Z.eqb_spec (Z.min (start + MAX_CHARS) n) n) as [He|Hne].
  - intros [= <-]. repeat split; [by repeat constructor | constructor |].
    by intros w [= <-].
  - destruct (Window.windows_from MAX_CHARS OVERLAP fuel n _) as [ws'|] eqn:E; [|done].
    intros [= <-]. destruct (IH _ _ E) as (Hends & Hshort & _).
    repeat split.
    + by constructor.
    + destruct ws' as [|w2 ws']; constructor; [cbn; lia | done].
    + by intros w [= <-].
Qed.

End WindowFacts.

(** C8. Under [0 <= OVERLAP < MAX_CHARS] the loop of [chunk_text] ends: with
    fuel for more iterations than the text has characters it returns, and
    the result is the same for any such fuel.  The chunks are the windows
    [ws] of the text, and the windows are these and no others: the first
    starts at 0; every window ends [MAX_CHARS] after its start or at the end
    of the text, whichever comes first; a window that stops short of the end
    is a full one and is followed by the window that starts [OVERLAP] before
    its end, that is [MAX_CHARS - OVERLAP] after its start; the window that
    reaches the end of the text is the last.  So the last chunk runs to the
    end of the text, and a text longer than [MAX_CHARS] has more than one
    window. *)
Theorem chunk_text_terminates (MAX_CHARS OVERLAP : Z) (t : text) :
  0 <= OVERLAP < MAX_CHARS ->
  exists ws,
    (forall fuel, (length t < fuel)%nat ->
       Window.chunk_text MAX_CHARS OVERLAP fuel t
       = Some (map (fun w => slice t (fst w) (snd w)) ws)) /\
    consecutive (Window.advance MAX_CHARS OVERLAP) ws /\
    Forall (fun w => 0 <= fst w < snd w /\ snd w = Z.min (fst w + MAX_CHARS) (len t)) ws /\
    consecutive (fun w1 _ => snd w1 < len t) ws /\
    (t = [] -> ws = []) /\
    (t <> [] ->
     exists e s,
       head ws = Some (0, e) /\ last ws = Some (s, len t) /\ 0 <= s /\
       last (map (fun w => slice t (fst w) (snd w)) ws) = Some (drop (Z.to_nat s) t)) /\
    (MAX_CHARS < len t -> (1 < length ws)%nat).
Proof.
  intros Hcfg.
  destruct (windows_from_spec MAX_CHARS OVERLAP Hcfg (len t) (S (length t)) 0)
    as (ws & Hws & Hsteps & Hends & Hnone & Hall); [lia | unfold len; lia |].
  destruct (windows_from_bounds MAX_CHARS OVERLAP (len t) _ _ _ Hws)
    as (Hmin & Hshort & _).
  exists ws. split; [|split; [done|split; [|split; [done|split; [|split]]]]].
  - intros fuel Hf. unfold Window.chunk_text, Window.windows.
    erewrite windows_from_more_fuel; [done | | exact Hws]. lia.
  - rewrite Forall_forall in Hall, Hmin. apply Forall_forall. intros w Hw.
    specialize (Hall w Hw). specialize (Hmin w Hw). split; [lia | done].
  - intros ->. by apply Hnone.
  - intros Hne.
    destruct Hends as (e & Hhd & s & Hlast).
    { unfold len. destruct t; [done | cbn; lia]. }
    exists e, s. split; [done|]. split; [done|].
    assert (Hin : (s, len t) ∈ ws) by (by apply last_Some_elem_of).
    rewrite Forall_forall in Hall. specialize (Hall _ Hin). cbn in Hall.
    split; [lia|].
    rewrite fmap_last, Hlast. cbn. f_equal. apply slice_to_end. lia.
  - intros Hlong.
    destruct Hends as (e & Hhd & s & Hlast); [lia|].
    destruct ws as [|w1 [|w2 ws]]; [done | | cbn; lia].
    cbn in Hhd, Hlast. injection Hhd as ->. injection Hlast as Hs He.
    apply Forall_cons in Hmin as [Hmin _]. cbn in Hmin. lia.
Qed.

(** A run on 25 characters with windows of 20 and an overlap of 2. *)
Lemma chunk_text_terminates_witness :
  exists ws,
    (forall fuel, (length (repeat "a"%char 25) < fuel)%nat ->
       Window.chunk_text 20 2 fuel (repeat "a"%char 25)
       = Some (map (fun w => slice (repeat "a"%char 25) (fst w) (snd w)) ws)) /\
    consecutive (Window.advance 20 2) ws /\
    Forall (fun w => 0 <= fst w < snd w /\
                     snd w = Z.min (fst w + 20) (len (repeat "a"%char 25))) ws /\
    consecutive (fun w1 _ => snd w1 < len (repeat "a"%char 25)) ws /\
    (repeat "a"%char 25 = [] -> ws = []) /\
    (repeat "a"%char 25 <> [] ->
     exists e s,
       head ws = Some (0, e) /\ last ws = Some (s, len (repeat "a"%char 25)) /\ 0 <= s /\
       last (map (fun w => slice (repeat "a"%char 25) (fst w) (snd w)) ws)
       = Some (drop (Z.to_nat s) (repeat "a"%char 25))) /\
    (20 < len (repeat "a"%char 25) -> (1 < length ws)%nat).
Proof. apply (chunk_text_terminates 20 2 (repeat "a"%char 25)). lia. Defined.

(** The example of the specification, with the module constants. *)
Example chunk_text_2500 :
  Window.windows 2000 200 3 (repeat "a"%char 2500) = Some [(0, 2000); (1800, 2500)].
Proof. vm_compute. reflexivity. Qed.

(** ** Page fetching *)

Section FetchFacts.
Variable crawler : text -> result Fetcher.crawl_result.
Variable http_get : text -> option response.
Variable resp_text : response -> text.
Variable html2text_handle : text -> text.

Lemma global_name_bound (g : list string) (name : string) :
  name ∈ g -> Fetcher.global_name g name = Ok tt.
Proof. intros H. unfold Fetcher.global_name. by rewrite bool_decide_eq_true_2. Qed.

Lemma dynamic_attempt_of_failure (g : list string) (url : text) :
  Fetcher.dynamic_fails (Fetcher.dynamic_scrape g crawler url) = true ->
  Fetcher.dynamic_attempt g crawler url = None.
Proof.
  unfold Fetcher.dynamic_attempt, Fetcher.dynamic_fails, Fetcher.usable.
  destruct (Fetcher.dynamic_scrape g crawler url) as [[ok md]|e]; [|done].
  cbn. destruct ok; cbn; [|done]. by destruct md as [[|c t]|].
Qed.

Lemma static_fetch_ok (g : list string) (url : text) (resp : response) :
  Fetcher.binds g Fetcher.names_outside_try = true ->
  http_get url = Some resp ->
  raise_for_status resp = Ok tt ->
  Fetcher.static_fetch g http_get resp_text html2text_handle url
  = Ok (html2text_handle (resp_text resp)).
Proof.
  intros Hb Hget Hst. unfold Fetcher.binds, Fetcher.names_outside_try in Hb.
  cbn [forallb] in Hb. repeat (apply andb_prop in Hb as [?%bool_decide_eq_true_1 Hb]).
  unfold Fetcher.static_fetch.
  rewrite !global_name_bound by done. cbn. by rewrite Hget, Hst.
Qed.

End FetchFacts.

(** C6. When the dynamic strategy raises, or returns an unsuccessful or empty
    result, and the static GET succeeds, [fetch_markdown] returns the
    conversion of the static response; nothing of the dynamic failure
    reaches the caller.  Stated for the body of the function in any module
    namespace that binds the names it uses outside the [try] block, of which
    the module's own is one. *)
Theorem fetch_markdown_falls_back
    (g : list string) (crawler : text -> result Fetcher.crawl_result)
    (http_get : text -> option response) (resp_text : response -> text)
    (html2text_handle : text -> text) (url : text) (resp : response) :
  Fetcher.binds g Fetcher.names_outside_try = true ->
  Fetcher.dynamic_fails (Fetcher.dynamic_scrape g crawler url) = true ->
  http_get url = Some resp ->
  raise_for_status resp = Ok tt ->
  Fetcher.fetch_markdown_in g crawler http_get resp_text html2text_handle url
  = Ok (html2text_handle (resp_text resp)).
Proof.
  intros Hb Hdyn Hget Hst. unfold Fetcher.fetch_markdown_in.
  pose proof Hb as Hb'. unfold Fetcher.binds, Fetcher.names_outside_try in Hb'.
  cbn [forallb] in Hb'.
  apply andb_prop in Hb' as [H1%bool_decide_eq_true_1 Hb'].
  apply andb_prop in Hb' as [H2%bool_decide_eq_true_1 _].
  rewrite !global_name_bound by done. cbn.
  rewrite dynamic_attempt_of_failure by done.
  by apply static_fetch_ok.
Qed.

(** A namespace with [contextlib], a crawler that raises, a server that
    answers. *)
Lemma fetch_markdown_falls_back_witness :
  Fetcher.fetch_markdown_in Examples.globals_with_contextlib Examples.failing_crawler
    Examples.page_get Examples.page_text Examples.keep_markup (lit "https://a/x")
  = Ok (lit "<p>hi</p>").
Proof.
  apply (fetch_markdown_falls_back Examples.globals_with_contextlib Examples.failing_crawler
           Examples.page_get Examples.page_text Examples.keep_markup (lit "https://a/x")
           Examples.page); reflexivity.
Defined.

(** C9. In the module as it is, [contextlib] is not bound, so the [try]
    block of [fetch_markdown] raises [NameError] before the crawler is
    reached, whatever the crawler would do; the function returns the
    conversion of the static GET and raises exactly when the GET or its
    status check does. *)
Theorem fetch_markdown_is_static
    (crawler : text -> result Fetcher.crawl_result)
    (http_get : text -> option response) (resp_text : response -> text)
    (html2text_handle : text -> text) (url : text) :
  Fetcher.dynamic_scrape Fetcher.module_globals crawler url
  = Raise (NameError "contextlib") /\
  Fetcher.dynamic_attempt Fetcher.module_globals crawler url = None /\
  Fetcher.fetch_markdown crawler http_get resp_text html2text_handle url
  = match http_get url with
    | None => Raise RequestException
    | Some resp =>
        match raise_for_status resp with
        | Ok _ => Ok (html2text_handle (resp_text resp))
        | Raise e => Raise e
        end
    end.
Proof.
  assert (Hdyn : Fetcher.dynamic_scrape Fetcher.module_globals crawler url
                 = Raise (NameError "contextlib")) by reflexivity.
  split; [exact Hdyn|]. split.
  - unfold Fetcher.dynamic_attempt. by rewrite Hdyn.
  - unfold Fetcher.fetch_markdown, Fetcher.fetch_markdown_in, Fetcher.dynamic_attempt.
    rewrite Hdyn. change (Fetcher.global_name Fetcher.module_globals "BrowserConfig") with (Ok tt).
    change (Fetcher.global_name Fetcher.module_globals "CrawlerRunConfig") with (Ok tt).
    cbn [rbind]. unfold Fetcher.static_fetch.
    change (Fetcher.global_name Fetcher.module_globals "requests") with (Ok tt).
    change (Fetcher.global_name Fetcher.module_globals "REQUEST_HEADERS") with (Ok tt).
    change (Fetcher.global_name Fetcher.module_globals "html2text") with (Ok tt).
    cbn [rbind]. destruct (http_get url) as [resp|]; [|done].
    by destruct (raise_for_status resp) as [[]|e].
Qed.

(** With a crawler that would succeed the result is still the static one. *)
Example fetch_markdown_ignores_crawler :
  Fetcher.fetch_markdown Examples.working_crawler Examples.page_get Examples.page_text
    Examples.keep_markup (lit "https://a/x") = Ok (lit "<p>hi</p>") /\
  Fetcher.fetch_markdown_in Examples.globals_with_contextlib Examples.working_crawler
    Examples.page_get Examples.page_text Examples.keep_markup (lit "https://a/x")
  = Ok (lit "rendered").
Proof. split; reflexivity. Qed.

(** ** Sitemap resolution *)

Section ResolverFacts.
Variable fromstring : bytes -> Sitemap.parsed.
Variable decode : bytes -> text.
Variable web : text -> option response.

Local Abbreviation fetch := (Sitemap.fetch_sitemap_urls fromstring decode web).

Lemma extends_refl s : Sitemap.extends s s [].
Proof.
  split; [done|]. split; [by rewrite app_nil_r|]. split; [constructor|].
  by intros x ?%elem_of_nil.
Qed.

Lemma extends_trans s s1 s2 n1 n2 :
  Sitemap.extends s s1 n1 -> Sitemap.extends s1 s2 n2 -> Sitemap.extends s s2 (n1 ++ n2).
Proof.
  intros (Hv1 & Hf1 & Hd1 & Hn1) (Hv2 & Hf2 & Hd2 & Hn2).
  split; [by etrans|]. split; [by rewrite Hf2, Hf1, app_assoc|]. split.
  - apply NoDup_app. split; [done|]. split; [|done].
    intros x Hx1 Hx2. destruct (Hn1 x Hx1) as [_ Hin], (Hn2 x Hx2) as [Hout _]. done.
  - intros x [Hx|Hx]%elem_of_app.
    + destruct (Hn1 x Hx) as [Hout Hin]. split; [done|]. by apply Hv2.
    + destruct (Hn2 x Hx) as [Hout Hin]. split; [|done]. intros Hs. by apply Hout, Hv1.
Qed.

Lemma raise_for_status_raises (resp : response) (e : exn) :
  raise_for_status resp = Raise e -> network_failure e = true.
Proof.
  unfold raise_for_status. destruct (_ && _); [|done]. by intros [= <-].
Qed.

Lemma extend_each_raises (P : exn -> Prop) (f : text -> Sitemap.M (list text))
    (cs : list text) :
  (forall c s e s', f c s = Some (Raise e, s') -> P e) ->
  forall urls s e s',
    Sitemap.extend_each f cs urls s = Some (Raise e, s') -> P e.
Proof.
  intros Hf. induction cs as [|c cs IH]; intros urls s e s'; cbn; [done|].
  unfold Sitemap.bind. destruct (f c s) as [[[more|e0] s0]|] eqn:E; [|intros [= <- _]|done].
  - apply IH.
  - by eapply Hf.
Qed.

(** Whatever the resolver raises is a request or status failure, or what
    the parser raised on a document that was fetched. *)
Lemma fetch_raises (fuel : nat) (url : text) s e s' :
  fetch fuel url s = Some (Raise e, s') ->
  network_failure e = true \/
  exists u, Sitemap.request web u = Ok tt /\ Sitemap.parser_raises fromstring web u e.
Proof.
  revert url s e s'. induction fuel as [|fuel IH]; intros url s e s'; cbn; [done|].
  destruct (decide (url ∈ Sitemap.visited s)); [done|].
  unfold Sitemap.bind, Sitemap.mark_visited, Sitemap.session_get, Sitemap.lift.
  destruct (web url) as [resp|] eqn:Hweb; [|intros [= <- _]; by left].
  destruct (raise_for_status resp) as [[]|e0] eqn:Est.
  2:{ intros [= <- _]. left. by eapply raise_for_status_raises. }
  unfold Sitemap.expand, Sitemap.lift.
  destruct (fromstring (content resp)) as [root| |e0] eqn:Hparse; [|done|].
  - destruct (bool_decide _).
    + apply (extend_each_raises
               (fun e => network_failure e = true \/
                         exists u, Sitemap.request web u = Ok tt /\
                                   Sitemap.parser_raises fromstring web u e)).
      apply IH.
    + by destruct (bool_decide _).
  - intros [= <- _]. right. exists url. unfold Sitemap.request, Sitemap.parser_raises.
    rewrite Hweb. split; [done|]. by exists resp.
Qed.

Local Abbreviation entries := (Sitemap.page_entries fromstring decode web).
Local Abbreviation accounted := (Sitemap.accounted fromstring decode web).

Lemma extend_each_accounted (f : text -> Sitemap.M (list text)) (cs : list text) :
  (forall c s out, f c s = Some out -> accounted s [] out) ->
  forall urls s out,
    Sitemap.extend_each f cs urls s = Some out -> accounted s urls out.
Proof.
  intros Hf. induction cs as [|c cs IH]; intros urls s out; cbn.
  - intros [= <-]. exists []. split; [apply extends_refl|].
    cbn. intros ? [= <-]. by rewrite app_nil_r.
  - unfold Sitemap.bind. destruct (f c s) as [[[more|e] s0]|] eqn:E; [| |done].
    + intros H. destruct (Hf _ _ _ E) as (n1 & Hext1 & Hout1).
      destruct (IH _ _ _ H) as (n2 & Hext2 & Hout2).
      exists (n1 ++ n2). split; [by eapply extends_trans|].
      intros us Hus. rewrite (Hout2 us Hus), (Hout1 more eq_refl).
      cbn. by rewrite flat_map_app, app_assoc.
    + intros [= <-]. destruct (Hf _ _ _ E) as (n1 & Hext1 & _).
      exists n1. by split.
Qed.

Lemma fetch_accounted (fuel : nat) (url : text) s out :
  fetch fuel url s = Some out -> accounted s [] out.
Proof.
  revert url s out. induction fuel as [|fuel IH]; intros url s out; cbn; [done|].
  destruct (decide (url ∈ Sitemap.visited s)) as [|Hnew].
  { intros [= <-]. exists []. split; [apply extends_refl | by intros ? [= <-]]. }
  set (s2 := Sitemap.RunState ({[url]} ∪ Sitemap.visited s) (Sitemap.fetched s ++ [url])).
  assert (Hstep : Sitemap.extends s s2 [url]).
  { split; [cbn; set_solver|]. split; [done|]. split; [apply NoDup_singleton|].
    intros x ->%list_elem_of_singleton. split; [done | cbn; set_solver]. }
  unfold Sitemap.bind, Sitemap.mark_visited, Sitemap.session_get, Sitemap.lift.
  fold s2. unfold Sitemap.page_entries.
  assert (Hdone : forall r, (forall urls, r = Ok urls -> urls = entries url) ->
                       accounted s [] (r, s2)).
  { intros r Hr. exists [url]. split; [done|]. cbn. intros urls ->%Hr.
    by rewrite app_nil_r. }
  destruct (web url) as [resp|] eqn:Hweb; [|intros [= <-]; by apply Hdone].
  destruct (raise_for_status resp) as [[]|e] eqn:Hst; [|intros [= <-]; by apply Hdone].
  unfold Sitemap.expand.
  destruct (fromstring (content resp)) as [root| |e] eqn:Hparse.
  2:{ intros [= <-]. apply Hdone. intros urls [= <-].
      unfold Sitemap.page_entries. by rewrite Hweb, Hst, Hparse. }
  2:{ intros [= <-]. by apply Hdone. }
  destruct (bool_decide (Sitemap.local_tag root = lit "sitemapindex")) eqn:Hidx.
  - intros H. apply (extend_each_accounted _ _ IH) in H as (n & Hext & Hout).
    exists ([url] ++ n). split; [by eapply extends_trans|].
    intros urls Hurls. rewrite (Hout urls Hurls). cbn.
    unfold Sitemap.page_entries. by rewrite Hweb, Hst, Hparse, Hidx.
  - destruct (bool_decide (Sitemap.local_tag root = lit "urlset")) eqn:Hset;
      intros [= <-]; apply Hdone; intros urls [= <-];
      unfold Sitemap.page_entries; by rewrite Hweb, Hst, Hparse, Hidx, Hset.
Qed.

Lemma pending_mono (nodes : list text) s s' :
  Sitemap.visited s ⊆ Sitemap.visited s' ->
  (Sitemap.pending nodes s' <= Sitemap.pending nodes s)%nat.
Proof.
  intros Hsub. unfold Sitemap.pending.
  induction nodes as [|u nodes IH]; [done|].
  rewrite !filter_cons. repeat case_decide; cbn; try lia.
  exfalso. set_solver.
Qed.

Lemma pending_lt (nodes : list text) (url : text) s s' :
  url ∈ nodes ->
  url ∉ Sitemap.visited s ->
  url ∈ Sitemap.visited s' ->
  Sitemap.visited s ⊆ Sitemap.visited s' ->
  (Sitemap.pending nodes s' < Sitemap.pending nodes s)%nat.
Proof.
  intros Hin Hout Hnow Hsub. unfold Sitemap.pending.
  induction nodes as [|u nodes IH]; [by apply elem_of_nil in Hin|].
  pose proof (pending_mono nodes s s' Hsub) as Hle. unfold Sitemap.pending in Hle.
  rewrite !filter_cons. apply elem_of_cons in Hin as [<-|Hin].
  - repeat case_decide; cbn; try done. lia.
  - specialize (IH Hin). repeat case_decide; cbn; try lia.
    exfalso. set_solver.
Qed.

Lemma extend_each_more_fuel (f f' : text -> Sitemap.M (list text)) (cs : list text) :
  (forall c s out, f c s = Some out -> f' c s = Some out) ->
  forall urls s out,
    Sitemap.extend_each f cs urls s = Some out ->
    Sitemap.extend_each f' cs urls s = Some out.
Proof.
  intros Hf. induction cs as [|c cs IH]; intros urls s out; cbn; [done|].
  unfold Sitemap.bind. destruct (f c s) as [[[more|e] s0]|] eqn:E; [| |done];
    rewrite (Hf _ _ _ E); [apply IH | done].
Qed.

(** More fuel does not change a result. *)
Lemma fetch_more_fuel (fuel fuel' : nat) (url : text) s out :
  (fuel <= fuel')%nat ->
  fetch fuel url s = Some out -> fetch fuel' url s = Some out.
Proof.
  revert fuel' url s out. induction fuel as [|fuel IH]; intros fuel' url s out Hle; [done|].
  destruct fuel' as [|fuel']; [lia|]. cbn.
  destruct (decide (url ∈ Sitemap.visited s)); [done|].
  unfold Sitemap.bind, Sitemap.mark_visited, Sitemap.session_get, Sitemap.lift.
  destruct (web url) as [resp|]; [|done].
  destruct (raise_for_status resp) as [[]|e]; [|done].
  unfold Sitemap.expand. destruct (fromstring (content resp)) as [root| |e]; [|done|done].
  destruct (bool_decide _); [|done].
  apply extend_each_more_fuel. intros c s0 out0. apply IH. lia.
Qed.

Section Finite.
Variable nodes : list text.
Hypothesis closed : Sitemap.closed_graph fromstring web nodes = true.

Lemma closed_children (u c : text) :
  u ∈ nodes -> c ∈ Sitemap.sitemap_children fromstring web u -> c ∈ nodes.
Proof.
  intros Hu Hc. unfold Sitemap.closed_graph in closed.
  rewrite forallb_forall in closed.
  specialize (closed u (proj1 (list_elem_of_In _ _) Hu)).
  rewrite forallb_forall in closed.
  specialize (closed c (proj1 (list_elem_of_In _ _) Hc)).
  by apply bool_decide_eq_true_1 in closed.
Qed.

Lemma extend_each_terminates (f : text -> Sitemap.M (list text)) (cs : list text) (bound : nat) :
  (forall c s, c ∈ cs -> (Sitemap.pending nodes s < bound)%nat -> is_Some (f c s)) ->
  (forall c s out, f c s = Some out -> Sitemap.visited s ⊆ Sitemap.visited (snd out)) ->
  forall urls s,
    (Sitemap.pending nodes s < bound)%nat ->
    is_Some (Sitemap.extend_each f cs urls s).
Proof.
  intros Hterm Hgrow. induction cs as [|c cs IH]; intros urls s Hb; cbn; [done|].
  unfold Sitemap.bind.
  destruct (Hterm c s) as [[[more|e] s0] E]; [by left | done | |]; rewrite E; [|done].
  apply IH.
  - intros c' s' Hc'. apply Hterm. by right.
  - apply Hgrow in E. cbn in E. pose proof (pending_mono nodes s s0 E). lia.
Qed.

(** With fuel for every sitemap still to be visited the call returns. *)
Lemma fetch_terminates (fuel : nat) (url : text) s :
  url ∈ nodes ->
  (Sitemap.pending nodes s < fuel)%nat ->
  is_Some (fetch fuel url s).
Proof.
  revert url s. induction fuel as [|fuel IH]; intros url s Hin Hb; [lia|]. cbn.
  destruct (decide (url ∈ Sitemap.visited s)) as [|Hnew]; [done|].
  unfold Sitemap.bind, Sitemap.mark_visited, Sitemap.session_get, Sitemap.lift.
  destruct (web url) as [resp|] eqn:Hweb; [|done].
  destruct (raise_for_status resp) as [[]|e] eqn:Hst; [|done].
  unfold Sitemap.expand. destruct (fromstring (content resp)) as [root| |e] eqn:Hparse; [|done|done].
  destruct (bool_decide _) eqn:Hidx; [|destruct (bool_decide (Sitemap.local_tag root = lit "urlset")); eexists; reflexivity].
  apply (extend_each_terminates _ _ fuel).
  - intros c s0 Hc Hb0. apply IH; [|done].
    apply (closed_children url); [done|].
    unfold Sitemap.sitemap_children. by rewrite Hweb, Hst, Hparse, Hidx.
  - intros c s0 out E. by destruct (fetch_accounted _ _ _ _ E) as (? & (? & _) & _).
  - match goal with |- (Sitemap.pending nodes ?s2 < fuel)%nat =>
      assert (Sitemap.pending nodes s2 < Sitemap.pending nodes s)%nat; [|lia] end.
    apply (pending_lt nodes url); cbn; [done | done | set_solver | set_solver].
Qed.

End Finite.

End ResolverFacts.

(** On the two indexes that list each other the run fetches each document
    once, and the page listed twice comes out twice. *)
Example resolve_cycle :
  (fun out => (fst out, Sitemap.fetched (snd out)))
    <$> Sitemap.resolve Examples.parse Examples.ascii_text Examples.site 4
          (lit "https://h/a.xml")
  = Some (Ok [lit "https://h/1"; lit "https://h/1"],
          [lit "https://h/a.xml"; lit "https://h/b.xml"; lit "https://h/p.xml"]).
Proof. vm_compute. reflexivity. Qed.

(** C4, as stated: the result of a resolution has no duplicate.  It fails
    on a [urlset] that lists a page twice. *)
Lemma resolve_keeps_duplicates :
  ~ (forall (fromstring : bytes -> Sitemap.parsed) (decode : bytes -> text)
            (web : text -> option response) (fuel : nat) (url : text)
            (urls : list text) (s' : Sitemap.run_state),
       Sitemap.resolve fromstring decode web fuel url = Some (Ok urls, s') ->
       NoDup urls).
Proof.
  intros H.
  destruct (Sitemap.resolve Examples.parse Examples.ascii_text Examples.site 1
              (lit "https://h/p.xml")) as [[r s']|] eqn:E.
  - assert (Hr : r = Ok [lit "https://h/1"; lit "https://h/1"]).
    { apply (f_equal (fmap fst)) in E. vm_compute in E. by injection E as <-. }
    subst r. apply H in E. apply NoDup_cons in E as [Hnot _].
    apply Hnot. by left.
  - apply (f_equal (fmap fst)) in E. vm_compute in E. discriminate.
Qed.

(** C4, amended. The result of a resolution is flat and ordered but not
    deduplicated: it is the concatenation, in the order the documents were
    fetched, of the page entries of every sitemap document fetched in the
    run, and each document is fetched once. *)
Theorem resolve_concatenates_entries
    (fromstring : bytes -> Sitemap.parsed) (decode : bytes -> text)
    (web : text -> option response) (fuel : nat) (url : text)
    (urls : list text) (s' : Sitemap.run_state) :
  Sitemap.resolve fromstring decode web fuel url = Some (Ok urls, s') ->
  NoDup (Sitemap.fetched s') /\
  urls = flat_map (Sitemap.page_entries fromstring decode web) (Sitemap.fetched s').
Proof.
  unfold Sitemap.resolve. intros H.
  apply fetch_accounted in H as (new & (_ & Hlog & Hdup & _) & Hout).
  cbn in Hlog, Hout. rewrite Hlog. split; [done|]. by apply Hout.
Qed.

Lemma resolve_concatenates_entries_witness :
  exists s',
    Sitemap.resolve Examples.parse Examples.ascii_text Examples.site 4 (lit "https://h/a.xml")
    = Some (Ok [lit "https://h/1"; lit "https://h/1"], s') /\
    NoDup (Sitemap.fetched s') /\
    [lit "https://h/1"; lit "https://h/1"]
    = flat_map (Sitemap.page_entries Examples.parse Examples.ascii_text Examples.site)
        (Sitemap.fetched s').
Proof.
  destruct (Sitemap.resolve Examples.parse Examples.ascii_text Examples.site 4
              (lit "https://h/a.xml")) as [[r s']|] eqn:E.
  - assert (Hr : r = Ok [lit "https://h/1"; lit "https://h/1"]).
    { apply (f_equal (fmap fst)) in E. vm_compute in E. by injection E as <-. }
    subst r. exists s'. split; [done|].
    exact (resolve_concatenates_entries Examples.parse Examples.ascii_text Examples.site 4
             (lit "https://h/a.xml") _ s' E).
  - apply (f_equal (fmap fst)) in E. vm_compute in E. discriminate.
Defined.

(** C5. On a finite sitemap graph, cycles included, the resolution returns:
    with fuel for more calls than the graph has sitemaps the result exists
    and is the same for any such fuel.  No URL is fetched twice in the run,
    and a call on a URL that is already in the visited set returns the empty
    list at once, leaving the run as it was (nothing fetched). *)
Theorem resolve_terminates
    (fromstring : bytes -> Sitemap.parsed) (decode : bytes -> text)
    (web : text -> option response) (nodes : list text) (url : text) :
  Sitemap.closed_graph fromstring web nodes = true ->
  url ∈ nodes ->
  exists out,
    (forall fuel, (length nodes < fuel)%nat ->
       Sitemap.resolve fromstring decode web fuel url = Some out) /\
    NoDup (Sitemap.fetched (snd out)) /\
    (forall fuel u s,
       u ∈ Sitemap.visited s ->
       Sitemap.fetch_sitemap_urls fromstring decode web (S fuel) u s = Some (Ok [], s)).
Proof.
  intros Hclosed Hin.
  assert (Hp : (Sitemap.pending nodes (Sitemap.RunState ∅ []) < S (length nodes))%nat).
  { unfold Sitemap.pending. apply Nat.lt_succ_r, length_filter. }
  destruct (fetch_terminates fromstring decode web nodes Hclosed _ url _ Hin Hp) as [out E].
  exists out. split; [|split].
  - intros fuel Hf. unfold Sitemap.resolve.
    eapply fetch_more_fuel; [|exact E]. lia.
  - apply fetch_accounted in E as (new & (_ & Hlog & Hdup & _) & _).
    cbn in Hlog. by rewrite Hlog.
  - intros fuel u s Hu. cbn. by rewrite decide_True.
Qed.

Lemma resolve_terminates_witness :
  exists out,
    (forall fuel, (length Examples.nodes < fuel)%nat ->
       Sitemap.resolve Examples.parse Examples.ascii_text Examples.site fuel
         (lit "https://h/a.xml") = Some out) /\
    NoDup (Sitemap.fetched (snd out)) /\
    (forall fuel u s,
       u ∈ Sitemap.visited s ->
       Sitemap.fetch_sitemap_urls Examples.parse Examples.ascii_text Examples.site
         (S fuel) u s = Some (Ok [], s)).
Proof.
  apply (resolve_terminates Examples.parse Examples.ascii_text Examples.site Examples.nodes
           (lit "https://h/a.xml")).
  - vm_compute. reflexivity.
  - unfold Examples.nodes. apply elem_of_cons. by left.
Defined.

(** C7, as stated: a body that fails XML parsing never makes the resolution
    raise, and the result holds the contents of every literal
    [<loc>...</loc>] pair of the decoded body.  The first fails on a
    well-formed document that declares the encoding [gb2312]: the parser
    raises [ValueError], which is no [ParseError], and the resolution raises
    it.  The second fails on a broken document whose [loc] runs over two
    lines: the pattern finds nothing. *)
Lemma malformed_sitemap_counterexample :
  ~ (forall (fromstring : bytes -> Sitemap.parsed) (decode : bytes -> text)
            (web : text -> option response) (url : text) (resp : response) (fuel : nat),
       web url = Some resp ->
       raise_for_status resp = Ok tt ->
       (forall root, fromstring (content resp) <> Sitemap.Tree root) ->
       exists urls s',
         Sitemap.resolve fromstring decode web (S fuel) url = Some (Ok urls, s')) /\
  ~ (forall (fromstring : bytes -> Sitemap.parsed) (decode : bytes -> text)
            (web : text -> option response) (url : text) (resp : response) (fuel : nat)
            (urls : list text) (s' : Sitemap.run_state),
       web url = Some resp ->
       raise_for_status resp = Ok tt ->
       fromstring (content resp) = Sitemap.ParseError ->
       Sitemap.resolve fromstring decode web (S fuel) url = Some (Ok urls, s') ->
       forall pre u post,
         decode (content resp) = pre ++ lit "<loc>" ++ u ++ lit "</loc>" ++ post ->
         forallb (fun c => negb (Ascii.eqb c "<"%char)) u = true ->
         u ∈ urls).
Proof.
  split.
  - intros H.
    destruct (H Examples.parse_declared Examples.ascii_text Examples.site_odd
                (lit "https://h/gb.xml") (Response 200 Examples.gb2312_doc) 0%nat)
      as (urls & s' & E); [reflexivity | reflexivity | |].
    + intros root Hr. vm_compute in Hr. discriminate.
    + apply (f_equal (fmap fst)) in E. vm_compute in E. discriminate.
  - intros H.
    destruct (Sitemap.resolve Examples.parse Examples.ascii_text Examples.site_odd 1
                (lit "https://h/lines.xml")) as [[r s']|] eqn:E.
    + assert (Hr : r = Ok []).
      { apply (f_equal (fmap fst)) in E. vm_compute in E. by injection E as <-. }
      subst r.
      specialize (H Examples.parse Examples.ascii_text Examples.site_odd
                    (lit "https://h/lines.xml") (Response 200 Examples.two_line_doc)
                    0%nat [] s' eq_refl eq_refl eq_refl E
                    (lit "<urlset><url>") (lit "https://a/
x") (lit "</url>") eq_refl eq_refl).
      by apply elem_of_nil in H.
    + apply (f_equal (fmap fst)) in E. vm_compute in E. discriminate.
Qed.

(** C7, amended. A response whose body makes [ET.fromstring] raise
    [ParseError] does not make the resolver raise: the call returns what the
    pattern of the fallback finds in the decoded body, which for a body made
    of literal [<loc>...</loc>] pairs with plain contents (on one line,
    without [<]) are those contents in order, without the white space around
    them.  What a call raises is a request or status failure, or what the
    parser raised, other than [ParseError], on a document that was fetched;
    and such an exception of the parser does come out of the call. *)
Theorem malformed_sitemap_falls_back
    (fromstring : bytes -> Sitemap.parsed) (decode : bytes -> text)
    (web : text -> option response) (url : text) (resp : response)
    (s : Sitemap.run_state) (fuel : nat) :
  web url = Some resp ->
  raise_for_status resp = Ok tt ->
  fromstring (content resp) = Sitemap.ParseError ->
  url ∉ Sitemap.visited s ->
  Sitemap.fetch_sitemap_urls fromstring decode web (S fuel) url s
  = Some (Ok (findall Sitemap.loc_pat (decode (content resp))),
          Sitemap.RunState ({[url]} ∪ Sitemap.visited s) (Sitemap.fetched s ++ [url])) /\
  (forall us, Sitemap.loc_pairs (decode (content resp)) us ->
              findall Sitemap.loc_pat (decode (content resp)) = us) /\
  (forall fuel' url' s0 e s1,
     Sitemap.fetch_sitemap_urls fromstring decode web fuel' url' s0 = Some (Raise e, s1) ->
     network_failure e = true \/
     exists u, Sitemap.request web u = Ok tt /\ Sitemap.parser_raises fromstring web u e) /\
  (forall fuel' url' resp' s0 e,
     web url' = Some resp' ->
     raise_for_status resp' = Ok tt ->
     fromstring (content resp') = Sitemap.Fails e ->
     url' ∉ Sitemap.visited s0 ->
     Sitemap.fetch_sitemap_urls fromstring decode web (S fuel') url' s0
     = Some (Raise e, Sitemap.RunState ({[url']} ∪ Sitemap.visited s0)
                        (Sitemap.fetched s0 ++ [url']))).
Proof.
  intros Hweb Hst Hparse Hnew. split; [|split; [|split]].
  - cbn. destruct (decide (url ∈ Sitemap.visited s)); [done|].
    unfold Sitemap.bind, Sitemap.mark_visited, Sitemap.session_get, Sitemap.lift,
      Sitemap.expand.
    by rewrite Hweb, Hst, Hparse.
  - intros us. apply findall_loc_pairs.
  - intros fuel' url' s0 e s1. apply fetch_raises.
  - intros fuel' url' resp' s0 e Hweb' Hst' Hparse' Hnew'. cbn.
    destruct (decide (url' ∈ Sitemap.visited s0)); [done|].
    unfold Sitemap.bind, Sitemap.mark_visited, Sitemap.session_get, Sitemap.lift,
      Sitemap.expand.
    by rewrite Hweb', Hst', Hparse'.
Qed.

(** The broken document of the specification: the page URL is still found. *)
Lemma malformed_sitemap_falls_back_witness :
  fst <$> Sitemap.resolve Examples.parse Examples.ascii_text Examples.site 1
            (lit "https://h/broken.xml")
  = Some (Ok [lit "https://a/x"]).
Proof.
  unfold Sitemap.resolve.
  destruct (malformed_sitemap_falls_back Examples.parse Examples.ascii_text Examples.site
              (lit "https://h/broken.xml") (Response 200 Examples.broken_doc)
              (Sitemap.RunState ∅ []) 0) as [H _];
    [reflexivity | reflexivity | reflexivity | apply not_elem_of_empty |].
  rewrite H. reflexivity.
Defined.

Example findall_broken_doc :
  findall Sitemap.loc_pat (lit "<urlset><url><loc>https://a/x</loc></url>")
  = [lit "https://a/x"].
Proof. reflexivity. Qed.

(** The broken document laid out on lines reads as one pair, and its
    contents are found without the white space around them. *)
Example loc_pairs_padded_doc :
  Sitemap.loc_pairs (Examples.ascii_text Examples.padded_doc) [lit "https://a/x y"] /\
  fst <$> Sitemap.resolve Examples.parse Examples.ascii_text Examples.site_odd 1
            (lit "https://h/padded.xml")
  = Some (Ok [lit "https://a/x y"]).
Proof.
  split; [|vm_compute; reflexivity].
  change (Examples.ascii_text Examples.padded_doc)
    with (lit "<urlset><url>" ++ lit "<loc>" ++ lit "
  " ++ lit "https://a/x y" ++ lit "
" ++ lit "</loc>" ++ lit "</url>").
  unfold lit at 1. cbn [list_ascii_of_string app].
  do 13 (apply Sitemap.pairs_other; [reflexivity|]).
  apply Sitemap.pairs_loc; [reflexivity | reflexivity | reflexivity |].
  unfold lit. cbn [list_ascii_of_string].
  do 6 (apply Sitemap.pairs_other; [reflexivity|]).
  apply Sitemap.pairs_end.
Qed.

(** * Further properties of the code *)

(** ** [chunk_text]: sizes, overlap, reconstruction, edge cases *)

Lemma slice_range {A} (t : list A) (a b : Z) :
  0 <= a -> a <= b -> b <= len t ->
  slice t a b = take (Z.to_nat (b - a)) (drop (Z.to_nat a) t).
Proof.
  intros Ha Hab Hb. unfold slice, norm_index, len in *.
  destruct (Z.ltb_spec a 0); [lia|]. destruct (Z.ltb_spec b 0); [lia|].
  by rewrite !Z.min_l by lia.
Qed.

Lemma length_slice {A} (t : list A) (a b : Z) :
  0 <= a -> a <= b -> b <= len t -> len (slice t a b) = b - a.
Proof.
  intros Ha Hab Hb. rewrite slice_range by done. unfold len in *.
  rewrite length_take, length_drop. lia.
Qed.

Section WindowShape.
Variables MAX_CHARS OVERLAP : Z.

(** Every window the loop emits ends at [min(start + MAX_CHARS, length)]. *)
Lemma windows_from_ends (n : Z) (fuel : nat) :
  forall start ws,
    Window.windows_from MAX_CHARS OVERLAP fuel n start = Some ws ->
    Forall (fun w => snd w = Z.min (fst w + MAX_CHARS) n) ws.
Proof.
  induction fuel as [|fuel IH]; intros start ws; cbn [Window.windows_from]; [done|].
  destruct (start <? n); [|by intros [= <-]].
  destruct (Z.min (start + MAX_CHARS) n =? n).
  - intros [= <-]. by constructor.
  - destruct (Window.windows_from MAX_CHARS OVERLAP fuel n _) as [ws'|] eqn:E; [|done].
    intros [= <-]. constructor; [done|]. by eapply IH.
Qed.

Hypothesis overlap_below_max : 0 <= OVERLAP < MAX_CHARS.

(** The chunks of the windows from [start] on, stitched, are the text from
    [start] on; and the first of them is longer than the overlap when the
    text goes on past a full window. *)
Lemma windows_from_stitch (t : text) (fuel : nat) :
  forall start ws,
    0 <= start ->
    Window.windows_from MAX_CHARS OVERLAP fuel (len t) start = Some ws ->
    Window.stitch (Z.to_nat OVERLAP) (map (fun w => slice t (fst w) (snd w)) ws)
    = drop (Z.to_nat start) t.
Proof.
  induction fuel as [|fuel IH]; intros start ws Hs; cbn [Window.windows_from]; [done|].
  destruct (Z.ltb_spec start (len t)) as [Hlt|Hge].
  2:{ intros [= <-]. cbn. rewrite drop_ge; [done|]. unfold len in Hge. lia. }
  destruct (Z.eqb_spec (Z.min (start + MAX_CHARS) (len t)) (len t)) as [He|Hne].
  - intros [= <-]. cbn. rewrite He, app_nil_r. by apply slice_to_end.
  - assert (Hend : Z.min (start + MAX_CHARS) (len t) = start + MAX_CHARS) by lia.
    rewrite Hend.
    destruct (Window.windows_from MAX_CHARS OVERLAP fuel (len t) _) as [ws'|] eqn:E; [|done].
    intros [= <-]. cbn [map Window.stitch fst snd].
    pose proof (IH (start + MAX_CHARS - OVERLAP) ws' ltac:(lia) E) as Hrest.
    pose proof (windows_from_ends _ _ _ _ E) as Hends.
    destruct fuel as [|fuel']; [done|]. cbn [Window.windows_from] in E.
    destruct (Z.ltb_spec (start + MAX_CHARS - OVERLAP) (len t)); [|lia].
    assert (Hfirst : exists e ws2, ws' = (start + MAX_CHARS - OVERLAP, e) :: ws2).
    { destruct (_ =? _); [injection E as <-; by eexists _, _|].
      destruct (Window.windows_from _ _ _ _ _); [|done]. injection E as <-. by eexists _, _. }
    destruct Hfirst as (e & ws2 & ->). apply Forall_cons in Hends as [He _]. cbn in He.
    cbn [map Window.stitch fst snd flat_map] in *.
    set (c2 := slice t (start + MAX_CHARS - OVERLAP) e) in *.
    set (more := flat_map (drop (Z.to_nat OVERLAP)) _) in *.
    assert (Hlen2 : OVERLAP <= len c2).
    { unfold c2. rewrite length_slice by lia. lia. }
    assert (Hdrop : drop (Z.to_nat OVERLAP) c2 ++ more = drop (Z.to_nat (start + MAX_CHARS)) t).
    { rewrite <- (drop_app_le c2 more) by (unfold len in Hlen2; lia).
      rewrite Hrest, drop_drop. f_equal. lia. }
    rewrite Hdrop, slice_range by lia.
    replace (Z.to_nat (start + MAX_CHARS)) with (Z.to_nat start + Z.to_nat (start + MAX_CHARS - start))%nat by lia.
    rewrite <- drop_drop. apply take_drop.
Qed.

(** Two consecutive chunks share the overlap: the later one starts with the
    last [OVERLAP] characters of the earlier one. *)
Lemma windows_from_overlap (t : text) (fuel : nat) :
  forall start ws,
    0 <= start ->
    Window.windows_from MAX_CHARS OVERLAP fuel (len t) start = Some ws ->
    consecutive
      (fun c1 c2 => take (Z.to_nat OVERLAP) c2
                    = drop (length c1 - Z.to_nat OVERLAP) c1)
      (map (fun w => slice t (fst w) (snd w)) ws).
Proof.
  induction fuel as [|fuel IH]; intros start ws Hs; cbn [Window.windows_from]; [done|].
  destruct (Z.ltb_spec start (len t)) as [Hlt|Hge]; [|intros [= <-]; constructor].
  destruct (Z.eqb_spec (Z.min (start + MAX_CHARS) (len t)) (len t)) as [He|Hne];
    [intros [= <-]; constructor|].
  assert (Hend : Z.min (start + MAX_CHARS) (len t) = start + MAX_CHARS) by lia.
  rewrite Hend.
  destruct (Window.windows_from MAX_CHARS OVERLAP fuel (len t) _) as [ws'|] eqn:E; [|done].
  intros [= <-]. cbn [map fst snd].
  pose proof (IH (start + MAX_CHARS - OVERLAP) ws' ltac:(lia) E) as Hrest.
  pose proof (windows_from_ends _ _ _ _ E) as Hends.
  destruct fuel as [|fuel']; [done|]. cbn [Window.windows_from] in E.
  destruct (Z.ltb_spec (start + MAX_CHARS - OVERLAP) (len t)); [|lia].
  assert (Hfirst : exists e ws2, ws' = (start + MAX_CHARS - OVERLAP, e) :: ws2).
  { destruct (_ =? _); [injection E as <-; by eexists _, _|].
    destruct (Window.windows_from _ _ _ _ _); [|done]. injection E as <-. by eexists _, _. }
  destruct Hfirst as (e & ws2 & ->). apply Forall_cons in Hends as [He _]. cbn in He.
  cbn [map fst snd] in *. constructor; [|done].
  rewrite !slice_range by lia. rewrite length_take, length_drop, take_take.
  unfold len in *.
  replace (Z.to_nat OVERLAP `min` Z.to_nat (e - (start + MAX_CHARS - OVERLAP)))%nat
    with (Z.to_nat OVERLAP) by lia.
  rewrite !take_drop_commute, drop_drop.
  f_equal; [lia|]. f_equal. lia.
Qed.

End WindowShape.

(** The windows of a run that returns, whatever fuel it was given. *)
Lemma windows_shape (MAX_CHARS OVERLAP : Z) (t : text) (fuel : nat) ws :
  0 <= OVERLAP < MAX_CHARS ->
  Window.windows MAX_CHARS OVERLAP fuel t = Some ws ->
  consecutive (Window.advance MAX_CHARS OVERLAP) ws /\
  Forall (fun w => 0 <= fst w < snd w /\ snd w <= len t) ws.
Proof.
  intros Hcfg Hws. unfold Window.windows in Hws.
  destruct (windows_from_spec MAX_CHARS OVERLAP Hcfg (len t) (S (length t)) 0)
    as (ws' & Hws' & Hsteps & _ & _ & Hall); [lia | unfold len; lia |].
  apply (windows_from_more_fuel _ _ _ _ (max fuel (S (length t)))) in Hws; [|lia].
  apply (windows_from_more_fuel _ _ _ _ (max fuel (S (length t)))) in Hws'; [|lia].
  rewrite Hws in Hws'. by injection Hws' as ->.
Qed.

(** X1. Under [0 <= OVERLAP < MAX_CHARS] no chunk of [chunk_text] is empty
    or longer than [MAX_CHARS], and every chunk but the last has exactly
    [MAX_CHARS] characters. *)
Theorem chunk_text_sizes (MAX_CHARS OVERLAP : Z) (t : text) (fuel : nat) (cs : list text) :
  0 <= OVERLAP < MAX_CHARS ->
  Window.chunk_text MAX_CHARS OVERLAP fuel t = Some cs ->
  Forall (fun c => 0 < len c <= MAX_CHARS) cs /\
  consecutive (fun c _ => len c = MAX_CHARS) cs.
Proof.
  intros Hcfg. unfold Window.chunk_text.
  destruct (Window.windows MAX_CHARS OVERLAP fuel t) as [ws|] eqn:E; [|done].
  intros [= <-].
  destruct (windows_shape _ _ _ _ _ Hcfg E) as [Hsteps Hall].
  pose proof (windows_from_ends MAX_CHARS OVERLAP _ _ _ _ E) as Hends.
  split.
  - rewrite Forall_fmap. apply Forall_forall. intros w Hw.
    rewrite Forall_forall in Hall, Hends. specialize (Hall w Hw). specialize (Hends w Hw).
    cbn. rewrite length_slice by lia. lia.
  - clear Hends E. revert Hall.
    induction Hsteps as [|w|w1 w2 ws (H1 & _) _ IH]; intros Hall; cbn [map].
    + constructor.
    + constructor.
    + apply Forall_cons in Hall as [Hw1 Hall]. constructor; [|by apply IH].
      pose proof Hall as [Hw2 _]%Forall_cons.
      rewrite length_slice by lia. lia.
Qed.

Lemma chunk_text_sizes_witness :
  Forall (fun c => 0 < len c <= 4) [lit "abcd"; lit "defg"; lit "ghij"; lit "jk"] /\
  consecutive (fun c _ => len c = 4) [lit "abcd"; lit "defg"; lit "ghij"; lit "jk"].
Proof.
  apply (chunk_text_sizes 4 1 (lit "abcdefghijk") 5); [lia | reflexivity].
Defined.

(** X2. Under [0 <= OVERLAP < MAX_CHARS] the chunks of [chunk_text] lose
    nothing: the first chunk followed by every later chunk without its first
    [OVERLAP] characters is the text. *)
Theorem chunk_text_stitch (MAX_CHARS OVERLAP : Z) (t : text) (fuel : nat) (cs : list text) :
  0 <= OVERLAP < MAX_CHARS ->
  Window.chunk_text MAX_CHARS OVERLAP fuel t = Some cs ->
  Window.stitch (Z.to_nat OVERLAP) cs = t.
Proof.
  intros Hcfg. unfold Window.chunk_text.
  destruct (Window.windows MAX_CHARS OVERLAP fuel t) as [ws|] eqn:E; [|done].
  intros [= <-].
  by rewrite (windows_from_stitch MAX_CHARS OVERLAP Hcfg t fuel 0 ws ltac:(lia) E).
Qed.

Lemma chunk_text_stitch_witness :
  Window.stitch 1 [lit "abcd"; lit "defg"; lit "ghij"; lit "jk"] = lit "abcdefghijk".
Proof.
  apply (chunk_text_stitch 4 1 (lit "abcdefghijk") 5); [lia | reflexivity].
Defined.

(** X3. Under [0 <= OVERLAP < MAX_CHARS] each chunk of [chunk_text] after the
    first starts with the last [OVERLAP] characters of the chunk before
    it. *)
Theorem chunk_text_overlap (MAX_CHARS OVERLAP : Z) (t : text) (fuel : nat) (cs : list text) :
  0 <= OVERLAP < MAX_CHARS ->
  Window.chunk_text MAX_CHARS OVERLAP fuel t = Some cs ->
  consecutive
    (fun c1 c2 => take (Z.to_nat OVERLAP) c2 = drop (length c1 - Z.to_nat OVERLAP) c1) cs.
Proof.
  intros Hcfg. unfold Window.chunk_text.
  destruct (Window.windows MAX_CHARS OVERLAP fuel t) as [ws|] eqn:E; [|done].
  intros [= <-].
  by apply (windows_from_overlap MAX_CHARS OVERLAP Hcfg t fuel 0 ws).
Qed.

Lemma chunk_text_overlap_witness :
  consecutive (fun c1 c2 => take 2 c2 = drop (length c1 - 2) c1)
    [lit "abcde"; lit "defgh"; lit "ghijk"].
Proof.
  apply (chunk_text_overlap 5 2 (lit "abcdefghijk") 5); [lia | reflexivity].
Defined.

(** X4. Edge cases of [chunk_text], whatever the overlap: the empty text
    gives no chunk, and a text of at most [MAX_CHARS] characters gives
    exactly one chunk, the text itself. *)
Theorem chunk_text_short (MAX_CHARS OVERLAP : Z) (t : text) (fuel : nat) :
  len t <= MAX_CHARS ->
  Window.chunk_text MAX_CHARS OVERLAP (S fuel) t
  = Some (match t with [] => [] | _ :: _ => [t] end).
Proof.
  intros Hfit. unfold Window.chunk_text, Window.windows. cbn [Window.windows_from].
  destruct t as [|c t]; [done|].
  destruct (Z.ltb_spec 0 (len (c :: t))) as [_|H]; [|unfold len in H; cbn in H; lia].
  rewrite Z.min_r by lia. rewrite Z.eqb_refl. cbn. do 2 f_equal.
  apply slice_to_end. lia.
Qed.

Lemma chunk_text_short_witness :
  Window.chunk_text 2000 200 1 (lit "short") = Some [lit "short"].
Proof. apply (chunk_text_short 2000 200 (lit "short") 0). vm_compute. discriminate. Defined.

(** X5. The loop of [chunk_text] has no guard on the overlap: when
    [0 < MAX_CHARS <= OVERLAP] and the text is longer than [MAX_CHARS], the
    window start never moves forward and the loop does not end, whatever the
    fuel. *)
Theorem chunk_text_diverges (MAX_CHARS OVERLAP : Z) (t : text) (fuel : nat) :
  0 < MAX_CHARS <= OVERLAP ->
  MAX_CHARS < len t ->
  Window.chunk_text MAX_CHARS OVERLAP fuel t = None.
Proof.
  intros Hcfg Hlong. unfold Window.chunk_text, Window.windows.
  assert (H : forall start, start <= 0 ->
                Window.windows_from MAX_CHARS OVERLAP fuel (len t) start = None).
  { induction fuel as [|fuel IH]; intros start Hs; cbn [Window.windows_from]; [done|].
    destruct (Z.ltb_spec start (len t)); [|lia].
    destruct (Z.eqb_spec (Z.min (start + MAX_CHARS) (len t)) (len t)); [lia|].
    rewrite IH; [done | lia]. }
  by rewrite H.
Qed.

Lemma chunk_text_diverges_witness :
  Window.chunk_text 3 3 1000 (lit "abcdefgh") = None.
Proof. apply (chunk_text_diverges 3 3 (lit "abcdefgh") 1000); [lia | vm_compute; reflexivity]. Defined.

(** ** [chunk_by_paragraphs]: what becomes of the paragraphs *)

Lemma pieces_nonempty (s : text) (p : nat) (ms : list found) : pieces s p ms <> [].
Proof. by destruct ms. Qed.

Lemma curr_length_nonneg (ps : list text) : 0 <= Chunks.curr_length ps.
Proof.
  unfold Chunks.curr_length. induction ps as [|x ps IH]; cbn [foldr]; [done|].
  assert (0 <= len x) by (unfold len; lia). lia.
Qed.

Section RunFacts.
Variables max_chars overlap_paras : Z.

Local Abbreviation gstep' := (Chunks.group_step max_chars overlap_paras).

Lemma assemble_snoc (runs : list (list text)) (run : list text) :
  Chunks.assemble overlap_paras (runs ++ [run])
  = Chunks.assemble overlap_paras runs
    ++ [Chunks.seed_of overlap_paras (Chunks.assemble overlap_paras runs) ++ run].
Proof. unfold Chunks.assemble. by rewrite foldl_snoc. Qed.

Lemma group_step_runs (gt : Chunks.grouping) (ps : list text) (p : text) :
  Chunks.cut_into_runs overlap_paras gt ps ->
  Chunks.cut_into_runs overlap_paras (gstep' gt p) (ps ++ [p]).
Proof.
  intros [(Hg & Hc & ->)|(runs & cur & Hcur & Hruns & -> & Hg & Hc)]; right.
  - unfold Chunks.group_step. rewrite Hc. rewrite andb_false_r. cbn.
    exists [], [p]. rewrite Hg, Hc. by repeat split.
  - unfold Chunks.group_step. destruct (_ && _); cbn.
    + exists (runs ++ [cur]), [p]. split; [done|]. split.
      { apply Forall_app. split; [done|]. by apply Forall_singleton. }
      rewrite concat_app, assemble_snoc, Hg, Hc. cbn. rewrite app_nil_r.
      split; [done|]. split; [done|].
      unfold Chunks.seed_of at 2. by rewrite last_snoc.
    + exists runs, (cur ++ [p]). split; [by destruct cur|]. split; [done|].
      rewrite Hc, <- !app_assoc. by repeat split.
Qed.

Lemma foldl_group_step_runs (ps : list text) :
  Chunks.cut_into_runs overlap_paras (foldl gstep' (Chunks.Grouping [] [] 0) ps) ps.
Proof.
  induction ps as [|p ps IH] using rev_ind.
  - left. by repeat split.
  - rewrite foldl_snoc. by apply group_step_runs.
Qed.

End RunFacts.

(** X6. [chunk_by_paragraphs] cuts the paragraphs of the section into
    consecutive non-empty runs, in order, none lost and none added; each
    chunk is the overlap [curr[-overlap_paras:]] of the accumulator before it
    followed by its run, joined with blank lines and stripped. *)
Theorem chunk_by_paragraphs_runs (max_chars overlap_paras : Z) (section : text) :
  exists runs,
    concat runs = Chunks.paragraphs section /\
    Forall (fun run => run <> []) runs /\
    Chunks.chunk_by_paragraphs max_chars overlap_paras section
    = map Chunks.render (Chunks.assemble overlap_paras runs).
Proof.
  rewrite chunk_by_paragraphs_groups. unfold Chunks.paragraph_groups.
  destruct (foldl_group_step_runs max_chars overlap_paras (Chunks.paragraphs section))
    as [(Hg & Hc & Hps)|(runs & cur & Hcur & Hruns & Hps & Hg & Hc)].
  - exists []. rewrite Hc, Hg. by rewrite Hps.
  - exists (runs ++ [cur]). rewrite concat_app. cbn. rewrite app_nil_r.
    split; [done|]. split.
    { apply Forall_app. split; [done|]. by apply Forall_singleton. }
    rewrite assemble_snoc, <- Hc, <- Hg.
    destruct (Chunks.g_curr _) eqn:E; [|done].
    by destruct (Chunks.seed_of _ _), cur.
Qed.

(** X7. [chunk_by_paragraphs] always returns at least one chunk: a section
    that is empty once stripped gives the one empty chunk. *)
Theorem chunk_by_paragraphs_never_empty (max_chars overlap_paras : Z) (section : text) :
  Chunks.chunk_by_paragraphs max_chars overlap_paras section <> [] /\
  (strip section = [] ->
   Chunks.chunk_by_paragraphs max_chars overlap_paras section = [[]]).
Proof.
  split.
  - rewrite chunk_by_paragraphs_groups. unfold Chunks.paragraph_groups.
    destruct (foldl_group_step_runs max_chars overlap_paras (Chunks.paragraphs section))
      as [(_ & _ & Hps)|(runs & cur & Hcur & _ & _ & _ & Hc)].
    + by apply pieces_nonempty in Hps.
    + rewrite Hc. destruct (Chunks.seed_of _ _), cur; cbn; try done;
        by destruct (Chunks.groups _).
  - intros E. unfold Chunks.chunk_by_paragraphs. rewrite E.
    change (split Chunks.para_sep []) with [[] : text].
    unfold Chunks.pack_loop. cbn [foldl]. unfold Chunks.pack_step.
    cbn [Chunks.curr Chunks.is_nonempty]. by rewrite andb_false_r.
Qed.

Lemma chunk_by_paragraphs_never_empty_witness :
  Chunks.chunk_by_paragraphs 2000 1 (lit "
   ") = [[]].
Proof. apply (chunk_by_paragraphs_never_empty 2000 1). reflexivity. Defined.

(** X8. When the paragraphs of a section fit together, that is when the sum
    of their lengths plus two each is at most [max_chars],
    [chunk_by_paragraphs] returns one chunk, all the paragraphs joined with
    blank lines, whatever the overlap. *)
Theorem chunk_by_paragraphs_fits (max_chars overlap_paras : Z) (section : text) :
  Chunks.curr_length (Chunks.paragraphs section) <= max_chars ->
  Chunks.chunk_by_paragraphs max_chars overlap_paras section
  = [strip (join Chunks.blank_line (Chunks.paragraphs section))].
Proof.
  intros Hfit. rewrite chunk_by_paragraphs_groups. unfold Chunks.paragraph_groups.
  assert (H : forall ps gt,
             Chunks.g_len gt = Chunks.curr_length (Chunks.g_curr gt) ->
             Chunks.g_len gt + Chunks.curr_length ps <= max_chars ->
             foldl (Chunks.group_step max_chars overlap_paras) gt ps
             = Chunks.Grouping (Chunks.groups gt) (Chunks.g_curr gt ++ ps)
                 (Chunks.g_len gt + Chunks.curr_length ps)).
  { induction ps as [|p ps IH]; intros [gs cur n] Hn Hle;
      cbn [Chunks.groups Chunks.g_curr Chunks.g_len foldl] in *.
    - change (Chunks.curr_length []) with 0. by rewrite app_nil_r, Z.add_0_r.
    - change (Chunks.curr_length (p :: ps)) with (len p + 2 + Chunks.curr_length ps) in *.
      pose proof (curr_length_nonneg ps) as Hp.
      unfold Chunks.group_step at 2. cbn [Chunks.groups Chunks.g_curr Chunks.g_len].
      destruct (Z.gtb_spec (n + (len p + 2)) max_chars) as [Hgt|_]; [lia|].
      cbn [andb Chunks.groups Chunks.g_curr Chunks.g_len].
      rewrite IH; cbn [Chunks.groups Chunks.g_curr Chunks.g_len].
      + rewrite <- app_assoc. f_equal. lia.
      + rewrite curr_length_app, Hn.
        change (Chunks.curr_length [p]) with (len p + 2 + 0). lia.
      + lia. }
  rewrite H; [|done|cbn; lia]. cbn.
  pose proof (pieces_nonempty (strip section) 0 (finditer Chunks.para_sep (strip section))) as Hne.
  unfold Chunks.paragraphs, split. by destruct (pieces _ _ _).
Qed.

Lemma chunk_by_paragraphs_fits_witness :
  Chunks.chunk_by_paragraphs 2000 1 (lit "one

  two


three") = [lit "one

  two

three"].
Proof. apply (chunk_by_paragraphs_fits 2000 1). vm_compute. discriminate. Defined.

(** ** [str.strip]: what a stripped text looks like *)

Lemma lstrip_keeps (c : ascii) (s : text) : is_space c = false -> lstrip (c :: s) = c :: s.
Proof. intros H. cbn. by rewrite H. Qed.

Lemma lstrip_head (s : text) :
  lstrip s = [] \/ exists c r, lstrip s = c :: r /\ is_space c = false.
Proof.
  induction s as [|c s IH]; [by left|]. cbn. destruct (is_space c) eqn:E; [done|].
  right. by exists c, s.
Qed.

Lemma lstrip_snoc (l : text) (c : ascii) :
  is_space c = false -> exists l', lstrip (l ++ [c]) = l' ++ [c].
Proof.
  intros Hc. induction l as [|a l IH]; cbn.
  - rewrite Hc. by exists [].
  - destruct (is_space a); [done|]. by exists (a :: l).
Qed.

Lemma rstrip_head (c : ascii) (r : text) :
  is_space c = false -> exists r', rstrip (c :: r) = c :: r'.
Proof.
  intros Hc. unfold rstrip. rewrite reverse_cons.
  destruct (lstrip_snoc (reverse r) c Hc) as [l' ->].
  exists (reverse l'). by rewrite reverse_snoc.
Qed.

Lemma lstrip_idemp (s : text) : lstrip (lstrip s) = lstrip s.
Proof.
  destruct (lstrip_head s) as [->|(c & r & -> & Hc)]; [done|]. by apply lstrip_keeps.
Qed.

Lemma rstrip_idemp (s : text) : rstrip (rstrip s) = rstrip s.
Proof. unfold rstrip. by rewrite reverse_involutive, lstrip_idemp. Qed.

(** A stripped text is empty or starts with a character that is no white
    space, and stripping it again changes nothing. *)
Lemma strip_head (s : text) :
  strip s = [] \/ exists c r, strip s = c :: r /\ is_space c = false.
Proof.
  unfold strip. destruct (lstrip_head s) as [->|(c & r & -> & Hc)]; [by left|].
  right. destruct (rstrip_head c r Hc) as [r' ->]. by exists c, r'.
Qed.

Lemma strip_idemp (s : text) : strip (strip s) = strip s.
Proof.
  destruct (strip_head s) as [E|(c & r & E & Hc)].
  - rewrite E. reflexivity.
  - unfold strip at 1. rewrite E, (lstrip_keeps c r Hc), <- E.
    unfold strip. apply rstrip_idemp.
Qed.

Lemma strip_keeps_head (c : ascii) (r : text) :
  is_space c = false -> exists r', strip (c :: r) = c :: r'.
Proof. intros Hc. unfold strip. rewrite lstrip_keeps by done. by apply rstrip_head. Qed.

(** ** [chunk_by_header]: every section is header-led *)

(** Every match the scan returns is a match at the place it starts. *)
Lemma scan_found (r : re) (rs : text) :
  forall skip p pv m,
    m ∈ scan r skip p pv rs ->
    (m_start m - p <= length rs)%nat /\
    exists pv', match_at r (m_start m) pv' (drop (m_start m - p) rs) = Some m.
Proof.
  induction rs as [|c rs IH]; intros skip p pv m; cbn [scan];
    intros [Hm|Hm]%elem_of_app.
  - destruct skip; [|by apply elem_of_nil in Hm].
    destruct (match_at r p pv []) eqn:E; [|by apply elem_of_nil in Hm].
    apply list_elem_of_singleton in Hm as ->.
    rewrite (match_at_start _ _ _ _ _ E), Nat.sub_diag. split; [cbn; lia|]. by exists pv.
  - by apply elem_of_nil in Hm.
  - destruct skip; [|by apply elem_of_nil in Hm].
    destruct (match_at r p pv (c :: rs)) eqn:E; [|by apply elem_of_nil in Hm].
    apply list_elem_of_singleton in Hm as ->.
    rewrite (match_at_start _ _ _ _ _ E), Nat.sub_diag. split; [lia|]. by exists pv.
  - pose proof (scan_starts _ _ _ _ _ _ Hm) as Hge.
    destruct (IH _ _ _ _ Hm) as (Hlen & pv' & Hmatch).
    replace (m_start m - p)%nat with (S (m_start m - S p)) by lia.
    split; [cbn; lia|]. by exists pv'.
Qed.

(** The matches come in the order of their starts. *)
Lemma scan_sorted (r : re) (rs : text) :
  forall skip p pv,
    consecutive (fun m m' => (m_start m < m_start m')%nat) (scan r skip p pv rs).
Proof.
  induction rs as [|c rs IH]; intros skip p pv; cbn [scan].
  - rewrite app_nil_r. destruct skip; [|constructor].
    destruct (match_at r p pv []); constructor.
  - set (here := match skip with O => match_at r p pv (c :: rs) | S _ => None end).
    destruct here as [m|] eqn:E; cbn [app]; [|apply IH].
    assert (Hp : m_start m = p).
    { subst here. destruct skip; [|done]. by eapply match_at_start. }
    specialize (IH (m_end m - p - 1)%nat (S p) (Some c)).
    pose proof (scan_starts r rs (m_end m - p - 1)%nat (S p) (Some c)) as Hge.
    destruct (scan r _ (S p) (Some c) rs) as [|m' ms]; constructor; [|done].
    specialize (Hge m' ltac:(by left)). lia.
Qed.

Lemma has_marker_hash (rs : text) :
  Chunks.has_marker rs = true -> exists r, rs = "#"%char :: r.
Proof.
  unfold Chunks.has_marker. destruct rs as [|c rs]; [done|].
  unfold lit. cbn [list_ascii_of_string starts_with].
  intros [H|H]%orb_prop; apply andb_prop in H as [Hc _];
    apply Ascii.eqb_eq in Hc as <-; by eexists.
Qed.

(** The bounds of a document: increasing, within the document, and at every
    bound but the last the document has a [#]. *)
Lemma bounds_shape (md : text) :
  exists ns : list nat,
    Chunks.bounds md = map Z.of_nat (ns ++ [length md]) /\
    consecutive lt (ns ++ [length md]) /\
    Forall (fun n => exists r, drop n md = "#"%char :: r) ns.
Proof.
  exists (map m_start (finditer Chunks.header_pat md)).
  assert (Hhash : Forall (fun n => exists r, drop n md = "#"%char :: r)
                    (map m_start (finditer Chunks.header_pat md))).
  { rewrite Forall_fmap. apply Forall_forall. intros m Hm.
    destruct (scan_found _ _ _ _ _ _ Hm) as (_ & pv' & Hmatch).
    rewrite Nat.sub_0_r in Hmatch.
    apply match_at_header_marker in Hmatch as [_ Hmark]. by apply has_marker_hash. }
  split; [|split; [|done]].
  - unfold Chunks.bounds, len. by rewrite map_app, map_map.
  - pose proof (scan_sorted Chunks.header_pat md 0 0 None) as Hsorted.
    fold (finditer Chunks.header_pat md) in Hsorted.
    induction Hsorted as [|m|m m' ms Hlt _ IH]; cbn [map app] in *.
    + constructor.
    + constructor; [|constructor]. apply Forall_cons in Hhash as [[r Hr] _].
      apply (f_equal length) in Hr. rewrite length_drop in Hr. cbn in Hr. lia.
    + apply Forall_cons in Hhash as [_ Hhash]. constructor; [done | by apply IH].
Qed.

Lemma sections_between_header_led (md : text) (ns : list nat) :
  consecutive lt ns ->
  Forall (fun n => (n <= length md)%nat) ns ->
  forall first rest,
    ns = first ++ [rest] ->
    Forall (fun n => exists r, drop n md = "#"%char :: r) first ->
    Forall (fun sec => strip sec = sec /\ exists r, sec = "#"%char :: r)
      (Chunks.sections_between md (map Z.of_nat ns)).
Proof.
  intros Hsorted. induction Hsorted as [|n|n n' ns Hlt Hsorted IH];
    intros Hle first rest Hns Hhash; cbn [map Chunks.sections_between]; [constructor..|].
  destruct first as [|f first]; [by destruct ns|].
  cbn in Hns. injection Hns as <- Hns.
  apply Forall_cons in Hhash as [[r Hr] Hhash].
  apply Forall_cons in Hle as [Hn Hle]. pose proof Hle as [Hn' _]%Forall_cons.
  specialize (IH Hle first rest Hns Hhash).
  assert (Hslice : exists r', slice md (Z.of_nat n) (Z.of_nat n') = "#"%char :: r').
  { rewrite slice_nat. rewrite !Nat.min_l by lia. rewrite Hr.
    destruct (n' - n)%nat as [|k] eqn:Ek; [lia|]. by eexists. }
  destruct Hslice as [r' ->].
  destruct (strip_keeps_head "#"%char r' eq_refl) as [r'' Hstrip].
  destruct (strip ("#"%char :: r')) as [|c sec] eqn:E; [done|].
  constructor; [|done]. split; [by rewrite <- E, strip_idemp|].
  injection Hstrip as -> _. by eexists.
Qed.

(** X9. Every section that [chunk_by_header] (and [chunk_markdown]) returns
    is header-led: it starts with [#], and it is stripped, so it has no
    white space at either end and is not empty. *)
Theorem chunk_by_header_header_led (md : text) :
  Forall (fun sec => strip sec = sec /\ exists r, sec = "#"%char :: r)
    (Chunks.chunk_by_header md) /\
  Chunks.chunk_markdown md = Chunks.chunk_by_header md.
Proof.
  split; [|done]. unfold Chunks.chunk_by_header.
  destruct (bounds_shape md) as (ns & -> & Hsorted & Hhash).
  apply (sections_between_header_led md _ Hsorted) with (first := ns) (rest := length md);
    [|done|done].
  apply Forall_app. split; [|by apply Forall_singleton].
  apply Forall_forall. intros n Hn. rewrite Forall_forall in Hhash.
  destruct (Hhash n Hn) as [r Hr]. apply (f_equal length) in Hr.
  rewrite length_drop in Hr. cbn in Hr. lia.
Qed.

(** X10. Every chunk that [chunk_by_paragraphs] returns is stripped: it has
    no white space at either end. *)
Theorem chunk_by_paragraphs_stripped (max_chars overlap_paras : Z) (section : text) :
  Forall (fun c => strip c = c)
    (Chunks.chunk_by_paragraphs max_chars overlap_paras section).
Proof.
  rewrite chunk_by_paragraphs_groups, Forall_fmap. apply Forall_forall.
  intros g _. cbn. unfold Chunks.render. apply strip_idemp.
Qed.

(** ** [fetch_sitemap_urls]: a failure ends the resolution *)

Section AbortFacts.
Variable fromstring : bytes -> Sitemap.parsed.
Variable decode : bytes -> text.
Variable web : text -> option response.

Local Abbreviation fetch' := (Sitemap.fetch_sitemap_urls fromstring decode web).
Local Abbreviation answered' := (@Sitemap.answered fromstring web (list text)).

Lemma answered_app_ok (new1 new2 : list text) (r : result (list text)) :
  Forall (fun u => Sitemap.request web u = Ok tt) new1 ->
  answered' new2 r -> answered' (new1 ++ new2) r.
Proof.
  intros H1. destruct r as [urls|e]; cbn.
  - intros H2. by apply Forall_app.
  - intros (pre & u & -> & Hpre & Hu). exists (new1 ++ pre), u.
    split; [by rewrite app_assoc|]. split; [by apply Forall_app | done].
Qed.

Lemma extend_each_answered (f : text -> Sitemap.M (list text)) (cs : list text) :
  (forall c s r s', f c s = Some (r, s') ->
     exists new, Sitemap.fetched s' = Sitemap.fetched s ++ new /\ answered' new r) ->
  forall urls s r s',
    Sitemap.extend_each f cs urls s = Some (r, s') ->
    exists new, Sitemap.fetched s' = Sitemap.fetched s ++ new /\ answered' new r.
Proof.
  intros Hf. induction cs as [|c cs IH]; intros urls s r s'; cbn.
  - intros [= <- <-]. exists []. split; [by rewrite app_nil_r | constructor].
  - unfold Sitemap.bind. destruct (f c s) as [[[more|e] s0]|] eqn:E; [| |done].
    + destruct (Hf _ _ _ _ E) as (n1 & Hlog1 & Hok1). cbn in Hok1.
      intros H. destruct (IH _ _ _ _ H) as (n2 & Hlog2 & Hok2).
      exists (n1 ++ n2). split; [by rewrite Hlog2, Hlog1, app_assoc|].
      by apply answered_app_ok.
    + intros [= <- <-]. by apply (Hf _ _ _ _ E).
Qed.

Lemma fetch_answered (fuel : nat) (url : text) s r s' :
  fetch' fuel url s = Some (r, s') ->
  exists new, Sitemap.fetched s' = Sitemap.fetched s ++ new /\ answered' new r.
Proof.
  revert url s r s'. induction fuel as [|fuel IH]; intros url s r s'; cbn; [done|].
  destruct (decide (url ∈ Sitemap.visited s)).
  { intros [= <- <-]. exists []. split; [by rewrite app_nil_r | constructor]. }
  unfold Sitemap.bind, Sitemap.mark_visited, Sitemap.session_get, Sitemap.lift.
  cbn [Sitemap.fetched Sitemap.visited].
  destruct (web url) as [resp|] eqn:Hweb.
  2:{ intros [= <- <-]. exists [url]. split; [done|]. exists [], url.
      split; [done|]. split; [constructor|]. left. unfold Sitemap.request. by rewrite Hweb. }
  destruct (raise_for_status resp) as [[]|e] eqn:Hst.
  2:{ intros [= <- <-]. exists [url]. split; [done|]. exists [], url.
      split; [done|]. split; [constructor|]. left. unfold Sitemap.request. by rewrite Hweb. }
  assert (Hreq : Sitemap.request web url = Ok tt).
  { unfold Sitemap.request. by rewrite Hweb. }
  unfold Sitemap.expand, Sitemap.lift.
  destruct (fromstring (content resp)) as [root| |e] eqn:Hparse.
  2:{ intros [= <- <-]. exists [url]. split; [done|]. by apply Forall_singleton. }
  2:{ intros [= <- <-]. exists [url]. split; [done|]. exists [], url.
      split; [done|]. split; [constructor|]. right. split; [done|]. by exists resp. }
  destruct (bool_decide (Sitemap.local_tag root = lit "sitemapindex")).
  - intros H. apply (extend_each_answered _ _ IH) in H as (new & Hlog & Hok).
    cbn in Hlog. exists ([url] ++ new). split; [by rewrite Hlog, app_assoc|].
    apply answered_app_ok; [by apply Forall_singleton | done].
  - destruct (bool_decide (Sitemap.local_tag root = lit "urlset"));
      intros [= <- <-]; exists [url]; (split; [done|]); by apply Forall_singleton.
Qed.

End AbortFacts.

(** X11. A resolution is all or nothing.  If it returns its list, every
    request of the run was answered and passed the status check; if it
    raises, the failure lies with the last document of the run: every
    request before it had succeeded, and the exception is the one of the last
    request or, that request answered, the one the parser raised on its
    document (an exception other than [ParseError]).  Nothing is fetched
    after a failure and no partial list is returned. *)
Theorem resolve_all_or_nothing
    (fromstring : bytes -> Sitemap.parsed) (decode : bytes -> text)
    (web : text -> option response) (fuel : nat) (url : text)
    (r : result (list text)) (s' : Sitemap.run_state) :
  Sitemap.resolve fromstring decode web fuel url = Some (r, s') ->
  match r with
  | Ok _ => Forall (fun u => Sitemap.request web u = Ok tt) (Sitemap.fetched s')
  | Raise e =>
      exists pre u,
        Sitemap.fetched s' = pre ++ [u] /\
        Forall (fun u => Sitemap.request web u = Ok tt) pre /\
        (Sitemap.request web u = Raise e \/
         (Sitemap.request web u = Ok tt /\ Sitemap.parser_raises fromstring web u e))
  end.
Proof.
  unfold Sitemap.resolve. intros H.
  apply fetch_answered in H as (new & Hlog & Hok). cbn in Hlog. rewrite Hlog.
  by destruct r.
Qed.

Lemma resolve_all_or_nothing_witness :
  exists s',
    Sitemap.resolve Examples.parse_top Examples.ascii_text Examples.site_with_gap 5
      (lit "https://h/top.xml") = Some (Raise (HTTPError 404), s') /\
    exists pre u,
      Sitemap.fetched s' = pre ++ [u] /\
      Forall (fun u => Sitemap.request Examples.site_with_gap u = Ok tt) pre /\
      (Sitemap.request Examples.site_with_gap u = Raise (HTTPError 404) \/
       (Sitemap.request Examples.site_with_gap u = Ok tt /\
        Sitemap.parser_raises Examples.parse_top Examples.site_with_gap u (HTTPError 404))).
Proof.
  destruct (Sitemap.resolve Examples.parse_top Examples.ascii_text Examples.site_with_gap 5
              (lit "https://h/top.xml")) as [[r s']|] eqn:E.
  - assert (Hr : r = Raise (HTTPError 404)).
    { apply (f_equal (fmap fst)) in E. vm_compute in E. by injection E as <-. }
    subst r. exists s'. split; [done|].
    exact (resolve_all_or_nothing Examples.parse_top Examples.ascii_text Examples.site_with_gap 5
             (lit "https://h/top.xml") _ s' E).
  - apply (f_equal (fmap fst)) in E. vm_compute in E. discriminate.
Defined.

(** A document that declares a multi-byte encoding: the request is
    answered, the parser raises, and the resolution raises with it. *)
Example resolve_parser_raises :
  fst <$> Sitemap.resolve Examples.parse_declared Examples.ascii_text Examples.site_odd 1
            (lit "https://h/gb.xml") = Some (Raise ValueError) /\
  Sitemap.request Examples.site_odd (lit "https://h/gb.xml") = Ok tt /\
  Sitemap.parser_raises Examples.parse_declared Examples.site_odd
    (lit "https://h/gb.xml") ValueError.
Proof.
  split; [vm_compute; reflexivity|]. split; [reflexivity|].
  by exists (Response 200 Examples.gb2312_doc).
Qed.

(** ** Namespaces *)

Lemma Element_induction (P : Sitemap.Element -> Prop) :
  (forall t x cs, Forall P cs -> P (Sitemap.Elem t x cs)) ->
  forall e, P e.
Proof.
  intros H. fix IH 1. intros [t x cs]. apply H.
  exact ((fix go (l : list Sitemap.Element) : Forall P l :=
            match l with
            | [] => @List.Forall_nil _ P
            | c :: l' => @List.Forall_cons _ P c l' (IH c) (go l')
            end) cs).
Qed.

(** Two texts that end in [c] and a part without [c] end in the same part. *)
Lemma last_part_unique (c : ascii) (a b t n : text) :
  a ++ c :: t = b ++ c :: n -> c ∉ t -> c ∉ n -> a = b /\ t = n.
Proof.
  revert b. induction a as [|x a IH]; intros [|y b] E Ht Hn; cbn in E.
  - by injection E as <-.
  - injection E as <- ->. exfalso. apply Ht, elem_of_app. right. by left.
  - injection E as -> <-. exfalso. apply Hn, elem_of_app. right. by left.
  - injection E as <- E. destruct (IH _ E Ht Hn) as [<- <-]. done.
Qed.

Lemma plain_name_no_brace (t : text) : Sitemap.plain_name t = true -> "}"%char ∉ t.
Proof.
  unfold Sitemap.plain_name. rewrite forallb_forall. intros H Hin.
  apply list_elem_of_In, H, negb_true_iff in Hin. by rewrite Ascii.eqb_refl in Hin.
Qed.

Lemma ends_with_spec (suf t : text) :
  Sitemap.ends_with suf t = true <-> exists pre, t = pre ++ suf.
Proof.
  unfold Sitemap.ends_with. rewrite bool_decide_eq_true. split.
  - intros E. exists (take (length t - length suf) t).
    rewrite <- E at 2. by rewrite take_drop.
  - intros [pre ->]. rewrite length_app.
    replace (length pre + length suf - length suf)%nat with (length pre) by lia.
    by rewrite drop_app_length.
Qed.

Lemma split_char_plain (t : text) :
  Sitemap.plain_name t = true -> split_char "}"%char t = [t].
Proof.
  induction t as [|c t IH]; [done|]. cbn. intros [Hc Ht]%andb_prop.
  apply negb_true_iff in Hc. by rewrite Hc, IH.
Qed.

(** Splitting at [}] a text that ends in [}] and a local name: the name is
    the last piece, and not the only one. *)
Lemma split_char_last (a t : text) :
  Sitemap.plain_name t = true ->
  exists l, l <> [] /\ split_char "}"%char (a ++ "}"%char :: t) = l ++ [t].
Proof.
  intros Ht. induction a as [|x a (l & Hl & IH)]; cbn [app split_char].
  - rewrite Ascii.eqb_refl, split_char_plain by done. by exists [[]].
  - rewrite IH. destruct (Ascii.eqb x "}"%char).
    + by exists ([] :: l).
    + destruct l as [|p l]; [done|]. by exists ((x :: p) :: l).
Qed.

Section Qualify.
Variable ns : text.

Local Abbreviation q := (Sitemap.qualify ns).

(** The tag test [{*}name] on a local tag and on the tag in a namespace. *)
Lemma tag_is_plain (name : text) (e : Sitemap.Element) :
  Sitemap.plain_name (Sitemap.tag e) = true ->
  Sitemap.plain_name name = true ->
  Sitemap.tag_is name e = bool_decide (Sitemap.tag e = name) /\
  Sitemap.tag_is name (q e) = bool_decide (Sitemap.tag e = name).
Proof.
  intros Ht%plain_name_no_brace Hn%plain_name_no_brace.
  destruct e as [t x cs]. cbn [Sitemap.tag Sitemap.qualify] in *.
  unfold Sitemap.tag_is. cbn [Sitemap.tag]. split.
  - destruct (Sitemap.ends_with _ t) eqn:E; [|by rewrite orb_false_r].
    apply ends_with_spec in E as [pre ->]. exfalso. apply Ht.
    apply elem_of_app. right. by left.
  - rewrite (bool_decide_eq_false_2 (_ = name)).
    2:{ intros E. apply Hn. rewrite <- E. set_solver. }
    cbn [orb]. destruct (bool_decide (t = name)) eqn:Et.
    + apply bool_decide_eq_true in Et as ->. apply ends_with_spec.
      exists (lit "{" ++ ns). by rewrite <- !app_assoc.
    + apply bool_decide_eq_false in Et.
      destruct (Sitemap.ends_with _ _) eqn:E; [|done].
      apply ends_with_spec in E as [pre E]. exfalso. apply Et.
      change (lit "{" ++ ns ++ lit "}" ++ t) with ((lit "{" ++ ns) ++ "}"%char :: t) in E.
      by destruct (last_part_unique _ _ _ _ _ E Ht Hn).
Qed.

Lemma iter_qualify (e : Sitemap.Element) :
  Sitemap.iter (q e) = map q (Sitemap.iter e).
Proof.
  induction e as [t x cs IH] using Element_induction.
  cbn [Sitemap.qualify Sitemap.iter map]. f_equal.
  induction IH as [|c cs Hc _ IHcs]; [done|].
  cbn [map flat_map]. by rewrite map_app, Hc, IHcs.
Qed.

Lemma descendants_qualify (e : Sitemap.Element) :
  Sitemap.descendants (q e) = map q (Sitemap.descendants e).
Proof.
  destruct e as [t x cs]. unfold Sitemap.descendants. cbn [Sitemap.qualify Sitemap.children].
  induction cs as [|c cs IH]; [done|].
  cbn [map flat_map]. by rewrite map_app, iter_qualify, IH.
Qed.

Lemma plain_iter (e : Sitemap.Element) :
  Sitemap.plain e = true -> Forall (fun x => Sitemap.plain x = true) (Sitemap.iter e).
Proof.
  induction e as [t x cs IH] using Element_induction. intros Hp.
  cbn [Sitemap.iter]. constructor; [done|].
  cbn [Sitemap.plain] in Hp. apply andb_prop in Hp as [_ Hcs].
  induction IH as [|c cs Hc _ IHcs]; [constructor|].
  cbn [forallb] in Hcs. apply andb_prop in Hcs as [Hpc Hcs].
  cbn [flat_map]. apply Forall_app. split; [by apply Hc | by apply IHcs].
Qed.

Lemma plain_descendants (e : Sitemap.Element) :
  Sitemap.plain e = true -> Forall (fun x => Sitemap.plain x = true) (Sitemap.descendants e).
Proof.
  intros H%plain_iter. destruct e as [t x cs]. cbn [Sitemap.iter] in H.
  by apply Forall_cons in H as [_ H].
Qed.

Lemma plain_tag (e : Sitemap.Element) :
  Sitemap.plain e = true -> Sitemap.plain_name (Sitemap.tag e) = true.
Proof. destruct e. cbn. by intros [? _]%andb_prop. Qed.

Lemma plain_children (e : Sitemap.Element) :
  Sitemap.plain e = true -> Forall (fun x => Sitemap.plain x = true) (Sitemap.children e).
Proof.
  destruct e as [t x cs]. cbn. intros [_ H]%andb_prop.
  apply Forall_forall. intros c Hc. rewrite forallb_forall in H.
  by apply H, list_elem_of_In.
Qed.

(** Selecting by [{*}name] among local elements, before or after they are
    put in the namespace. *)
Lemma filter_tag_is_qualify (name : text) (l : list Sitemap.Element) :
  Sitemap.plain_name name = true ->
  Forall (fun x => Sitemap.plain x = true) l ->
  filter (fun x => Sitemap.tag_is name x = true) (map q l)
  = map q (filter (fun x => Sitemap.tag_is name x = true) l).
Proof.
  intros Hn. induction 1 as [|x l Hx _ IH]; [done|].
  cbn [map]. rewrite !filter_cons, IH.
  destruct (tag_is_plain name x (plain_tag _ Hx) Hn) as [-> ->].
  by repeat case_decide.
Qed.

Lemma loc_text_qualify (o : option Sitemap.Element) :
  Sitemap.loc_text (q <$> o) = Sitemap.loc_text o.
Proof. by destruct o as [[t x cs]|]. Qed.

Lemma find_child_qualify (name : text) (e : Sitemap.Element) :
  Sitemap.plain_name name = true ->
  Sitemap.plain e = true ->
  Sitemap.find_child name (q e) = q <$> Sitemap.find_child name e.
Proof.
  intros Hn He. unfold Sitemap.find_child.
  replace (Sitemap.children (q e)) with (map q (Sitemap.children e)) by (by destruct e).
  rewrite filter_tag_is_qualify by (done || by apply plain_children).
  by destruct (filter _ (Sitemap.children e)).
Qed.

Lemma findall_below_qualify (name : text) (e : Sitemap.Element) :
  Sitemap.plain_name name = true ->
  Sitemap.plain e = true ->
  Sitemap.findall_below name (q e) = map q (Sitemap.findall_below name e).
Proof.
  intros Hn He. unfold Sitemap.findall_below.
  rewrite descendants_qualify. by apply filter_tag_is_qualify, plain_descendants.
Qed.

Lemma findall_below_plain (name : text) (e : Sitemap.Element) :
  Sitemap.plain e = true ->
  Forall (fun x => Sitemap.plain x = true) (Sitemap.findall_below name e).
Proof.
  intros He. unfold Sitemap.findall_below. apply Forall_forall.
  intros x [_ Hx]%list_elem_of_filter.
  pose proof (plain_descendants e He) as Hall. rewrite Forall_forall in Hall. by apply Hall.
Qed.

Lemma child_locs_qualify (name : text) (root : Sitemap.Element) :
  Sitemap.plain_name name = true ->
  Sitemap.plain root = true ->
  omap (fun x => Sitemap.loc_text (Sitemap.find_child (lit "loc") x))
       (Sitemap.findall_below name (q root))
  = omap (fun x => Sitemap.loc_text (Sitemap.find_child (lit "loc") x))
         (Sitemap.findall_below name root).
Proof.
  intros Hn Hr. rewrite findall_below_qualify by done.
  pose proof (findall_below_plain name root Hr) as Hall.
  induction Hall as [|x l Hx _ IH]; [done|].
  cbn [map omap list_omap]. change (list_omap ?f ?l) with (omap f l).
  rewrite IH, find_child_qualify, loc_text_qualify by done. done.
Qed.

Lemma all_locs_qualify (root : Sitemap.Element) :
  Sitemap.plain root = true ->
  Sitemap.all_locs (q root) = Sitemap.all_locs root.
Proof.
  intros Hr. unfold Sitemap.all_locs. rewrite findall_below_qualify by done.
  induction (Sitemap.findall_below (lit "loc") root) as [|x l IH]; [done|].
  cbn [map omap list_omap]. change (list_omap ?f ?l) with (omap f l).
  rewrite IH. by destruct x.
Qed.

Lemma local_tag_qualify (root : Sitemap.Element) :
  Sitemap.plain root = true ->
  Sitemap.local_tag (q root) = Sitemap.local_tag root.
Proof.
  intros Hr%plain_tag. destruct root as [t x cs]. unfold Sitemap.local_tag.
  cbn [Sitemap.tag Sitemap.qualify] in *. f_equal.
  rewrite (split_char_plain t Hr).
  change (lit "{" ++ ns ++ lit "}" ++ t) with ((lit "{" ++ ns) ++ "}"%char :: t).
  destruct (split_char_last (lit "{" ++ ns) t Hr) as (l & _ & ->).
  by rewrite last_snoc.
Qed.

End Qualify.

(** X12. The recursive resolver is namespace-agnostic: a document without
    namespaces and the same document with every tag in a namespace [ns],
    whatever [ns] is, are dispatched to the same branch and give the same
    URLs. *)
Theorem expand_namespace_agnostic
    (fromstring : bytes -> Sitemap.parsed) (decode : bytes -> text)
    (recur : text -> Sitemap.M (list text)) (data data' : bytes)
    (ns : text) (root : Sitemap.Element) :
  Sitemap.plain root = true ->
  fromstring data = Sitemap.Tree root ->
  fromstring data' = Sitemap.Tree (Sitemap.qualify ns root) ->
  Sitemap.local_tag (Sitemap.qualify ns root) = Sitemap.local_tag root /\
  Sitemap.expand fromstring decode recur data' = Sitemap.expand fromstring decode recur data.
Proof.
  intros Hp Hd Hd'. split; [by apply local_tag_qualify|].
  unfold Sitemap.expand. rewrite Hd, Hd', local_tag_qualify by done.
  unfold Sitemap.index_children, Sitemap.urlset_locs.
  by rewrite !child_locs_qualify, all_locs_qualify.
Qed.

Lemma expand_namespace_agnostic_witness :
  Sitemap.expand Examples.parse_ns Examples.ascii_text (fun _ => Sitemap.ret [])
    Examples.pages_ns_doc
  = Sitemap.expand Examples.parse_ns Examples.ascii_text (fun _ => Sitemap.ret [])
      Examples.pages_doc.
Proof.
  apply (expand_namespace_agnostic Examples.parse_ns Examples.ascii_text
           (fun _ => Sitemap.ret []) Examples.pages_doc Examples.pages_ns_doc
           Sitemap.sitemap_ns Examples.pages_tree); reflexivity.
Defined.

(** ** The variant without recursion *)

Lemma filter_none {A} (P : A -> Prop) `{forall x, Decision (P x)} (l : list A) :
  Forall (fun x => ~ P x) l -> filter P l = [].
Proof.
  induction 1 as [|x l Hx _ IH]; [done|]. rewrite filter_cons, IH. by case_decide.
Qed.

Lemma filter_same {A} (P Q : A -> Prop) `{forall x, Decision (P x)} `{forall x, Decision (Q x)}
    (l : list A) :
  Forall (fun x => P x <-> Q x) l -> filter P l = filter Q l.
Proof.
  induction 1 as [|x l Hx _ IH]; [done|]. rewrite !filter_cons, IH.
  repeat case_decide; tauto.
Qed.

Lemma tag_qualify (ns : text) (e : Sitemap.Element) :
  Sitemap.tag (Sitemap.qualify ns e) = (lit "{" ++ ns) ++ "}"%char :: Sitemap.tag e.
Proof. destruct e. cbn [Sitemap.tag Sitemap.qualify]. by rewrite <- app_assoc. Qed.

Section FlatFacts.
Variable root : Sitemap.Element.
Hypothesis root_plain : Sitemap.plain root = true.

Lemma plain_loc : Sitemap.plain_name (lit "loc") = true.
Proof. reflexivity. Qed.

Lemma findall_exact_plain_loc :
  Sitemap.findall_exact (lit "loc") root = Sitemap.findall_below (lit "loc") root.
Proof.
  unfold Sitemap.findall_exact, Sitemap.findall_below. apply filter_same.
  eapply Forall_impl; [apply plain_descendants, root_plain|]. intros x Hx. cbn beta.
  destruct (tag_is_plain [] (lit "loc") x (plain_tag _ Hx) plain_loc) as [-> _].
  by rewrite bool_decide_eq_true.
Qed.

Lemma findall_exact_plain_qualified (ns : text) :
  Sitemap.findall_exact ((lit "{" ++ ns) ++ "}"%char :: lit "loc") root = [].
Proof.
  unfold Sitemap.findall_exact. apply filter_none.
  eapply Forall_impl; [apply plain_descendants, root_plain|]. intros x Hx E.
  apply plain_tag, plain_name_no_brace in Hx. apply Hx. rewrite E. set_solver.
Qed.

Lemma findall_exact_qualified_plain (ns : text) :
  Sitemap.findall_exact (lit "loc") (Sitemap.qualify ns root) = [].
Proof.
  unfold Sitemap.findall_exact. rewrite descendants_qualify. apply filter_none.
  apply Forall_fmap, Forall_forall. intros x _. unfold compose. rewrite tag_qualify.
  intros E. apply (plain_name_no_brace _ plain_loc). rewrite <- E. set_solver.
Qed.

Lemma findall_exact_qualified (ns ns' : text) :
  Sitemap.findall_exact ((lit "{" ++ ns') ++ "}"%char :: lit "loc") (Sitemap.qualify ns root)
  = if decide (ns = ns')
    then map (Sitemap.qualify ns) (Sitemap.findall_below (lit "loc") root)
    else [].
Proof.
  unfold Sitemap.findall_exact. rewrite descendants_qualify.
  pose proof (plain_descendants root root_plain) as Hall.
  destruct (decide (ns = ns')) as [<-|Hne].
  - unfold Sitemap.findall_below.
    induction Hall as [|x l Hx _ IH]; [done|].
    cbn [map]. rewrite !filter_cons, IH, tag_qualify.
    destruct (tag_is_plain ns (lit "loc") x (plain_tag _ Hx) plain_loc) as [-> _].
    repeat case_decide; try done.
    + exfalso. match goal with H : ¬ (_ = true) |- _ => apply H end.
      apply bool_decide_eq_true. by simplify_list_eq.
    + exfalso. match goal with H : bool_decide _ = true |- _ =>
        apply bool_decide_eq_true in H; rewrite H in * end. done.
  - apply filter_none, Forall_fmap, Forall_forall. intros x Hx. unfold compose.
    rewrite tag_qualify. intros E. rewrite Forall_forall in Hall. specialize (Hall x Hx).
    apply last_part_unique in E as [E _];
      [|by apply plain_name_no_brace, plain_tag | by apply plain_name_no_brace].
    apply Hne. by simplify_list_eq.
Qed.

End FlatFacts.

(** X13. The variant without recursion knows one namespace.  For a document
    without namespaces, and for the same document in the sitemap namespace,
    it returns every [loc] of the document, as the last branch of the
    recursive variant does; for the same document in any other namespace it
    returns nothing, where the recursive variant still finds every [loc]. *)
Theorem flat_locs_namespaces (root : Sitemap.Element) (ns : text) :
  Sitemap.plain root = true ->
  Sitemap.flat_locs root = Sitemap.all_locs root /\
  Sitemap.flat_locs (Sitemap.qualify Sitemap.sitemap_ns root) = Sitemap.all_locs root /\
  (ns <> Sitemap.sitemap_ns ->
   Sitemap.flat_locs (Sitemap.qualify ns root) = [] /\
   Sitemap.all_locs (Sitemap.qualify ns root) = Sitemap.all_locs root).
Proof.
  intros Hp. unfold Sitemap.flat_locs.
  change (lit "{" ++ Sitemap.sitemap_ns ++ lit "}" ++ lit "loc")
    with ((lit "{" ++ Sitemap.sitemap_ns) ++ "}"%char :: lit "loc").
  split; [|split].
  - by rewrite findall_exact_plain_qualified, findall_exact_plain_loc.
  - rewrite findall_exact_qualified, decide_True by done.
    rewrite findall_exact_qualified_plain by done. unfold Sitemap.all_locs.
    assert (Hsame : forall l',
               omap (fun loc => Sitemap.loc_text (Some loc))
                    (map (Sitemap.qualify Sitemap.sitemap_ns) l')
               = omap (fun loc => Sitemap.loc_text (Some loc)) l').
    { induction l' as [|y l' IH]; [done|].
      cbn [map omap list_omap]. change (list_omap ?f ?l) with (omap f l).
      rewrite IH. by destruct y. }
    destruct (Sitemap.findall_below (lit "loc") root) as [|x l]; [reflexivity|].
    exact (Hsame (x :: l)).
  - intros Hne. split; [|by apply all_locs_qualify].
    rewrite findall_exact_qualified, decide_False by done.
    by rewrite findall_exact_qualified_plain.
Qed.

Lemma flat_locs_namespaces_witness :
  Sitemap.flat_locs (Sitemap.qualify (lit "urn:other") Examples.pages_tree) = [] /\
  Sitemap.all_locs (Sitemap.qualify (lit "urn:other") Examples.pages_tree)
  = Sitemap.all_locs Examples.pages_tree.
Proof.
  apply (flat_locs_namespaces Examples.pages_tree (lit "urn:other")); [reflexivity|].
  vm_compute. discriminate.
Defined.

(** X14. The variant without recursion does not go into a sitemap index: for
    an index in its standard shape it returns the URLs of the child sitemaps
    themselves, the very list that the recursive variant takes as the
    sitemaps to fetch. *)
Theorem flat_locs_of_index (locs : list text) :
  Sitemap.flat_locs (Examples.index_of locs)
  = Sitemap.index_children (Examples.index_of locs) /\
  Sitemap.local_tag (Examples.index_of locs) = lit "sitemapindex".
Proof.
  split; [|reflexivity].
  assert (Hplain : Sitemap.plain (Examples.index_of locs) = true).
  { unfold Examples.index_of. cbn [Sitemap.plain]. apply andb_true_intro. split; [done|].
    induction locs as [|u locs IH]; [done|]. cbn [map forallb]. by rewrite IH. }
  destruct (flat_locs_namespaces (Examples.index_of locs) [] Hplain) as [-> _].
  clear Hplain. unfold Sitemap.all_locs, Sitemap.index_children, Sitemap.findall_below,
    Sitemap.descendants, Examples.index_of. cbn [Sitemap.children].
  induction locs as [|u locs IH]; [done|].
  cbn [map flat_map]. by rewrite !filter_app, !omap_app, IH.
Qed.

(** ** The run over the pages: numbering, files, failures *)

Lemma numbered_app (first : Z) (n1 n2 : list Pipeline.written) :
  Pipeline.numbered first n1 ->
  Pipeline.numbered (first + len n1) n2 ->
  Pipeline.numbered first (n1 ++ n2).
Proof.
  intros H1 H2 i w Hi. apply lookup_app_Some in Hi as [Hi|[Hge Hi]]; [by apply H1|].
  destruct (H2 _ _ Hi) as [dir Hdir]. exists dir. rewrite Hdir. do 2 f_equal.
  unfold len. lia.
Qed.

Section RunFacts.
Variable run_model : text -> Pipeline.process.
Variable crawler : text -> result Fetcher.crawl_result.
Variable url_path : text -> text.

Local Abbreviation write_chunks := (Pipeline.write_chunks run_model url_path).
Local Abbreviation main_loop := (Pipeline.main_loop run_model crawler url_path).
Local Abbreviation body_of := (Pipeline.body_of run_model).

Local Abbreviation adds := (Pipeline.adds run_model).

Lemma write_chunks_adds (target : text) (subs : list text) :
  forall st st' e,
    write_chunks target subs st = (st', e) -> adds subs st st' e.
Proof.
  induction subs as [|sub subs IH]; intros st st' e; cbn [Pipeline.write_chunks].
  - intros [= <- <-]. exists []. rewrite app_nil_r. unfold len. cbn.
    repeat split; [lia | by intros i w ?].
  - unfold Pipeline.summarize_chunk.
    destruct (negb (Pipeline.returncode (run_model sub) =? 0)).
    + assert (Hstop : forall x, (st, Some x) = (st', e) -> adds (sub :: subs) st st' e).
      { intros x [= <- <-]. exists []. rewrite app_nil_r. unfold len. cbn.
        repeat split; [lia | by intros i w ? | done]. }
      destruct (Pipeline.occurs _ _); apply Hstop.
    + intros H. apply IH in H as (new & Hfiles & Hcount & Hnum & Hbody & Hall).
      cbn [Pipeline.files Pipeline.counter] in *.
      exists (Pipeline.Written
                (Pipeline.join_path (Pipeline.out_dir url_path target)
                   (Pipeline.chunk_name (Pipeline.counter st)))
                (lit "Summary:" ++ [newline] ++ strip (Pipeline.out (run_model sub))
                 ++ [newline; newline] ++ sub) :: new).
      split; [by rewrite Hfiles, <- app_assoc|].
      split; [rewrite Hcount; unfold len; cbn [length]; lia|].
      split.
      { apply (numbered_app _ [_] new).
        - intros [|i] w [= <-]. eexists. by rewrite Z.add_0_r.
        - exact Hnum. }
      split; [cbn; by rewrite Hbody|].
      intros He. cbn. by rewrite Hall.
Qed.

Lemma adds_trans subs1 subs2 st st1 st2 e :
  adds subs1 st st1 None -> adds subs2 st1 st2 e -> adds (subs1 ++ subs2) st st2 e.
Proof.
  intros (n1 & Hf1 & Hc1 & Hn1 & Hb1 & Hall1) (n2 & Hf2 & Hc2 & Hn2 & Hb2 & Hall2).
  specialize (Hall1 eq_refl).
  exists (n1 ++ n2). split; [by rewrite Hf2, Hf1, app_assoc|].
  split; [rewrite Hc2, Hc1; unfold len; rewrite length_app; lia|].
  split; [apply numbered_app; [done | by rewrite <- Hc1]|].
  split.
  - rewrite map_app, Hb1, Hb2, length_app, Hall1, take_app_add', firstn_all; [|done].
    by rewrite map_app.
  - intros He. rewrite !length_app, Hall1, Hall2; done.
Qed.

Lemma main_loop_adds (targets : list text) :
  forall st st' e,
    main_loop targets st = (st', e) ->
    adds (Pipeline.all_chunks crawler targets) st st' e.
Proof.
  induction targets as [|target rest IH]; intros st st' e;
    cbn [Pipeline.main_loop Pipeline.all_chunks flat_map].
  - intros [= <- <-]. exists []. rewrite app_nil_r. unfold len. cbn.
    repeat split; [lia | by intros i w ?].
  - destruct (Pipeline.fetch_markdown crawler target) as [[md|]|].
    + destruct (write_chunks target (Pipeline.page_chunks md) st) as [st1 [e1|]] eqn:E.
      * intros [= <- <-]. apply write_chunks_adds in E as (new & Hf & Hc & Hn & Hb & _).
        exists new. repeat split; try done.
        rewrite Hb. f_equal. rewrite take_app_le; [done|].
        apply (f_equal length) in Hb. rewrite !length_map, length_take in Hb. lia.
      * intros H. apply write_chunks_adds in E. apply IH in H.
        by eapply adds_trans.
    + intros [= <- <-]. exists []. rewrite app_nil_r. unfold len. cbn.
      repeat split; [lia | by intros i w ? | done].
    + cbn [app]. apply IH.
Qed.

End RunFacts.

(** *** File names *)

Lemma number_of_zero (t : text) :
  Pipeline.number_of ("0"%char :: t) = Pipeline.number_of t.
Proof.
  unfold Pipeline.number_of. cbn [string_of_list_ascii NilEmpty.uint_of_string].
  by destruct (NilEmpty.uint_of_string (string_of_list_ascii t)).
Qed.

Lemma number_of_digits (n : nat) : Pipeline.number_of (Pipeline.digits n) = Some n.
Proof.
  unfold Pipeline.number_of, Pipeline.digits.
  rewrite string_of_list_ascii_of_string, NilEmpty.usu. cbn. f_equal.
  apply DecimalNat.Unsigned.of_to.
Qed.

Lemma zero_pad_inj (w : nat) (a b : Z) :
  0 <= a -> 0 <= b -> Pipeline.zero_pad w a = Pipeline.zero_pad w b -> a = b.
Proof.
  intros Ha Hb. unfold Pipeline.zero_pad.
  destruct (Z.ltb_spec a 0); [lia|]. destruct (Z.ltb_spec b 0); [lia|].
  assert (Hnum : forall k n, Pipeline.number_of (repeat "0"%char k ++ Pipeline.digits n) = Some n).
  { induction k as [|k IH]; intros n; cbn [repeat app]; [apply number_of_digits|].
    by rewrite number_of_zero. }
  intros E. apply (f_equal Pipeline.number_of) in E. rewrite !Hnum in E.
  injection E as E. lia.
Qed.

Lemma digits_no_slash (n : nat) : "/"%char ∉ Pipeline.digits n.
Proof.
  unfold Pipeline.digits. generalize (Nat.to_uint n). intros d.
  induction d; cbn [NilEmpty.string_of_uint list_ascii_of_string];
    [by intros ?%elem_of_nil | intros [?|?]%elem_of_cons; done ..].
Qed.

Lemma chunk_name_no_slash (n : Z) : 0 <= n -> "/"%char ∉ Pipeline.chunk_name n.
Proof.
  intros Hn. unfold Pipeline.chunk_name, Pipeline.zero_pad.
  destruct (Z.ltb_spec n 0); [lia|].
  rewrite !elem_of_app. intros [Hin|[[Hin|Hin]|Hin]].
  - apply list_elem_of_In in Hin. cbn in Hin. intuition discriminate.
  - by apply list_elem_of_In, repeat_spec in Hin.
  - by apply digits_no_slash in Hin.
  - apply list_elem_of_In in Hin. cbn in Hin. intuition discriminate.
Qed.

(** A joined path is the file name after nothing or after something that
    ends in [/]. *)
Lemma join_path_name (dir name : text) :
  starts_with (lit "/") name = false ->
  exists pre, Pipeline.join_path dir name = pre ++ name /\
              (pre = [] \/ exists pre', pre = pre' ++ ["/"%char]).
Proof.
  intros Hname. unfold Pipeline.join_path. rewrite Hname.
  destruct (negb (Chunks.is_nonempty dir)) eqn:Hd; cbn [orb].
  - exists dir. split; [done|]. left. by destruct dir.
  - destruct (Sitemap.ends_with (lit "/") dir) eqn:He.
    + exists dir. split; [done|]. right. by apply ends_with_spec in He.
    + exists (dir ++ lit "/"). split; [by rewrite <- app_assoc|]. right. by exists dir.
Qed.

Lemma chunk_path_inj (d1 d2 : text) (a b : Z) :
  0 <= a -> 0 <= b ->
  Pipeline.join_path d1 (Pipeline.chunk_name a) = Pipeline.join_path d2 (Pipeline.chunk_name b) ->
  a = b.
Proof.
  intros Ha Hb E.
  destruct (join_path_name d1 (Pipeline.chunk_name a) eq_refl) as (p1 & E1 & Hp1).
  destruct (join_path_name d2 (Pipeline.chunk_name b) eq_refl) as (p2 & E2 & Hp2).
  rewrite E1, E2 in E. clear E1 E2.
  pose proof (chunk_name_no_slash a Ha) as Hna. pose proof (chunk_name_no_slash b Hb) as Hnb.
  assert (Hname : Pipeline.chunk_name a = Pipeline.chunk_name b).
  { destruct Hp1 as [->|[q1 ->]], Hp2 as [->|[q2 ->]]; cbn [app] in E.
    - done.
    - exfalso. apply Hna. rewrite E, <- app_assoc. set_solver.
    - exfalso. apply Hnb. rewrite <- E, <- app_assoc. set_solver.
    - rewrite <- !app_assoc in E. cbn [app] in E.
      by destruct (last_part_unique _ _ _ _ _ E Hna Hnb). }
  unfold Pipeline.chunk_name in Hname.
  apply app_inv_head, app_inv_tail in Hname. by eapply zero_pad_inj.
Qed.

(** X15. The chunk files of a run are numbered in the order they are
    written, from 1 on and without a gap, across pages and sections and
    however the run ends; the counter is always one more than the number of
    files written. *)
Theorem run_pages_numbered
    (run_model : text -> Pipeline.process) (crawler : text -> result Fetcher.crawl_result)
    (url_path : text -> text) (targets : list text)
    (st : Pipeline.run) (e : option Pipeline.stop) :
  Pipeline.run_pages run_model crawler url_path targets = (st, e) ->
  Pipeline.numbered 1 (Pipeline.files st) /\
  Pipeline.counter st = 1 + len (Pipeline.files st).
Proof.
  intros H. apply main_loop_adds in H as (new & Hf & Hc & Hn & _).
  cbn in Hf, Hc, Hn. by rewrite Hf.
Qed.

Lemma run_pages_numbered_witness :
  map Pipeline.w_path
    (Pipeline.files (fst (Pipeline.run_pages RunExamples.model RunExamples.crawl
                            RunExamples.path_of RunExamples.targets)))
  = [lit "out_chunks/a_chunks/chunk_00001.md"; lit "out_chunks/a_chunks/chunk_00002.md";
     lit "out_chunks/c_chunks/chunk_00003.md"] /\
  Pipeline.numbered 1
    (Pipeline.files (fst (Pipeline.run_pages RunExamples.model RunExamples.crawl
                            RunExamples.path_of RunExamples.targets))).
Proof.
  split; [vm_compute; reflexivity|].
  apply (run_pages_numbered RunExamples.model RunExamples.crawl RunExamples.path_of
           RunExamples.targets _ (snd (Pipeline.run_pages RunExamples.model RunExamples.crawl
                                         RunExamples.path_of RunExamples.targets))).
  apply surjective_pairing.
Defined.

(** X16. No chunk file of a run is written twice: the paths of the files
    are pairwise distinct, whatever the folders the pages map to. *)
Theorem run_pages_no_overwrite
    (run_model : text -> Pipeline.process) (crawler : text -> result Fetcher.crawl_result)
    (url_path : text -> text) (targets : list text)
    (st : Pipeline.run) (e : option Pipeline.stop) :
  Pipeline.run_pages run_model crawler url_path targets = (st, e) ->
  NoDup (map Pipeline.w_path (Pipeline.files st)).
Proof.
  intros H. apply main_loop_adds in H as (new & Hf & _ & Hn & _).
  cbn in Hf, Hn. rewrite Hf. apply NoDup_alt. intros i j p Hi Hj.
  apply list_lookup_fmap_Some in Hi as (wi & Hp & Hi).
  apply list_lookup_fmap_Some in Hj as (wj & Hq & Hj).
  destruct (Hn _ _ Hi) as [di Hdi]. destruct (Hn _ _ Hj) as [dj Hdj].
  rewrite Hp, Hdi, Hdj in Hq. apply chunk_path_inj in Hq; lia.
Qed.

Lemma run_pages_no_overwrite_witness :
  NoDup (map Pipeline.w_path
           (Pipeline.files (fst (Pipeline.run_pages RunExamples.model RunExamples.crawl
                                   RunExamples.path_of RunExamples.targets)))).
Proof.
  apply (run_pages_no_overwrite RunExamples.model RunExamples.crawl RunExamples.path_of
           RunExamples.targets _ (snd (Pipeline.run_pages RunExamples.model RunExamples.crawl
                                         RunExamples.path_of RunExamples.targets))).
  apply surjective_pairing.
Defined.

(** X17. A run writes one file for each chunk of the pages it could fetch,
    in order, each holding the stripped summary of the chunk and the chunk;
    a page whose fetch raises is passed over and adds nothing.  If the run
    is stopped, the files are those of the chunks before the stop. *)
Theorem run_pages_files
    (run_model : text -> Pipeline.process) (crawler : text -> result Fetcher.crawl_result)
    (url_path : text -> text) (targets : list text)
    (st : Pipeline.run) (e : option Pipeline.stop) :
  Pipeline.run_pages run_model crawler url_path targets = (st, e) ->
  map Pipeline.w_body (Pipeline.files st)
  = map (Pipeline.body_of run_model)
      (take (length (Pipeline.files st)) (Pipeline.all_chunks crawler targets)) /\
  (e = None -> length (Pipeline.files st) = length (Pipeline.all_chunks crawler targets)).
Proof.
  intros H. apply main_loop_adds in H as (new & Hf & _ & _ & Hb & Hall).
  cbn in Hf. by rewrite Hf.
Qed.

Lemma run_pages_files_witness :
  map Pipeline.w_body
    (Pipeline.files (fst (Pipeline.run_pages RunExamples.model RunExamples.crawl
                            RunExamples.path_of RunExamples.targets)))
  = map (Pipeline.body_of RunExamples.model)
      [lit "# A

first"; lit "## B

second"; lit "# C

third"].
Proof.
  destruct (run_pages_files RunExamples.model RunExamples.crawl RunExamples.path_of
              RunExamples.targets _
              (snd (Pipeline.run_pages RunExamples.model RunExamples.crawl
                      RunExamples.path_of RunExamples.targets))
              (surjective_pairing _)) as [H _].
  rewrite H. vm_compute. reflexivity.
Defined.



(** A model without its daemon: the run stops at the first chunk, nothing is
    written. *)
Example run_pages_no_daemon :
  Pipeline.run_pages RunExamples.no_daemon RunExamples.crawl RunExamples.path_of
    RunExamples.targets
  = (Pipeline.Run 1 [], Some (Pipeline.SystemExit 1)).
Proof. vm_compute. reflexivity. Qed.
